(** * Weighted Product ranking ([weighted_product] of [app.py])

    A shallow embedding of the ranking routine of the decision-support
    application and the properties of its scoring algorithm.

    Numbers.  The routine computes on NumPy [float64] arrays.  They are
    modelled by [npfloat]: a real number, one of the two infinities, or
    NaN.  The special values follow IEEE 754 and C's [pow], because the
    routine runs into them (it divides by sums that can be zero and never
    raises on them).  What becomes of the exact result of an operation on
    finite operands (its rounding, its overflow to an infinity, its
    underflow to zero) is a parameter, the class [Arith].  The properties
    that do not depend on it are proved for every arithmetic, so also for
    the one of the machine; [float64] is the arithmetic with the range of
    the doubles; the properties of the formulas of the method are proved
    for [exact_arithmetic], where nothing is rounded and nothing
    overflows, and say so.  Negative zero is identified with zero.

    Text.  Python strings are modelled by [string], whose characters stand
    for the code points 0 to 255.

    Sorting.  The routine leaves the sorting algorithm to the default of
    [sort_values]; it is a parameter here, the class [ArgSort], constrained
    only by the contract of a sort. *)

From Stdlib Require Import Reals Lra Psatz ZArith Ascii.
From stdpp Require Import base decidable list strings sorting.

#[local] Open Scope R_scope.

(** ** NumPy's [float64] *)

Inductive npfloat : Type :=
  | Fin (r : R)
  | PInf
  | NInf
  | NaN.

#[global] Instance npfloat_inhabited : Inhabited npfloat := populate NaN.

#[global] Instance Rlt_decision : RelDecision Rlt := Rlt_dec.
#[global] Instance Rle_decision : RelDecision Rle := Rle_dec.
#[global] Instance Req_decision : EqDecision R := Req_dec_T.

Definition isnan (x : npfloat) : bool :=
  match x with NaN => true | _ => false end.

Definition isfinite (x : npfloat) : bool :=
  match x with Fin _ => true | _ => false end.

(** [-x] *)
Definition fneg (x : npfloat) : npfloat :=
  match x with
  | Fin r => Fin (- r)
  | PInf => NInf
  | NInf => PInf
  | NaN => NaN
  end.

(** The arithmetic of the finite values: [fl r] is what the operations
    [+], [*] and [/] return when the exact result of finite operands is
    [r], and what a decimal constant [r] of the program denotes;
    [fl_pow a b] is what [pow] returns for a finite base [a > 0] and a
    finite exponent [b] other than zero.  For the doubles of the machine
    [fl] rounds to the nearest double, gives an infinity beyond the
    largest one and zero below the smallest one, and [fl_pow] is the
    [pow] of the C library. *)
Class Arith : Type := {
  fl : R -> npfloat;
  fl_pow : R -> R -> npfloat
}.

(** [x + y]: opposite infinities cancel to NaN. *)
Definition fadd `{Arith} (x y : npfloat) : npfloat :=
  match x, y with
  | NaN, _ | _, NaN => NaN
  | Fin a, Fin b => fl (a + b)
  | PInf, NInf | NInf, PInf => NaN
  | PInf, _ | _, PInf => PInf
  | NInf, _ | _, NInf => NInf
  end.

Definition fsub `{Arith} (x y : npfloat) : npfloat := fadd x (fneg y).

(** The infinity that carries the sign of [r]; NaN for [r = 0]. *)
Definition signed_inf (r : R) : npfloat :=
  if decide (0 < r) then PInf else if decide (r < 0) then NInf else NaN.

(** [x * y]: zero times an infinity is NaN. *)
Definition fmul `{Arith} (x y : npfloat) : npfloat :=
  match x, y with
  | NaN, _ | _, NaN => NaN
  | Fin a, Fin b => fl (a * b)
  | Fin a, PInf | PInf, Fin a => signed_inf a
  | Fin a, NInf | NInf, Fin a => signed_inf (- a)
  | PInf, PInf | NInf, NInf => PInf
  | PInf, NInf | NInf, PInf => NInf
  end.

(** [x / y].  NumPy does not raise on a zero divisor: a non-zero finite
    number over zero is an infinity and zero over zero is NaN. *)
Definition fdiv `{Arith} (x y : npfloat) : npfloat :=
  match x, y with
  | NaN, _ | _, NaN => NaN
  | Fin a, Fin b => if decide (b = 0) then signed_inf a else fl (a / b)
  | Fin _, (PInf | NInf) => Fin 0
  | PInf, Fin b => if decide (b < 0) then NInf else PInf
  | NInf, Fin b => if decide (b < 0) then PInf else NInf
  | (PInf | NInf), (PInf | NInf) => NaN
  end.

Definition fabs (x : npfloat) : npfloat :=
  match x with
  | Fin r => Fin (Rabs r)
  | PInf | NInf => PInf
  | NaN => NaN
  end.

(** IEEE comparison [x < y]: false as soon as one side is NaN. *)
Definition flt (x y : npfloat) : Prop :=
  match x, y with
  | NaN, _ | _, NaN => False
  | Fin a, Fin b => a < b
  | NInf, (Fin _ | PInf) => True
  | Fin _, PInf => True
  | _, _ => False
  end.

#[global] Instance flt_decision : RelDecision flt.
Proof. intros [a| | |] [b| | |]; simpl; apply _. Defined.

(** IEEE comparison [x == y]. *)
Definition feq (x y : npfloat) : Prop :=
  match x, y with
  | Fin a, Fin b => a = b
  | PInf, PInf | NInf, NInf => True
  | _, _ => False
  end.

#[global] Instance feq_decision : RelDecision feq.
Proof. intros [a| | |] [b| | |]; simpl; apply _. Defined.

Definition fle (x y : npfloat) : Prop := flt x y \/ feq x y.

#[global] Instance fle_decision : RelDecision fle.
Proof. intros x y; unfold fle; apply _. Defined.

(** Whether the real [b] is an integer, and whether it is an odd one. *)
Definition is_integer (b : R) : Prop := IZR (Int_part b) = b.

Definition is_odd_integer (b : R) : Prop :=
  is_integer b /\ Z.odd (Int_part b) = true.

#[global] Instance is_integer_decision b : Decision (is_integer b).
Proof. unfold is_integer; apply _. Defined.

#[global] Instance is_odd_integer_decision b : Decision (is_odd_integer b).
Proof. unfold is_odd_integer; apply _. Defined.

(** [x ** y] on [float64] is C's [pow].  Its special cases come first:
    anything to the power zero is 1 and 1 to any power is 1, also for NaN;
    otherwise NaN propagates; a zero base gives zero or, for a negative
    exponent, infinity; a negative base has a power only for an integer
    exponent. *)
Definition fpow_inf_exp (x : npfloat) (grows : bool) : npfloat :=
  match x with
  | Fin a =>
      if decide (Rabs a < 1) then (if grows then Fin 0 else PInf)
      else if decide (Rabs a = 1) then Fin 1
      else (if grows then PInf else Fin 0)
  | _ => if grows then PInf else Fin 0
  end.

Definition fpow_fin `{Arith} (a b : R) : npfloat :=
  if decide (0 < a) then fl_pow a b
  else if decide (a = 0) then (if decide (b < 0) then PInf else Fin 0)
  else if decide (is_integer b) then
    (if decide (Z.odd (Int_part b) = true)
     then fneg (fl_pow (- a) b) else fl_pow (- a) b)
  else NaN.

Definition fpow `{Arith} (x y : npfloat) : npfloat :=
  match x, y with
  | _, Fin b =>
      if decide (b = 0) then Fin 1
      else match x with
           | Fin a => fpow_fin a b
           | PInf => if decide (b < 0) then Fin 0 else PInf
           | NInf =>
               if decide (b < 0) then Fin 0
               else if decide (is_odd_integer b) then NInf else PInf
           | NaN => NaN
           end
  | Fin a, _ =>
      if decide (a = 1) then Fin 1
      else match y with
           | PInf => fpow_inf_exp x true
           | NInf => fpow_inf_exp x false
           | _ => NaN
           end
  | NaN, _ => NaN
  | _, NaN => NaN
  | _, PInf => fpow_inf_exp x true
  | _, NInf => fpow_inf_exp x false
  end.

(** [np.isclose(a, b)] with its default tolerances [rtol = 1e-05] and
    [atol = 1e-08]: for finite arguments [|a - b| <= atol + rtol * |b|],
    computed in the arithmetic, otherwise equality. *)
Definition rtol : R := 1 / 100000.
Definition atol : R := 1 / 100000000.

Definition isclose `{Arith} (a b : npfloat) : bool :=
  if isfinite a && isfinite b
  then bool_decide (fle (fabs (fsub a b)) (fadd (fl atol) (fmul (fl rtol) (fabs b))))
  else bool_decide (feq a b).

(** [a.sum()] and [np.prod(a)] of a one-dimensional array, written as
    folds from the right.  NumPy adds in another order (in blocks, for
    the long arrays); in [exact_arithmetic] the order does not show, and
    what is proved for every arithmetic holds for every order: there a
    sum only matters through a NaN among its terms, which makes it NaN
    in every order. *)
Definition np_sum `{Arith} (a : list npfloat) : npfloat := foldr fadd (Fin 0) a.
Definition np_prod `{Arith} (a : list npfloat) : npfloat := foldr fmul (Fin 1) a.

(** *** Two arithmetics

    In the exact arithmetic every finite result is the real number
    itself: the formulas of the method as mathematics has them.  It is
    the arithmetic of every statement below that names no other one; the
    statements with a binder [Arith] hold in every arithmetic, and none
    of them depends on the order in which a sum is added up. *)
#[global] Instance exact_arithmetic : Arith := {|
  fl := Fin;
  fl_pow := fun a b => Fin (Rpower a b)
|}.

(** The range of the doubles: a result of magnitude [2^1024 - 2^970] or
    more is an infinity (the largest double is [2^1024 - 2^971], and what
    lies less than half a step beyond it is rounded back to it), a result
    of magnitude [2^-1075] or less is zero (the smallest double is
    [2^-1074]).  In between the result is kept as it is: the rounding to
    53 bits is left out of this arithmetic. *)
Definition overflow_threshold : R := 2 ^ 1024 - 2 ^ 970.
Definition underflow_threshold : R := / 2 ^ 1075.

Definition float64_range (r : R) : npfloat :=
  if decide (overflow_threshold <= Rabs r) then signed_inf r
  else if decide (Rabs r <= underflow_threshold) then Fin 0
  else Fin r.

Definition float64 : Arith := {|
  fl := float64_range;
  fl_pow := fun a b => float64_range (Rpower a b)
|}.

(** ** Python's [str.lower] and [str.strip] *)

Definition lower_char (c : ascii) : ascii :=
  let n := N_of_ascii c in
  if ((65 <=? n) && (n <=? 90) || (192 <=? n) && (n <=? 222) && negb (n =? 215))%N
  then ascii_of_N (n + 32)
  else c.

(** The white space of [str.strip()]: tab to carriage return, the four
    separators 28 to 31, the space, and NEL and the no-break space. *)
Definition isspace (c : ascii) : bool :=
  let n := N_of_ascii c in
  ((9 <=? n) && (n <=? 13) || (28 <=? n) && (n <=? 32) || (n =? 133) || (n =? 160))%N.

Fixpoint lower (s : string) : string :=
  match s with
  | EmptyString => EmptyString
  | String c s' => String (lower_char c) (lower s')
  end.

Fixpoint lstrip (s : string) : string :=
  match s with
  | EmptyString => EmptyString
  | String c s' => if isspace c then lstrip s' else s
  end.

Fixpoint rstrip (s : string) : string :=
  match s with
  | EmptyString => EmptyString
  | String c s' =>
      match rstrip s' with
      | EmptyString => if isspace c then EmptyString else String c EmptyString
      | r => String c r
      end
  end.

Definition strip (s : string) : string := lstrip (rstrip s).

(** ** Exceptions *)

Inductive exn : Type := ValueError | IndexError | AxisError.

Inductive result (A : Type) : Type :=
  | Ok (a : A)
  | Raise (e : exn).
Arguments Ok {A} a.
Arguments Raise {A} e.

#[global] Instance result_ret : MRet result := fun A a => Ok a.
#[global] Instance result_bind : MBind result := fun A B f m =>
  match m with
  | Ok a => f a
  | Raise e => Raise e
  end.

(** ** The ranking routine *)

(** One line of the result table. *)
Record row : Type := Row {
  Alternatif : string;
  Nilai_S : npfloat;
  Nilai_V : npfloat
}.

#[global] Instance row_inhabited : Inhabited row := populate (Row "" NaN NaN).

(** [np.array(X, dtype=float)] of a nested list: the rows must have one
    length. *)
Definition np_array2 (X : list (list npfloat)) : result (list (list npfloat)) :=
  match X with
  | [] => Ok []
  | r :: X' =>
      if decide (Forall (fun r' => length r' = length r) X') then Ok X
      else Raise ValueError
  end.

(** Lines 24 and 25: the weights are divided by their sum unless that sum
    is close to 1. *)
Definition normalize_weights `{Arith} (w : list npfloat) : list npfloat :=
  if negb (isclose (np_sum w) (Fin 1))
  then fmap (fun x => fdiv x (np_sum w)) w
  else w.

(** Lines 29 to 31: the loop over [enumerate(criteria_type)], started at
    index [j], updating [w_wp] in place. *)
Fixpoint negate_costs (j : nat) (criteria_type : list string)
    (w_wp : list npfloat) : result (list npfloat) :=
  match criteria_type with
  | [] => Ok w_wp
  | t :: ts =>
      if decide (strip (lower t) = "cost"%string) then
        match w_wp !! j with
        | Some x => negate_costs (S j) ts (<[j := fneg x]> w_wp)
        | None => Raise IndexError
        end
      else negate_costs (S j) ts w_wp
  end.

(** [x ** w_wp] for one row [x] of the matrix, with NumPy's broadcasting of
    a dimension of length one. *)
Definition pow_broadcast `{Arith} (x w_wp : list npfloat) : result (list npfloat) :=
  if decide (length x = length w_wp) then Ok (zip_with fpow x w_wp)
  else
    match x, w_wp with
    | _, [e] => Ok (fmap (fun b => fpow b e) x)
    | [b], _ => Ok (fmap (fpow b) w_wp)
    | _, _ => Raise ValueError
    end.

(** Line 34, [np.prod(X ** w_wp, axis=1)].  An empty nested list is a
    one-dimensional array: when it broadcasts, it has no axis 1. *)
Definition raw_scores `{Arith} (X : list (list npfloat)) (w_wp : list npfloat)
    : result (list npfloat) :=
  match X with
  | [] => if decide (length w_wp <= 1)%nat then Raise AxisError else Raise ValueError
  | _ => P ← mapM (fun x => pow_broadcast x w_wp) X; Ok (fmap np_prod P)
  end.

(** Lines 20 to 38: the vectors [S] and [V]. *)
Definition wp_scores `{Arith} (X : list (list npfloat)) (weights : list npfloat)
    (criteria_type : list string) : result (list npfloat * list npfloat) :=
  X ← np_array2 X;
  let w := normalize_weights weights in
  w_wp ← negate_costs 0 criteria_type w;
  S ← raw_scores X w_wp;
  let S_total := np_sum S in
  let V := fmap (fun s => fdiv s S_total) S in
  Ok (S, V).

(** [pd.DataFrame] of the three columns; they must have one length. *)
Definition table (alternatives : list string) (S V : list npfloat) : list row :=
  zip_with (fun a sv => Row a sv.1 sv.2) alternatives (zip S V).

Definition DataFrame (alternatives : list string) (S V : list npfloat)
    : result (list row) :=
  if decide (length alternatives = length S)
  then Ok (table alternatives S V)
  else Raise ValueError.

(** *** Sorting

    [sort_values] is called without [kind], so pandas sorts with NumPy's
    default [kind='quicksort'], which NumPy documents as not stable and
    implements differently from one platform to the next.  The sorting
    algorithm is therefore a parameter, constrained by what every
    [kind] guarantees: [argsort a] lists the indices of [a] so that the
    values ascend, NaN last. *)

(** NumPy's order on [float64]: [a < b || (b != b && a == a)]. *)
Definition np_less (a b : npfloat) : Prop :=
  flt a b \/ (isnan b /\ ~ isnan a).

#[global] Instance np_less_decision : RelDecision np_less.
Proof. intros a b; unfold np_less; apply _. Defined.

Definition np_le (a b : npfloat) : Prop := ~ np_less b a.

Class ArgSort : Type := {
  argsort : list npfloat -> list nat;
  argsort_perm : forall a, argsort a ≡ₚ seq 0 (length a);
  argsort_sorted : forall a,
    StronglySorted np_le (fmap (fun i => a !!! i) (argsort a))
}.

Section Engine.
Context {arithmetic : Arith} `{ArgSort}.

(** pandas' [nargsort(items, ascending=False, na_position='last')]: the
    values that are not NaN are reversed, sorted ascending and reversed
    again; the positions of the NaN values follow in their order. *)
Definition nargsort (items : list npfloat) : list nat :=
  let idx := seq 0 (length items) in
  let non_nans := reverse (filter (fun x => ~ isnan x) items) in
  let non_nan_idx := reverse (filter (fun i => ~ isnan (items !!! i)) idx) in
  let nan_idx := filter (fun i => isnan (items !!! i)) idx in
  let indexer := fmap (fun k => non_nan_idx !!! k) (argsort non_nans) in
  reverse indexer ++ nan_idx.

(** Line 48: [sort_values(by="Nilai_V", ascending=False)], then
    [reset_index(drop=True)], which leaves the lines as they are. *)
Definition sort_values (df : list row) : list row :=
  fmap (fun i => df !!! i) (nargsort (fmap Nilai_V df)).

Definition weighted_product (X : list (list npfloat)) (weights : list npfloat)
    (criteria_type : list string) (alternatives : list string)
    (criteria : list string) : result (list row) :=
  SV ← wp_scores X weights criteria_type;
  df_result ← DataFrame alternatives SV.1 SV.2;
  Ok (sort_values df_result).
End Engine.

(** *** Two sorting algorithms that meet the contract

    Insertion sort on the indices: index [i] is put in front of the first
    index whose value is not smaller, which keeps equal values in their
    order.  With [ties_first = false] the index is instead put behind the
    indices of equal value, which sorts just as well. *)

Section Insertion.
Variable ties_first : bool.
Variable a : list npfloat.

Definition goes_before (i e : nat) : bool :=
  if ties_first
  then bool_decide (np_le (a !!! i) (a !!! e))
  else bool_decide (np_less (a !!! i) (a !!! e)).

Fixpoint insert_index (i : nat) (l : list nat) : list nat :=
  match l with
  | [] => [i]
  | e :: l' => if goes_before i e then i :: l else e :: insert_index i l'
  end.

Definition insertion_argsort : list nat :=
  foldr insert_index [] (seq 0 (length a)).
End Insertion.

(** ** The scores in real arithmetic

    The formulas of the Weighted Product method as the specification
    writes them, on real numbers: [S_i] is the product over the criteria
    of [x_ij ^ e_j], and [V_i = S_i / S_total]. *)

Definition Rsum (l : list R) : R := foldr Rplus 0 l.
Definition Rprod (l : list R) : R := foldr Rmult 1 l.

Definition spec_raw_score (e x : list R) : R := Rprod (zip_with Rpower x e).

Definition spec_preference (S : list R) : list R :=
  fmap (fun s => s / Rsum S) S.

(** Whether a label selects the negated exponent (line 30). *)
Definition is_cost (t : string) : bool :=
  bool_decide (strip (lower t) = "cost"%string).

(** The real value of [np.isclose(s, 1.0)] for a finite [s]. *)
Definition close_to_one (s : R) : bool :=
  bool_decide (Rabs (s - 1) <= atol + rtol).

(** The weights and the exponents the routine uses, on real numbers. *)
Definition used_weights (w : list R) : list R :=
  if close_to_one (Rsum w) then w else fmap (fun x => x / Rsum w) w.

Definition signed (t : string) (x : R) : R := if is_cost t then - x else x.

Definition exponent_vector (w : list R) (criteria_type : list string) : list R :=
  zip_with signed criteria_type (used_weights w).

(** The inputs the specification calls valid, with real entries. *)
Record valid_input (X : list (list R)) (w : list R)
    (criteria_type : list string) : Prop := {
  valid_rows : X <> [];
  valid_shape : Forall (fun x => length x = length w) X;
  valid_entries : Forall (Forall (fun r => 0 < r)) X;
  valid_weights : Forall (fun r => 0 <= r) w;
  valid_weight_sum : 0 < Rsum w;
  valid_types_length : length criteria_type = length w;
  valid_types : Forall (fun t => strip (lower t) = "benefit"%string
                              \/ strip (lower t) = "cost"%string) criteria_type
}.

(** A real matrix as the array of finite floats the routine receives. *)
Definition real_matrix (X : list (list R)) : list (list npfloat) :=
  (fun x : list R => Fin <$> x) <$> X.

(** ** The routine in closed form

    What lines 20 to 38 compute when the shapes are consistent. *)

(** The exponent the loop of lines 29 to 31 leaves for a weight. *)
Definition fsigned (t : string) (x : npfloat) : npfloat :=
  if is_cost t then fneg x else x.

Definition exponents `{Arith} (weights : list npfloat) (criteria_type : list string)
    : list npfloat :=
  zip_with fsigned criteria_type (normalize_weights weights).

Definition scores_S `{Arith} (X : list (list npfloat)) (weights : list npfloat)
    (criteria_type : list string) : list npfloat :=
  fmap (fun x => np_prod (zip_with fpow x (exponents weights criteria_type))) X.

Definition scores_V `{Arith} (S : list npfloat) : list npfloat :=
  fmap (fun s => fdiv s (np_sum S)) S.

(** Strings of white space only. *)
Fixpoint all_space (s : string) : bool :=
  match s with
  | EmptyString => true
  | String c s' => isspace c && all_space s'
  end.

(** Two characters that are one letter: the same character, or a capital
    (A to Z, or one of the capitals 192 to 222 of Latin-1, the sign 215
    apart) and the small letter 32 code points after it. *)
Definition capital (n : N) : bool :=
  ((65 <=? n) && (n <=? 90) || (192 <=? n) && (n <=? 222) && negb (n =? 215))%N.

Definition same_letter (c c' : ascii) : bool :=
  let n := N_of_ascii c in
  let n' := N_of_ascii c' in
  ((n =? n') || capital n && (n' =? n + 32) || capital n' && (n =? n' + 32))%N.

(** Two texts that differ in case only. *)
Fixpoint same_letters (s s' : string) : bool :=
  match s, s' with
  | EmptyString, EmptyString => true
  | String c r, String c' r' => same_letter c c' && same_letters r r'
  | _, _ => false
  end.

(** Line [r1] may stand before line [r2]: [Nilai_V r2 <= Nilai_V r1] in
    the sense of IEEE. *)
Definition V_ge (r1 r2 : row) : Prop := fle (Nilai_V r2) (Nilai_V r1).

(** Every entry of column [j] multiplied by [c]. *)
Definition scale_column (c : R) (j : nat) (X : list (list R)) : list (list R) :=
  (fun x => alter (Rmult c) j x) <$> X.

(** ** Inputs used in the examples

    The scenario of the specification. *)

Definition scenario_X : list (list R) := [[80; 70]; [60; 90]].
Definition scenario_w : list R := [1/2; 1/2].
Definition scenario_types : list string := ["benefit"; "cost"]%string.
Definition scenario_labels : list string := ["A"; "B"]%string.

(** The two raw scores, [sqrt (80/70)] and [sqrt (60/90)]. *)
Definition scenario_S_A : R := Rpower 80 (1/2) * (Rpower 70 (- (1/2)) * 1).
Definition scenario_S_B : R := Rpower 60 (1/2) * (Rpower 90 (- (1/2)) * 1).

(** The scenario with its first entry replaced by zero. *)
Definition zero_entry_X : list (list R) := [[0; 70]; [60; 90]].

(** Two identical alternatives. *)
Definition tie_X : list (list R) := [[1]; [1]].

(** Two alternatives with one large entry each, [2^1023] and
    [1.5 * 2^1023]: both are doubles, their sum is beyond the doubles. *)
Definition large_X : list (list R) := [[2 ^ 1023]; [3 / 2 * 2 ^ 1023]].

(** ** The application around the routine (lines 96 to 177)

    The script reads a spreadsheet, two text fields and a button, checks
    them, calls [weighted_product] and offers the result for download.
    What Streamlit draws from line 96 on (headings, tables, messages,
    the download button) is recorded as a list of events.  The spreadsheet
    is modelled after [pd.read_excel]: its column names and its lines, each
    a text cell followed by numeric cells.  Python's [float] is a
    parameter: a text gives a number or raises [ValueError].  The widgets
    drawn before line 96 are the same in every run and are left out. *)

(** [s.split(",")] *)
Fixpoint split_comma (s : string) : list string :=
  match s with
  | EmptyString => [EmptyString]
  | String c s' =>
      if Ascii.eqb c "," then EmptyString :: split_comma s'
      else match split_comma s' with
           | f :: fs => String c f :: fs
           | [] => [String c EmptyString]
           end
  end.

(** [s.strip() != ""] *)
Definition not_blank (s : string) : Prop := strip s <> EmptyString.

(** Line 130: the list of the criteria types. *)
Definition parse_types (criteria_types_input : string) : list string :=
  (fun t => lower (strip t))
    <$> filter not_blank (split_comma criteria_types_input).

(** Line 124: the list of the weights; [None] when [float] raises. *)
Definition parse_weights (float : string -> option npfloat)
    (weights_input : string) : option (list npfloat) :=
  mapM float (filter not_blank (split_comma weights_input)).

(** A data frame as [pd.read_excel] returns it. *)
Record sheet : Type := Sheet {
  columns : list string;
  lines : list (string * list npfloat)
}.

(** The messages of [st.error]. *)
Inductive message : Type :=
  | NoFile
  | EmptyParameters
  | UnreadableFile
  | TooFewColumns
  | BadWeights
  | WeightCount (given n_crit : nat)
  | TypeCount (given n_crit : nat).

Inductive ui_event : Type :=
  | st_error (m : message)
  | st_markdown (body : string)
  | st_dataframe_input (df : sheet)
  | st_table_info (info : list (string * npfloat * string))
  | st_dataframe_result (hasil_wp : list row)
  | st_download_button (data : list row)
  | st_success.

(** How a run of the script ends: [st.stop()] or an exception nobody
    catches. *)
Inductive halt : Type :=
  | Stopped
  | NameError
  | EngineError (e : exn).

(** A step of the script: it adds to the events drawn so far and either
    goes on with a value or ends the run. *)
Definition ui (A : Type) : Type :=
  list ui_event -> list ui_event * (A + halt).

#[global] Instance ui_ret : MRet ui := fun A a log => (log, inl a).
#[global] Instance ui_bind : MBind ui := fun A B f m log =>
  match m log with
  | (log', inl a) => f a log'
  | (log', inr h) => (log', inr h)
  end.

Definition draw (e : ui_event) : ui unit := fun log => (log ++ [e], inl tt).
Definition end_run {A} (h : halt) : ui A := fun log => (log, inr h).

(** [weighted_product] on the array [df.iloc[:, 1:].values], which has two
    dimensions also when it has no line: then the loop and the broadcast
    are as usual and every column of the result is empty. *)
Definition weighted_product_values {arithmetic : Arith} `{ArgSort} (n_crit : nat)
    (X : list (list npfloat)) (weights : list npfloat)
    (criteria_type alternatives criteria : list string) : result (list row) :=
  match X with
  | [] =>
      w_wp ← negate_costs 0 criteria_type (normalize_weights weights);
      if decide (n_crit = length w_wp \/ length w_wp = 1%nat \/ n_crit = 1%nat)
      then df_result ← DataFrame alternatives [] []; Ok (sort_values df_result)
      else Raise ValueError
  | _ => weighted_product X weights criteria_type alternatives criteria
  end.

Section Script.
Context {arithmetic : Arith} `{ArgSort}.
Variable float : string -> option npfloat.

(** Lines 97 to 166, the branch of the pressed button; its value is the
    variable [buffer], bound only when the ranking was computed. *)
Definition pressed (uploaded_file : option (option sheet))
    (weights_input criteria_types_input : string) : ui (option (list row)) :=
  match uploaded_file with
  | None => draw (st_error NoFile);; mret None
  | Some file =>
      if decide (~ not_blank weights_input \/ ~ not_blank criteria_types_input)
      then draw (st_error EmptyParameters);; mret None
      else
        df ← match file with
             | None => draw (st_error UnreadableFile);; end_run Stopped
             | Some df => mret df
             end;
        if decide (length (columns df) < 2)%nat
        then draw (st_error TooFewColumns);; end_run Stopped
        else
          let alternatives := (lines df).*1 in
          let criteria := drop 1 (columns df) in
          let X := (lines df).*2 in
          let n_crit := length criteria in
          weights ← match parse_weights float weights_input with
                    | None => draw (st_error BadWeights);; end_run Stopped
                    | Some weights => mret weights
                    end;
          let criteria_type := parse_types criteria_types_input in
          if decide (length weights <> n_crit)
          then draw (st_error (WeightCount (length weights) n_crit));;
               end_run Stopped
          else if decide (length criteria_type <> n_crit)
          then draw (st_error (TypeCount (length criteria_type) n_crit));;
               end_run Stopped
          else
            draw (st_markdown "### Data Alternatif & Kriteria (dari Excel)");;
            draw (st_dataframe_input df);;
            draw (st_markdown "### Informasi Kriteria");;
            draw (st_table_info (zip (zip criteria weights) criteria_type));;
            hasil_wp ← match weighted_product_values n_crit X weights
                               criteria_type alternatives criteria with
                       | Ok t => mret t
                       | Raise e => end_run (EngineError e)
                       end;
            draw (st_markdown
                    "### Hasil Perhitungan & Perangkingan (Metode WP)");;
            draw (st_dataframe_result hasil_wp);;
            mret (Some hasil_wp)
  end.

(** Lines 96 to 177: the branch runs when the button is pressed; the
    download button and the final message follow in every run, and the
    download button reads [buffer]. *)
Definition script (proses : bool) (uploaded_file : option (option sheet))
    (weights_input criteria_types_input : string) : ui unit :=
  buffer ← (if proses
            then pressed uploaded_file weights_input criteria_types_input
            else mret None);
  data ← match buffer with
         | None => end_run NameError
         | Some data => mret data
         end;
  draw (st_download_button data);;
  draw st_success.
End Script.

(** ** Auxiliary definitions for the properties of the code *)

(** The exponents in general: [exponents] for the weights that have a
    label, the normalized weight for the others. *)
Definition exponents_gen `{Arith} (weights : list npfloat) (criteria_type : list string)
    : list npfloat :=
  exponents weights criteria_type
  ++ drop (length criteria_type) (normalize_weights weights).

(** Whether [x ** w_wp] broadcasts, for rows of [m] entries and [k]
    exponents. *)
Definition broadcasts (m k : nat) : Prop := m = k \/ k = 1%nat \/ m = 1%nat.

(** Some label beyond the weights normalizes to cost. *)
Definition cost_beyond (weights : list npfloat) (criteria_type : list string)
    : Prop :=
  Exists (fun t => is_cost t = true) (drop (length weights) criteria_type).

(** The raw score of one row, NaN standing in where the broadcast
    raises. *)
Definition row_score `{Arith} (e x : list npfloat) : npfloat :=
  match pow_broadcast x e with
  | Ok p => np_prod p
  | Raise _ => NaN
  end.

(** A text without comma. *)
Fixpoint no_comma (s : string) : bool :=
  match s with
  | EmptyString => true
  | String c s' => negb (Ascii.eqb c ",") && no_comma s'
  end.

(** The scenario as the lines of a sheet. *)
Definition scenario_lines : list (string * list npfloat) :=
  [("A"%string, [Fin 80; Fin 70]); ("B"%string, [Fin 60; Fin 90])].

(** A reading of the text "1" only, and a sheet of one line and one
    criterion. *)
Definition float_one (s : string) : option npfloat :=
  if decide (s = "1"%string) then Some (Fin 1) else None.

Definition one_line_sheet : sheet :=
  Sheet ["Alternatif"%string; "C1"%string] [("A"%string, [Fin 5])].

(** ** Properties of the order *)

Lemma np_le_total (x y : npfloat) : np_le x y \/ np_le y x.
Proof.
  unfold np_le, np_less.
  destruct x as [a| | |], y as [b| | |]; simpl; try tauto.
  destruct (Rle_dec a b); [left | right]; intros [?|[? ?]]; tauto || lra.
Qed.

Lemma np_le_trans (x y z : npfloat) : np_le x y -> np_le y z -> np_le x z.
Proof.
  unfold np_le, np_less.
  destruct x as [a| | |], y as [b| | |], z as [c| | |]; simpl; try tauto.
  intros Hab Hbc [Hca|[? ?]]; [|tauto].
  assert (a <= b) by (apply Rnot_lt_le; tauto).
  assert (b <= c) by (apply Rnot_lt_le; tauto).
  lra.
Qed.

Lemma np_less_le (x y : npfloat) : np_less x y -> np_le x y.
Proof.
  unfold np_le, np_less.
  destruct x as [a| | |], y as [b| | |]; simpl; try tauto.
  intros [?|[? ?]] [?|[? ?]]; tauto || lra.
Qed.

Lemma np_le_fin (a b : R) : np_le (Fin a) (Fin b) <-> a <= b.
Proof.
  unfold np_le, np_less; simpl. split.
  - intros Hn. apply Rnot_lt_le. tauto.
  - intros Hle [?|[? ?]]; tauto || lra.
Qed.

(** ** The insertion sorts meet the contract *)

Lemma insert_index_perm ties_first a i l :
  insert_index ties_first a i l ≡ₚ i :: l.
Proof.
  induction l as [|e l IH]; simpl; [done|].
  destruct (goes_before ties_first a i e); [done|].
  rewrite IH. apply Permutation_swap.
Qed.

Lemma insertion_argsort_perm ties_first a :
  insertion_argsort ties_first a ≡ₚ seq 0 (length a).
Proof.
  unfold insertion_argsort.
  induction (seq 0 (length a)) as [|i l IH]; simpl; [done|].
  by rewrite insert_index_perm, IH.
Qed.

Lemma goes_before_le ties_first a i e :
  goes_before ties_first a i e = true -> np_le (a !!! i) (a !!! e).
Proof.
  unfold goes_before. destruct ties_first; intros Hb.
  - by apply bool_decide_eq_true in Hb.
  - apply bool_decide_eq_true in Hb. by apply np_less_le.
Qed.

Lemma goes_before_ge ties_first a i e :
  goes_before ties_first a i e = false -> np_le (a !!! e) (a !!! i).
Proof.
  unfold goes_before. destruct ties_first; intros Hb.
  - apply bool_decide_eq_false in Hb.
    destruct (np_le_total (a !!! i) (a !!! e)); tauto.
  - by apply bool_decide_eq_false in Hb.
Qed.

Lemma insert_index_sorted ties_first a i l :
  StronglySorted np_le (fmap (fun k => a !!! k) l) ->
  StronglySorted np_le (fmap (fun k => a !!! k) (insert_index ties_first a i l)).
Proof.
  induction l as [|e l IH]; simpl; intros Hs.
  - repeat constructor.
  - apply StronglySorted_inv in Hs as [Hs Hall].
    destruct (goes_before ties_first a i e) eqn:Hb; simpl.
    + apply goes_before_le in Hb.
      constructor; [by constructor|].
      constructor; [done|].
      eapply Forall_impl; [exact Hall|].
      intros x Hx. by eapply np_le_trans.
    + apply goes_before_ge in Hb.
      constructor; [by apply IH|].
      rewrite (insert_index_perm ties_first a i l). simpl.
      by constructor.
Qed.

Lemma insertion_argsort_sorted ties_first a :
  StronglySorted np_le (fmap (fun k => a !!! k) (insertion_argsort ties_first a)).
Proof.
  unfold insertion_argsort.
  induction (seq 0 (length a)) as [|i l IH]; simpl; [constructor|].
  by apply insert_index_sorted.
Qed.

(** The insertion sort that keeps equal values in their order. *)
#[global] Instance insertion_sort : ArgSort := {|
  argsort := insertion_argsort true;
  argsort_perm := insertion_argsort_perm true;
  argsort_sorted := insertion_argsort_sorted true
|}.

(** The insertion sort that puts an index behind the indices of equal
    value.  Not declared an instance: it is named where it is used. *)
Definition insertion_sort_behind : ArgSort := {|
  argsort := insertion_argsort false;
  argsort_perm := insertion_argsort_perm false;
  argsort_sorted := insertion_argsort_sorted false
|}.

(** ** Arithmetic of [npfloat] on finite values *)

Lemma np_sum_Fin (l : list R) : np_sum (fmap Fin l) = Fin (Rsum l).
Proof.
  unfold np_sum. induction l as [|r l IH]; csimpl; [done|]. by rewrite IH.
Qed.

Lemma np_prod_Fin (l : list R) : np_prod (fmap Fin l) = Fin (Rprod l).
Proof.
  unfold np_prod. induction l as [|r l IH]; csimpl; [done|]. by rewrite IH.
Qed.

Lemma fdiv_Fin (a b : R) : b <> 0 -> fdiv (Fin a) (Fin b) = Fin (a / b).
Proof. intros Hb. simpl. by rewrite decide_False. Qed.

Lemma fpow_pos (a b : R) : 0 < a -> fpow (Fin a) (Fin b) = Fin (Rpower a b).
Proof.
  intros Ha. simpl. destruct (decide (b = 0)) as [->|Hb].
  - by rewrite Rpower_O.
  - unfold fpow_fin. by rewrite decide_True.
Qed.

Lemma isclose_one (s : R) : isclose (Fin s) (Fin 1) = close_to_one s.
Proof.
  unfold isclose, close_to_one. simpl.
  apply bool_decide_ext. unfold fle. simpl.
  rewrite Rabs_R1. replace (s + - (1)) with (s - 1) by lra.
  unfold Rle. split.
  - intros [?|?]; lra.
  - intros [?|?]; [left|right]; lra.
Qed.

Lemma Rsum_pos (l : list R) : l <> [] -> Forall (fun r => 0 < r) l -> 0 < Rsum l.
Proof.
  intros Hne Hl. destruct Hl as [|r l Hr Hl]; [done|]. clear Hne. simpl.
  enough (0 <= Rsum l) by lra.
  induction Hl as [|r' l Hr' Hl IH]; simpl; lra.
Qed.

Lemma Rprod_pos (l : list R) : Forall (fun r => 0 < r) l -> 0 < Rprod l.
Proof.
  induction 1 as [|r l Hr Hl IH]; simpl; [lra|].
  by apply Rmult_lt_0_compat.
Qed.

Lemma Rpower_pos (x y : R) : 0 < Rpower x y.
Proof. apply exp_pos. Qed.

Lemma zip_Rpower_pos (x e : list R) : Forall (fun r => 0 < r) (zip_with Rpower x e).
Proof.
  revert e; induction x as [|a x IH]; intros [|b e]; simpl; constructor.
  - apply Rpower_pos.
  - apply IH.
Qed.

Lemma spec_raw_score_pos (e x : list R) : 0 < spec_raw_score e x.
Proof. apply Rprod_pos, zip_Rpower_pos. Qed.

Lemma Rsum_div (l : list R) (k : R) :
  Rsum (fmap (fun s => s / k) l) = Rsum l / k.
Proof. induction l as [|r l IH]; csimpl; [|rewrite IH]; lra. Qed.

Lemma Rsum_spec_preference (S : list R) :
  Rsum S <> 0 -> Rsum (spec_preference S) = 1.
Proof.
  intros Hne. unfold spec_preference. rewrite Rsum_div. by field.
Qed.

(** ** The routine on inputs of consistent shape *)

Lemma negate_costs_app `{Arith} (pre : list npfloat) ts w :
  (length ts <= length w)%nat ->
  negate_costs (length pre) ts (pre ++ w)
  = Ok (pre ++ zip_with fsigned ts w ++ drop (length ts) w).
Proof.
  revert pre w. induction ts as [|t ts IH]; intros pre w Hlen; simpl.
  - by rewrite drop_0.
  - destruct w as [|x w]; simpl in Hlen; [lia|].
    assert (Hnext : forall y : npfloat,
      negate_costs (S (length pre)) ts (pre ++ y :: w)
      = Ok (pre ++ y :: zip_with fsigned ts w ++ drop (length ts) w)).
    { intros y. specialize (IH (pre ++ [y]) w ltac:(lia)).
      rewrite length_app in IH. simpl in IH.
      replace (length pre + 1)%nat with (S (length pre)) in IH by lia.
      by rewrite <- !(assoc_L (++)) in IH. }
    unfold fsigned at 1, is_cost.
    destruct (decide (strip (lower t) = "cost"%string)) as [Hc|Hc].
    + rewrite bool_decide_eq_true_2 by done.
      rewrite list_lookup_middle by done.
      rewrite insert_app_r_alt, Nat.sub_diag by lia. apply Hnext.
    + rewrite bool_decide_eq_false_2 by done. apply Hnext.
Qed.

Lemma negate_costs_eq `{Arith} ts w :
  length ts = length w -> negate_costs 0 ts w = Ok (zip_with fsigned ts w).
Proof.
  intros Hlen. pose proof (negate_costs_app [] ts w) as Happ.
  simpl in Happ. rewrite Happ by lia.
  by rewrite Hlen, drop_all, app_nil_r.
Qed.

Lemma length_normalize_weights `{Arith} w : length (normalize_weights w) = length w.
Proof.
  unfold normalize_weights. destruct (negb _); [by rewrite length_fmap|done].
Qed.

Lemma length_exponents `{Arith} w ts :
  length ts = length w -> length (exponents w ts) = length w.
Proof.
  intros Hlen. unfold exponents.
  rewrite length_zip_with, length_normalize_weights. lia.
Qed.

Lemma mapM_Ok {A B} (f : A -> result B) (g : A -> B) (l : list A) :
  Forall (fun x => f x = Ok (g x)) l -> mapM f l = Ok (fmap g l).
Proof.
  induction 1 as [|x l Hx Hl IH]; csimpl; [done|].
  rewrite Hx. change (mapM f l ≫= (fun k => mret (g x :: k)) = Ok (g x :: (g <$> l))).
  by rewrite IH.
Qed.

Lemma pow_broadcast_eq `{Arith} (x e : list npfloat) :
  length x = length e -> pow_broadcast x e = Ok (zip_with fpow x e).
Proof. intros Hlen. unfold pow_broadcast. by rewrite decide_True. Qed.

Lemma np_array2_eq (X : list (list npfloat)) (n : nat) :
  Forall (fun x => length x = n) X -> np_array2 X = Ok X.
Proof.
  intros HX. destruct HX as [|x X Hx HX]; simpl; [done|].
  rewrite decide_True; [done|].
  eapply Forall_impl; [exact HX|]. simpl. congruence.
Qed.

(** With at least one alternative, as many weights and labels as the
    matrix has columns, lines 20 to 38 raise nothing and compute [S] and
    [V] by the formulas above, whatever the values are. *)
Lemma wp_scores_eq `{Arith} X w ts :
  X <> [] ->
  Forall (fun x => length x = length w) X ->
  length ts = length w ->
  wp_scores X w ts = Ok (scores_S X w ts, scores_V (scores_S X w ts)).
Proof.
  intros Hne Hshape Hlen. unfold wp_scores.
  rewrite (np_array2_eq X (length w)) by done. simpl.
  rewrite negate_costs_eq by by rewrite length_normalize_weights.
  simpl. fold (exponents w ts).
  unfold raw_scores. destruct X as [|x X]; [done|].
  rewrite (mapM_Ok _ (fun x => zip_with fpow x (exponents w ts))).
  - csimpl. unfold scores_S, scores_V. csimpl. by rewrite <- list_fmap_compose.
  - eapply Forall_impl; [exact Hshape|]. intros y Hy. simpl in Hy.
    apply pow_broadcast_eq. by rewrite length_exponents.
Qed.

Lemma length_scores_S `{Arith} X w ts : length (scores_S X w ts) = length X.
Proof. unfold scores_S. by rewrite length_fmap. Qed.

Lemma length_scores_V `{Arith} S : length (scores_V S) = length S.
Proof. unfold scores_V. by rewrite length_fmap. Qed.

(** ** Sorting the table *)

#[global] Instance np_le_transitive : Transitive np_le.
Proof. intros x y z. apply np_le_trans. Qed.

Lemma fmap_lookup_total_seq {A} `{!Inhabited A} (l : list A) :
  fmap (fun i => l !!! i) (seq 0 (length l)) = l.
Proof.
  apply list_eq; intros i. rewrite list_lookup_fmap.
  destruct (decide (i < length l)%nat) as [Hi|Hi].
  - rewrite lookup_seq_lt by done. simpl.
    by rewrite list_lookup_lookup_total_lt.
  - rewrite lookup_seq_ge by lia. simpl.
    by rewrite lookup_ge_None_2 by lia.
Qed.

Lemma filter_lookup_seq {A} `{!Inhabited A} (P : A -> Prop)
    `{!forall x, Decision (P x)} (pre l : list A) :
  (fun i => (pre ++ l) !!! i)
    <$> filter (fun i => P ((pre ++ l) !!! i)) (seq (length pre) (length l))
  = filter P l.
Proof.
  revert pre. induction l as [|x l IH]; intros pre; [done|].
  specialize (IH (pre ++ [x])).
  rewrite length_app, <- (assoc_L (++)) in IH. simpl in IH.
  replace (length pre + 1)%nat with (S (length pre)) in IH by lia.
  cbn [length seq]. rewrite !filter_cons.
  rewrite list_lookup_total_middle by done.
  destruct (decide (P x)); [|done].
  rewrite fmap_cons, list_lookup_total_middle by done.
  by rewrite IH.
Qed.

Lemma length_filter_lookup {A} `{!Inhabited A} (P : A -> Prop)
    `{!forall x, Decision (P x)} (l : list A) :
  length (filter (fun i => P (l !!! i)) (seq 0 (length l)))
  = length (filter P l).
Proof.
  rewrite <- (filter_lookup_seq P [] l). simpl. by rewrite length_fmap.
Qed.

Section SortLemmas.
Context `{ArgSort}.

Lemma nargsort_perm (items : list npfloat) :
  nargsort items ≡ₚ seq 0 (length items).
Proof.
  unfold nargsort.
  set (idx := seq 0 (length items)).
  set (non_nan_idx := reverse (filter (fun i => ~ isnan (items !!! i)) idx)).
  set (non_nans := reverse (filter (fun x => ~ isnan x) items)).
  assert (Hlen : length non_nans = length non_nan_idx).
  { unfold non_nans, non_nan_idx, idx.
    rewrite !length_reverse.
    pose proof (length_filter_lookup (fun x => ~ isnan x) items) as Hl.
    by rewrite Hl. }
  rewrite reverse_Permutation, (argsort_perm non_nans), Hlen.
  rewrite fmap_lookup_total_seq.
  unfold non_nan_idx. rewrite reverse_Permutation.
  rewrite <- (filter_app_complement (fun i => ~ isnan (items !!! i)) idx) at 3.
  apply Permutation_app; [done|].
  erewrite list_filter_iff; [done|]. intros i. cbv beta.
  destruct (isnan (items !!! i)); simpl; tauto.
Qed.

Lemma nargsort_lt (items : list npfloat) :
  Forall (fun i => (i < length items)%nat) (nargsort items).
Proof.
  rewrite (nargsort_perm items). apply Forall_forall. intros i Hi.
  apply elem_of_seq in Hi. lia.
Qed.

Lemma sort_values_perm (df : list row) : sort_values df ≡ₚ df.
Proof.
  unfold sort_values. rewrite nargsort_perm, length_fmap.
  by rewrite fmap_lookup_total_seq.
Qed.

Lemma length_sort_values (df : list row) :
  length (sort_values df) = length df.
Proof. by rewrite sort_values_perm. Qed.
End SortLemmas.

Lemma filter_all {A} (P : A -> Prop) `{!forall x, Decision (P x)} (l : list A) :
  Forall P l -> filter P l = l.
Proof.
  induction 1 as [|x l Hx Hl IH]; [done|].
  by rewrite filter_cons_True, IH.
Qed.

Lemma filter_none {A} (P : A -> Prop) `{!forall x, Decision (P x)} (l : list A) :
  Forall (fun x => ~ P x) l -> filter P l = [].
Proof.
  induction 1 as [|x l Hx Hl IH]; [done|].
  by rewrite filter_cons_False, IH.
Qed.

Lemma StronglySorted_reverse {A} (R : relation A) (l : list A) :
  StronglySorted R l -> StronglySorted (flip R) (reverse l).
Proof.
  induction 1 as [|x l Hl IH Hx]; [constructor|].
  rewrite reverse_cons. apply StronglySorted_app_2; [|done|by repeat constructor].
  intros y z Hy Hz. apply list_elem_of_singleton in Hz as ->.
  rewrite elem_of_reverse in Hy. rewrite Forall_forall in Hx.
  unfold flip. by apply Hx.
Qed.

Lemma StronglySorted_fmap_inv {A B} (f : A -> B) (R : relation B) (l : list A) :
  StronglySorted R (f <$> l) -> StronglySorted (fun x y => R (f x) (f y)) l.
Proof.
  induction l as [|x l IH]; csimpl; intros Hs; [constructor|].
  apply StronglySorted_inv in Hs as [Hs Hall].
  constructor; [by apply IH|].
  rewrite Forall_fmap in Hall. exact Hall.
Qed.

Lemma lookup_total_reverse_seq (n k : nat) :
  (k < n)%nat -> reverse (seq 0 n) !!! k = (n - S k)%nat.
Proof.
  intros Hk. apply list_lookup_total_correct.
  rewrite reverse_lookup by (rewrite length_seq; lia).
  rewrite length_seq. rewrite lookup_seq_lt by lia. done.
Qed.

Lemma lookup_total_reverse {A} `{!Inhabited A} (l : list A) (k : nat) :
  (k < length l)%nat -> reverse l !!! k = l !!! (length l - S k)%nat.
Proof.
  intros Hk. apply list_lookup_total_correct.
  rewrite reverse_lookup by done.
  apply list_lookup_lookup_total_lt. lia.
Qed.

Section SortedLemmas.
Context `{ArgSort}.

(** Without NaN among the values, [nargsort] lists the indices so that
    the values descend. *)
Lemma nargsort_sorted (items : list npfloat) :
  Forall (fun x => ~ isnan x) items ->
  StronglySorted (flip np_le) (fmap (fun i => items !!! i) (nargsort items)).
Proof.
  intros Hnn. unfold nargsort.
  rewrite (filter_all (fun x => ~ isnan x) items) by done.
  rewrite (filter_all (fun i => ~ isnan (items !!! i))).
  2:{ apply Forall_forall. intros i Hi. apply elem_of_seq in Hi.
      rewrite Forall_forall in Hnn. apply Hnn.
      apply list_elem_of_lookup_total_2. lia. }
  rewrite (filter_none (fun i => Is_true (isnan (items !!! i)))).
  2:{ apply Forall_forall. intros i Hi. apply elem_of_seq in Hi.
      rewrite Forall_forall in Hnn. apply Hnn.
      apply list_elem_of_lookup_total_2. lia. }
  rewrite app_nil_r.
  rewrite fmap_reverse, <- list_fmap_compose.
  apply StronglySorted_reverse.
  pose proof (argsort_sorted (reverse items)) as Hs.
  pose proof (argsort_perm (reverse items)) as Hp.
  rewrite length_reverse in Hp.
  erewrite (list_fmap_ext _ (fun k => reverse items !!! k)); [exact Hs|].
  intros j k Hk. simpl.
  assert (k < length items)%nat as Hlt.
  { apply list_elem_of_lookup_2 in Hk. rewrite Hp in Hk.
    apply elem_of_seq in Hk. lia. }
  rewrite lookup_total_reverse_seq by done.
  by rewrite lookup_total_reverse by done.
Qed.

Lemma sort_values_sorted (df : list row) :
  Forall (fun r => ~ isnan (Nilai_V r)) df ->
  StronglySorted (fun r1 r2 => np_le (Nilai_V r2) (Nilai_V r1)) (sort_values df).
Proof.
  intros Hnn. apply (StronglySorted_fmap_inv Nilai_V (flip np_le)).
  unfold sort_values.
  assert (Hitems : Forall (fun x => ~ isnan x) (fmap Nilai_V df)).
  { by apply Forall_fmap. }
  pose proof (nargsort_sorted _ Hitems) as Hs.
  pose proof (nargsort_lt (fmap Nilai_V df)) as Hlt.
  rewrite length_fmap in Hlt.
  rewrite <- list_fmap_compose.
  erewrite list_fmap_ext; [exact Hs|].
  intros j i Hi. simpl.
  rewrite Forall_forall in Hlt.
  pose proof (list_lookup_total_fmap Nilai_V df i) as Hf.
  rewrite Hf; [done|].
  apply Hlt. by eapply list_elem_of_lookup_2.
Qed.
End SortedLemmas.

(** ** The routine as a whole *)

Lemma length_table alts S V :
  length alts = length S -> length S = length V ->
  length (table alts S V) = length alts.
Proof.
  intros H1 H2. unfold table. rewrite length_zip_with, length_zip. lia.
Qed.

Lemma table_Nilai_V alts S V :
  length alts = length S -> length S = length V ->
  Nilai_V <$> table alts S V = V.
Proof.
  unfold table. revert S V.
  induction alts as [|a alts IH]; intros [|s S] [|v V] H1 H2;
    simplify_eq/=; [done|]. f_equal. by apply IH.
Qed.

Lemma table_Nilai_S alts S V :
  length alts = length S -> length S = length V ->
  Nilai_S <$> table alts S V = S.
Proof.
  unfold table. revert S V.
  induction alts as [|a alts IH]; intros [|s S] [|v V] H1 H2;
    simplify_eq/=; [done|]. f_equal. by apply IH.
Qed.

Lemma table_Alternatif alts S V :
  length alts = length S -> length S = length V ->
  Alternatif <$> table alts S V = alts.
Proof.
  unfold table. revert S V.
  induction alts as [|a alts IH]; intros [|s S] [|v V] H1 H2;
    simplify_eq/=; [done|]. f_equal. by apply IH.
Qed.

Section Whole.
Context {arithmetic : Arith} `{ArgSort}.

(** On inputs of consistent shape the routine raises nothing and returns
    the sorted table of the scores. *)
Lemma weighted_product_eq X w ts alts crit :
  X <> [] ->
  Forall (fun x => length x = length w) X ->
  length ts = length w ->
  length alts = length X ->
  weighted_product X w ts alts crit
  = Ok (sort_values (table alts (scores_S X w ts)
                           (scores_V (scores_S X w ts)))).
Proof.
  intros Hne Hshape Hlen Halts. unfold weighted_product.
  rewrite wp_scores_eq by done. simpl.
  unfold DataFrame. by rewrite decide_True by by rewrite length_scores_S.
Qed.
End Whole.

(** ** Valid inputs: the scores are those of the real formulas *)

Lemma normalize_weights_Fin (w : list R) :
  Rsum w <> 0 -> normalize_weights (Fin <$> w) = Fin <$> used_weights w.
Proof.
  intros Hs. unfold normalize_weights, used_weights.
  rewrite np_sum_Fin, isclose_one.
  destruct (close_to_one (Rsum w)); simpl; [done|].
  rewrite <- !list_fmap_compose. apply list_fmap_ext.
  intros i x _. simpl. by rewrite decide_False.
Qed.

Lemma zip_with_fsigned_Fin ts (u : list R) :
  zip_with fsigned ts (Fin <$> u) = Fin <$> zip_with signed ts u.
Proof.
  revert u. induction ts as [|t ts IH]; intros [|x u]; csimpl; try done.
  rewrite IH. f_equal. unfold fsigned, signed. by destruct (is_cost t).
Qed.

Lemma exponents_Fin (w : list R) ts :
  Rsum w <> 0 -> exponents (Fin <$> w) ts = Fin <$> exponent_vector w ts.
Proof.
  intros Hs. unfold exponents, exponent_vector.
  by rewrite normalize_weights_Fin, zip_with_fsigned_Fin.
Qed.

Lemma zip_with_fpow_Fin (x e : list R) :
  Forall (fun r => 0 < r) x ->
  zip_with fpow (Fin <$> x) (Fin <$> e) = Fin <$> zip_with Rpower x e.
Proof.
  intros Hx. revert e. induction Hx as [|a x Ha Hx IH]; intros [|b e];
    try done.
  rewrite !fmap_cons. cbn [zip_with]. rewrite fmap_cons.
  by rewrite fpow_pos, IH.
Qed.

Lemma scores_S_Fin (X : list (list R)) (w : list R) ts :
  Rsum w <> 0 ->
  Forall (Forall (fun r => 0 < r)) X ->
  scores_S (real_matrix X) (Fin <$> w) ts
  = Fin <$> (spec_raw_score (exponent_vector w ts) <$> X).
Proof.
  intros Hs HX. unfold scores_S, real_matrix. rewrite exponents_Fin by done.
  rewrite <- !list_fmap_compose. apply Forall_fmap_ext_1.
  eapply Forall_impl; [exact HX|]. intros x Hx. simpl.
  by rewrite zip_with_fpow_Fin, np_prod_Fin.
Qed.

Lemma scores_V_Fin (S : list R) :
  Rsum S <> 0 -> scores_V (Fin <$> S) = Fin <$> spec_preference S.
Proof.
  intros Hs. unfold scores_V, spec_preference. rewrite np_sum_Fin.
  rewrite <- !list_fmap_compose. apply list_fmap_ext.
  intros i s _. simpl. by rewrite decide_False.
Qed.

Lemma Rsum_raw_scores_pos (e : list R) (X : list (list R)) :
  X <> [] -> 0 < Rsum (spec_raw_score e <$> X).
Proof.
  intros Hne. apply Rsum_pos.
  - by destruct X.
  - apply Forall_fmap, Forall_forall. intros x _. apply spec_raw_score_pos.
Qed.

Lemma valid_scores X w ts :
  valid_input X w ts ->
  let S := spec_raw_score (exponent_vector w ts) <$> X in
  scores_S (real_matrix X) (Fin <$> w) ts = Fin <$> S
  /\ scores_V (Fin <$> S) = Fin <$> spec_preference S.
Proof.
  intros [Hne Hshape Hpos Hw Hsum Hlen Hty]. simpl. split.
  - apply scores_S_Fin; [lra|done].
  - apply scores_V_Fin. pose proof (Rsum_raw_scores_pos (exponent_vector w ts) X Hne). lra.
Qed.

Lemma valid_shape_Fin X w ts :
  valid_input X w ts ->
  real_matrix X <> []
  /\ Forall (fun x => length x = length (Fin <$> w)) (real_matrix X)
  /\ length ts = length (Fin <$> w).
Proof.
  intros [Hne Hshape Hpos Hw Hsum Hlen Hty]. unfold real_matrix. repeat split.
  - by destruct X.
  - apply Forall_fmap. eapply Forall_impl; [exact Hshape|].
    intros x Hx. simpl. by rewrite !length_fmap.
  - by rewrite length_fmap.
Qed.

(** ** The scenario of the specification *)

Lemma is_cost_benefit : is_cost "benefit" = false.
Proof. reflexivity. Qed.

Lemma is_cost_cost : is_cost "cost" = true.
Proof. reflexivity. Qed.

Lemma close_to_one_1 (s : R) : s = 1 -> close_to_one s = true.
Proof.
  intros ->. apply bool_decide_eq_true_2.
  replace (1 - 1) with 0 by lra. rewrite Rabs_R0. unfold atol, rtol. lra.
Qed.

Lemma scenario_valid : valid_input scenario_X scenario_w scenario_types.
Proof.
  split.
  - done.
  - repeat constructor.
  - repeat constructor; lra.
  - repeat constructor; lra.
  - simpl. lra.
  - done.
  - repeat constructor; by (left + right).
Qed.

Lemma wp_scores_valid (X : list (list R)) (w : list R) (ts : list string) :
  valid_input X w ts ->
  wp_scores (real_matrix X) (Fin <$> w) ts
  = Ok (Fin <$> (spec_raw_score (exponent_vector w ts) <$> X),
        Fin <$> spec_preference (spec_raw_score (exponent_vector w ts) <$> X)).
Proof.
  intros Hv.
  destruct (valid_shape_Fin X w ts Hv) as (Hne & Hshape & Hlen).
  destruct (valid_scores X w ts Hv) as [HS HV].
  rewrite wp_scores_eq by done. by rewrite HS, HV.
Qed.

(** ** Two values that are equal, under the two insertion sorts *)

Lemma insertion_argsort_tie (ties_first : bool) (a : R) :
  insertion_argsort ties_first [Fin a; Fin a]
  = if ties_first then [0; 1]%nat else [1; 0]%nat.
Proof.
  unfold insertion_argsort. cbn [length seq foldr insert_index].
  unfold goes_before. cbn [lookup_total list_lookup_total].
  destruct ties_first.
  - rewrite bool_decide_eq_true_2; [done|]. apply np_le_fin. lra.
  - rewrite bool_decide_eq_false_2; [done|].
    unfold np_less. simpl. intros [?|[? ?]]; [lra|done].
Qed.

Lemma sort_values_tie (ties_first : bool) (r1 r2 : row) (a : R) :
  Nilai_V r1 = Fin a -> Nilai_V r2 = Fin a ->
  sort_values
    (H := if ties_first then insertion_sort else insertion_sort_behind)
    [r1; r2]
  = if ties_first then [r1; r2] else [r2; r1].
Proof.
  intros H1 H2. unfold sort_values, nargsort.
  rewrite !fmap_cons, fmap_nil, H1, H2.
  assert (Hargsort :
    argsort (ArgSort := if ties_first then insertion_sort else insertion_sort_behind)
      [Fin a; Fin a] = if ties_first then [0; 1]%nat else [1; 0]%nat).
  { pose proof (insertion_argsort_tie ties_first a). by destruct ties_first. }
  change (reverse (filter (fun x => ~ isnan x) [Fin a; Fin a]))
    with [Fin a; Fin a].
  rewrite Hargsort. by destruct ties_first.
Qed.

(** ** C1: the scores of a valid input *)

(** C1, in exact arithmetic (the statement is about [exact_arithmetic]:
    no result is rounded and none leaves the finite range).  For every
    valid input (entries finite and positive, weights non-negative with a
    positive sum, every type benefit or cost, as many weights and types
    as columns, at least one alternative) lines 20 to 38 compute [S_i] as
    the product over the criteria of [x_ij] to the signed exponent [e_j]
    and [V_i = S_i / S_total]; the [V_i] sum to 1; and the returned table
    holds exactly the lines (label, [S_i], [V_i]).  In the arithmetic of
    the machine this fails where a sum overflows: [C1_sum_overflows]. *)
Theorem C1_scores_of_valid_input `{ArgSort} (X : list (list R)) (w : list R)
    (ts alts crit : list string) :
  valid_input X w ts ->
  length alts = length X ->
  let e := exponent_vector w ts in
  let S := spec_raw_score e <$> X in
  let V := spec_preference S in
  wp_scores (real_matrix X) (Fin <$> w) ts = Ok (Fin <$> S, Fin <$> V)
  /\ Rsum V = 1
  /\ exists t, weighted_product (real_matrix X) (Fin <$> w) ts alts crit = Ok t
            /\ t ≡ₚ table alts (Fin <$> S) (Fin <$> V).
Proof.
  intros Hv Halts e S V.
  destruct (valid_shape_Fin X w ts Hv) as (Hne & Hshape & Hlen).
  destruct (valid_scores X w ts Hv) as [HS HV]. fold e S in HS, HV. fold V in HV.
  assert (HlenX : length (real_matrix X) = length X).
  { unfold real_matrix. by rewrite length_fmap. }
  split; [|split].
  - rewrite wp_scores_eq by done. by rewrite HS, HV.
  - apply Rsum_spec_preference.
    pose proof (Rsum_raw_scores_pos e X (valid_rows _ _ _ Hv)). fold S in H0. lra.
  - eexists. split.
    + apply weighted_product_eq; try done. by rewrite HlenX.
    + rewrite sort_values_perm. by rewrite HS, HV.
Qed.

Lemma C1_witness :
  valid_input scenario_X scenario_w scenario_types
  /\ Rsum (spec_preference
             (spec_raw_score (exponent_vector scenario_w scenario_types)
                <$> scenario_X)) = 1.
Proof.
  split; [exact scenario_valid|].
  exact (proj1 (proj2 (C1_scores_of_valid_input
    scenario_X scenario_w scenario_types scenario_labels []
    scenario_valid eq_refl))).
Defined.

(** *** The same in the range of the doubles *)

Lemma float64_range_id (r : R) :
  underflow_threshold < Rabs r < overflow_threshold ->
  float64_range r = Fin r.
Proof.
  intros [Hu Ho]. unfold float64_range.
  rewrite decide_False by lra. by rewrite decide_False by lra.
Qed.

Lemma float64_range_zero (r : R) : r = 0 -> float64_range r = Fin 0.
Proof.
  intros ->. unfold float64_range, overflow_threshold, underflow_threshold.
  rewrite Rabs_R0. rewrite decide_False by lra. by rewrite decide_True by lra.
Qed.

Lemma float64_range_overflow (r : R) :
  overflow_threshold <= r -> float64_range r = PInf.
Proof.
  intros Ho. unfold float64_range.
  assert (0 < r) by (unfold overflow_threshold in Ho; lra).
  rewrite Rabs_pos_eq by lra. rewrite decide_True by done.
  unfold signed_inf. by rewrite decide_True.
Qed.

Lemma float64_range_between (r : R) :
  / 2 ^ 1075 < r < 2 ^ 1024 - 2 ^ 970 -> float64_range r = Fin r.
Proof.
  intros Hr. apply float64_range_id.
  unfold underflow_threshold, overflow_threshold.
  rewrite Rabs_pos_eq; lra.
Qed.

Lemma float64_one_is_close : isclose (H := float64) (Fin (1 + 0)) (Fin 1) = true.
Proof.
  unfold isclose, fsub, fadd, fmul, fabs, fneg. cbn [isfinite andb fl float64].
  rewrite (float64_range_zero (1 + 0 + - (1))) by lra.
  rewrite Rabs_R1.
  rewrite (float64_range_between atol) by (unfold atol; lra).
  rewrite (float64_range_between rtol) by (unfold rtol; lra).
  rewrite (float64_range_between (rtol * 1)) by (unfold rtol; lra).
  rewrite (float64_range_between (atol + rtol * 1)) by (unfold atol, rtol; lra).
  apply bool_decide_eq_true_2. left. cbn [flt]. rewrite Rabs_R0.
  unfold atol, rtol. lra.
Qed.

Lemma float64_pow_one (a : R) :
  / 2 ^ 1075 < a < 2 ^ 1024 - 2 ^ 970 ->
  np_prod (H := float64) [fpow (H := float64) (Fin a) (Fin 1)] = Fin a.
Proof.
  intros Ha. unfold np_prod, fpow, fpow_fin. cbn [foldr].
  rewrite decide_False by lra. rewrite decide_True by lra.
  cbn [fl_pow float64]. rewrite Rpower_1 by lra.
  rewrite (float64_range_between a) by done.
  cbn [fmul fl float64]. replace (a * 1) with a by lra.
  by apply float64_range_between.
Qed.

Lemma large_X_valid : valid_input large_X [1] ["benefit"%string].
Proof.
  split.
  - done.
  - by repeat constructor.
  - repeat constructor; lra.
  - repeat constructor; lra.
  - cbn [Rsum foldr]. lra.
  - done.
  - repeat constructor; by left.
Qed.

Lemma large_X_scores :
  wp_scores (H := float64) (real_matrix large_X) [Fin 1] ["benefit"%string]
  = Ok ([Fin (2 ^ 1023); Fin (3 / 2 * 2 ^ 1023)], [Fin 0; Fin 0]).
Proof.
  rewrite wp_scores_eq; [|done|by repeat constructor|done].
  assert (Hw : normalize_weights (H := float64) [Fin 1] = [Fin 1]).
  { unfold normalize_weights, np_sum. cbn [foldr fadd fl float64].
    rewrite (float64_range_between (1 + 0)) by lra.
    by rewrite float64_one_is_close. }
  assert (HS : scores_S (H := float64) (real_matrix large_X) [Fin 1]
                 ["benefit"%string]
               = [Fin (2 ^ 1023); Fin (3 / 2 * 2 ^ 1023)]).
  { unfold scores_S, exponents. rewrite Hw.
    unfold real_matrix, large_X. rewrite !fmap_cons, !fmap_nil.
    cbn [zip_with]. unfold fsigned. rewrite is_cost_benefit.
    by rewrite !float64_pow_one by lra. }
  rewrite HS. do 2 f_equal. unfold scores_V, np_sum.
  cbn [foldr fadd fl float64].
  rewrite (float64_range_between (3 / 2 * 2 ^ 1023 + 0)) by lra.
  rewrite (float64_range_overflow (2 ^ 1023 + (3 / 2 * 2 ^ 1023 + 0)))
    by (unfold overflow_threshold; lra).
  done.
Qed.

(** The claim fails in the arithmetic of the machine.  The input
    [[2^1023], [1.5 * 2^1023]] with the weight 1 on a benefit criterion is
    valid; the raw scores are the two entries; their sum is beyond the
    largest double, so [S_total] is infinite and both preference scores
    are 0: they sum to 0, not to 1, and are not [S_i / S_total] of the
    real numbers, 0.4 and 0.6. *)
Lemma C1_sum_overflows :
  valid_input large_X [1] ["benefit"%string]
  /\ wp_scores (H := float64) (real_matrix large_X) [Fin 1] ["benefit"%string]
     = Ok ([Fin (2 ^ 1023); Fin (3 / 2 * 2 ^ 1023)], [Fin 0; Fin 0])
  /\ np_sum (H := float64) [Fin (2 ^ 1023); Fin (3 / 2 * 2 ^ 1023)] = PInf
  /\ np_sum (H := float64) [Fin 0; Fin 0] = Fin 0
  /\ spec_preference
       (spec_raw_score (exponent_vector [1] ["benefit"%string]) <$> large_X)
     = [2 / 5; 3 / 5]
  /\ weighted_product (arithmetic := float64) (H := insertion_sort)
       (real_matrix large_X) [Fin 1] ["benefit"%string] ["A"; "B"]%string []
     = Ok [Row "A" (Fin (2 ^ 1023)) (Fin 0);
           Row "B" (Fin (3 / 2 * 2 ^ 1023)) (Fin 0)].
Proof.
  split; [exact large_X_valid|]. split; [exact large_X_scores|].
  split; [|split; [|split]].
  - unfold np_sum. cbn [foldr fadd fl float64].
    rewrite (float64_range_between (3 / 2 * 2 ^ 1023 + 0)) by lra.
    apply float64_range_overflow. unfold overflow_threshold. lra.
  - unfold np_sum. cbn [foldr fadd fl float64].
    rewrite (float64_range_zero (0 + 0)) by lra.
    apply float64_range_zero. lra.
  - assert (He : exponent_vector [1] ["benefit"%string] = [1]).
    { unfold exponent_vector, used_weights.
      rewrite close_to_one_1 by (cbn [Rsum foldr]; lra). cbn [zip_with].
      unfold signed. by rewrite is_cost_benefit. }
    rewrite He. unfold large_X, spec_raw_score, spec_preference.
    cbn [fmap list_fmap zip_with Rprod Rsum foldr].
    rewrite !Rpower_1 by lra. f_equal; [field; lra|]. f_equal. field; lra.
  - unfold weighted_product. rewrite large_X_scores.
    cbn [mbind result_bind fst snd]. unfold DataFrame.
    rewrite decide_True by done. cbn [mbind result_bind]. f_equal.
    exact (sort_values_tie true (Row "A" (Fin (2 ^ 1023)) (Fin 0))
             (Row "B" (Fin (3 / 2 * 2 ^ 1023)) (Fin 0)) 0 eq_refl eq_refl).
Qed.

(** ** C2: the scenario, evaluated *)

Lemma Rpower_half_sqr (x : R) : 0 < x -> Rpower x (1/2) * Rpower x (1/2) = x.
Proof.
  intros Hx. rewrite <- Rpower_plus.
  replace (1/2 + 1/2) with 1 by lra. by apply Rpower_1.
Qed.

Lemma Rpower_neg_half (x : R) : Rpower x (- (1/2)) = / Rpower x (1/2).
Proof. apply Rpower_Ropp. Qed.

Lemma scenario_exponents :
  exponent_vector scenario_w scenario_types = [1/2; - (1/2)].
Proof.
  unfold exponent_vector, used_weights, scenario_w, scenario_types.
  rewrite close_to_one_1 by (simpl; lra).
  simpl. unfold signed. by rewrite is_cost_benefit, is_cost_cost.
Qed.

Lemma Rdiv_between (p q a b : R) :
  0 < q -> a * q < p -> p < b * q -> a < p / q < b.
Proof.
  intros Hq Ha Hb. split; apply (Rmult_lt_reg_r q); try done;
    unfold Rdiv; rewrite Rmult_assoc, Rinv_l; lra.
Qed.

Lemma scenario_S_A_bounds : 106904 / 100000 < scenario_S_A < 106905 / 100000.
Proof.
  unfold scenario_S_A. rewrite Rpower_neg_half.
  pose proof (Rpower_pos 80 (1/2)) as Hp.
  pose proof (Rpower_pos 70 (1/2)) as Hq.
  pose proof (Rpower_half_sqr 80 ltac:(lra)) as Hp2.
  pose proof (Rpower_half_sqr 70 ltac:(lra)) as Hq2.
  set (p := Rpower 80 (1/2)) in *. set (q := Rpower 70 (1/2)) in *.
  replace (p * (/ q * 1)) with (p / q) by (field; lra).
  apply Rdiv_between; [done| |]; nra.
Qed.

Lemma scenario_S_B_bounds : 81649 / 100000 < scenario_S_B < 81650 / 100000.
Proof.
  unfold scenario_S_B. rewrite Rpower_neg_half.
  pose proof (Rpower_pos 60 (1/2)) as Hp.
  pose proof (Rpower_pos 90 (1/2)) as Hq.
  pose proof (Rpower_half_sqr 60 ltac:(lra)) as Hp2.
  pose proof (Rpower_half_sqr 90 ltac:(lra)) as Hq2.
  set (p := Rpower 60 (1/2)) in *. set (q := Rpower 90 (1/2)) in *.
  replace (p * (/ q * 1)) with (p / q) by (field; lra).
  apply Rdiv_between; [done| |]; nra.
Qed.

Lemma scenario_raw_scores :
  spec_raw_score (exponent_vector scenario_w scenario_types) <$> scenario_X
  = [scenario_S_A; scenario_S_B].
Proof. by rewrite scenario_exponents. Qed.

Lemma sort_values_pair `{ArgSort} (r1 r2 : row) (a b : R) :
  Nilai_V r1 = Fin a -> Nilai_V r2 = Fin b -> b < a ->
  sort_values [r1; r2] = [r1; r2].
Proof.
  intros H1 H2 Hlt.
  pose proof (sort_values_perm [r1; r2]) as Hp. symmetry in Hp.
  apply Permutation_length_2_inv in Hp as [Hp|Hp]; [done|].
  assert (Hs : StronglySorted (fun x y => np_le (Nilai_V y) (Nilai_V x))
                 (sort_values [r1; r2])).
  { apply sort_values_sorted.
    repeat constructor; rewrite ?H1, ?H2; simpl; tauto. }
  rewrite Hp in Hs. apply StronglySorted_inv in Hs as [_ Hs].
  apply Forall_inv in Hs. rewrite H1, H2 in Hs.
  apply np_le_fin in Hs. lra.
Qed.

(** C2.  On the matrix [[80,70],[60,90]] with weights [0.5,0.5], types
    benefit and cost and labels A and B, the exponents are [0.5,-0.5], the
    raw scores, their total and the preference scores agree with 1.0690,
    0.8165, 1.8855, 0.5669 and 0.4331 to within one unit of the fourth
    decimal, and the table lists A before B. *)
Theorem C2_scenario `{ArgSort} (crit : list string) :
  exponents (Fin <$> scenario_w) scenario_types = [Fin (1/2); Fin (- (1/2))]
  /\ exists S_A S_B V_A V_B : R,
       wp_scores (real_matrix scenario_X) (Fin <$> scenario_w) scenario_types
       = Ok ([Fin S_A; Fin S_B], [Fin V_A; Fin V_B])
       /\ np_sum [Fin S_A; Fin S_B] = Fin (S_A + S_B)
       /\ Rabs (S_A - 10690 / 10000) < 1 / 10000
       /\ Rabs (S_B - 8165 / 10000) < 1 / 10000
       /\ Rabs (S_A + S_B - 18855 / 10000) < 1 / 10000
       /\ Rabs (V_A - 5669 / 10000) < 1 / 10000
       /\ Rabs (V_B - 4331 / 10000) < 1 / 10000
       /\ weighted_product (real_matrix scenario_X) (Fin <$> scenario_w)
            scenario_types scenario_labels crit
          = Ok [Row "A" (Fin S_A) (Fin V_A); Row "B" (Fin S_B) (Fin V_B)].
Proof.
  pose proof scenario_S_A_bounds as HA. pose proof scenario_S_B_bounds as HB.
  set (T := scenario_S_A + (scenario_S_B + 0)).
  assert (HT : 188553 / 100000 < T < 188555 / 100000) by (unfold T; lra).
  assert (HVA : 56696 / 100000 < scenario_S_A / T < 56698 / 100000).
  { apply Rdiv_between; lra. }
  assert (HVB : 43302 / 100000 < scenario_S_B / T < 43304 / 100000).
  { apply Rdiv_between; lra. }
  pose proof (wp_scores_valid _ _ _ scenario_valid) as Hsc.
  destruct (valid_shape_Fin _ _ _ scenario_valid) as (Hne & Hshape & Hlen).
  rewrite scenario_raw_scores in Hsc.
  change (spec_preference [scenario_S_A; scenario_S_B])
    with [scenario_S_A / T; scenario_S_B / T] in Hsc.
  split.
  - rewrite exponents_Fin by (simpl; lra). by rewrite scenario_exponents.
  - exists scenario_S_A, scenario_S_B, (scenario_S_A / T), (scenario_S_B / T).
    split; [exact Hsc|].
    split; [simpl; f_equal; lra|].
    repeat (split; [apply Rabs_def1; lra|]).
    unfold weighted_product. rewrite Hsc. simpl.
    f_equal. apply (sort_values_pair _ _ (scenario_S_A / T) (scenario_S_B / T));
      [done|done|lra].
Qed.

(** ** C3: the sign of the exponents and the matching of the labels *)

Lemma isspace_lower_char (c : ascii) : isspace (lower_char c) = isspace c.
Proof. destruct c as [[] [] [] [] [] [] [] []]; reflexivity. Qed.

Lemma append_cons (c : ascii) (s1 s2 : string) :
  String c s1 +:+ s2 = String c (s1 +:+ s2).
Proof. reflexivity. Qed.

Lemma append_nil (s : string) : EmptyString +:+ s = s.
Proof. reflexivity. Qed.

Lemma append_assoc (s1 s2 s3 : string) :
  (s1 +:+ s2) +:+ s3 = s1 +:+ s2 +:+ s3.
Proof.
  induction s1 as [|c s1 IH]; [done|]. by rewrite !append_cons, IH.
Qed.

Lemma lower_app (s1 s2 : string) :
  lower (s1 +:+ s2) = lower s1 +:+ lower s2.
Proof.
  induction s1 as [|c s1 IH]; [done|].
  rewrite append_cons. simpl. by rewrite IH, append_cons.
Qed.

Lemma all_space_lower (s : string) : all_space (lower s) = all_space s.
Proof.
  induction s as [|c s IH]; simpl; [done|].
  by rewrite isspace_lower_char, IH.
Qed.

Lemma all_space_app (s1 s2 : string) :
  all_space s1 = true -> all_space s2 = true -> all_space (s1 +:+ s2) = true.
Proof.
  intros H1 H2. induction s1 as [|c s1 IH]; [done|].
  rewrite append_cons. simpl in *.
  apply andb_true_iff in H1 as [Hc H1]. by rewrite Hc, IH.
Qed.

Lemma lstrip_app_space (p s : string) :
  all_space p = true -> lstrip (p +:+ s) = lstrip s.
Proof.
  induction p as [|c p IH]; [done|]. rewrite append_cons. simpl.
  intros [Hc Hp]%andb_true_iff. rewrite Hc. by apply IH.
Qed.

Lemma rstrip_space (q : string) : all_space q = true -> rstrip q = EmptyString.
Proof.
  induction q as [|c q IH]; simpl; [done|].
  intros [Hc Hq]%andb_true_iff. by rewrite IH, Hc.
Qed.

Lemma rstrip_app_space (s q : string) :
  all_space q = true -> rstrip (s +:+ q) = rstrip s.
Proof.
  intros Hq. induction s as [|c s IH].
  - by apply rstrip_space.
  - rewrite append_cons. simpl. by rewrite IH.
Qed.

Lemma rstrip_empty_space (s : string) :
  rstrip s = EmptyString -> all_space s = true.
Proof.
  induction s as [|c s IH]; simpl; [done|].
  destruct (rstrip s) eqn:Hr; [|done].
  destruct (isspace c); [|done]. intros _. by rewrite IH.
Qed.

Lemma rstrip_app_nonempty (p s : string) :
  rstrip s <> EmptyString -> rstrip (p +:+ s) = p +:+ rstrip s.
Proof.
  intros Hs. induction p as [|c p IH]; [done|].
  rewrite !append_cons. simpl. rewrite IH.
  destruct (p +:+ rstrip s) eqn:Hp; [|done].
  destruct p; [by destruct Hs|]. by rewrite append_cons in Hp.
Qed.

Lemma strip_app_space (p s q : string) :
  all_space p = true -> all_space q = true ->
  strip (p +:+ s +:+ q) = strip s.
Proof.
  intros Hp Hq. unfold strip.
  rewrite <- append_assoc, rstrip_app_space by done.
  destruct (rstrip s) eqn:Hs.
  - rewrite rstrip_space; [done|].
    apply all_space_app; [done|]. by apply rstrip_empty_space.
  - rewrite rstrip_app_nonempty by by rewrite Hs.
    rewrite Hs. by apply lstrip_app_space.
Qed.

Lemma lower_char_small (c : ascii) (n : N) :
  capital n = true -> N_of_ascii c = (n + 32)%N -> lower_char c = c.
Proof.
  intros Hn Hc. unfold lower_char. rewrite Hc.
  assert (Hr : ((65 <=? n + 32) && (n + 32 <=? 90)
                || (192 <=? n + 32) && (n + 32 <=? 222)
                   && negb (n + 32 =? 215))%N = false).
  { unfold capital in Hn. apply orb_true_iff in Hn.
    rewrite !andb_true_iff, !N.leb_le in Hn.
    apply orb_false_iff.
    rewrite !andb_false_iff, !N.leb_gt, negb_false_iff, N.eqb_eq. lia. }
  by rewrite Hr.
Qed.

Lemma lower_char_capital (c : ascii) :
  capital (N_of_ascii c) = true ->
  lower_char c = ascii_of_N (N_of_ascii c + 32).
Proof. intros Hc. unfold lower_char, capital in *. by rewrite Hc. Qed.

Lemma same_letter_lower (c c' : ascii) :
  same_letter c c' = true -> lower_char c = lower_char c'.
Proof.
  unfold same_letter. intros Hs.
  apply orb_true_iff in Hs as [Hs|Hs]; [apply orb_true_iff in Hs as [Hs|Hs]|].
  - apply N.eqb_eq in Hs.
    by rewrite <- (ascii_N_embedding c), Hs, ascii_N_embedding.
  - apply andb_true_iff in Hs as [Hc Hs]. apply N.eqb_eq in Hs.
    rewrite (lower_char_capital c Hc), (lower_char_small c' _ Hc Hs).
    by rewrite <- Hs, ascii_N_embedding.
  - apply andb_true_iff in Hs as [Hc Hs]. apply N.eqb_eq in Hs.
    rewrite (lower_char_capital c' Hc), (lower_char_small c _ Hc Hs).
    by rewrite <- Hs, ascii_N_embedding.
Qed.

Lemma same_letters_lower (s s' : string) :
  same_letters s s' = true -> lower s = lower s'.
Proof.
  revert s'. induction s as [|c s IH]; intros [|c' s']; simpl; try done.
  intros [Hc Hs]%andb_true_iff. by rewrite (same_letter_lower c c'), (IH s').
Qed.

(** Labels that differ only in case and in surrounding white space are
    matched alike. *)
Lemma label_matching_insensitive (p t t' q : string) :
  all_space p = true -> all_space q = true -> same_letters t' t = true ->
  strip (lower (p +:+ t' +:+ q)) = strip (lower t).
Proof.
  intros Hp Hq Ht. rewrite !lower_app, (same_letters_lower t' t Ht).
  apply strip_app_space; by rewrite all_space_lower.
Qed.

(** C3.  In every arithmetic, with as many labels as weights, the loop of
    lines 29 to 31 raises nothing; for every criterion [j], with [w_j']
    the weight after line 25, the exponent used in the product is [w_j']
    when the label normalizes to benefit and [-w_j'] when it normalizes to
    cost; and the label is matched regardless of case and of surrounding
    white space: a label that differs from [t] in the case of its letters
    only, between white space, normalizes to what [t] normalizes to, so
    the labels written COST, Cost or cost, with or without blanks around
    them, give the negated weight and those written Benefit or BENEFIT
    the weight itself. *)
Theorem C3_signed_exponents `{Arith} (weights : list npfloat) (ts : list string) :
  length ts = length weights ->
  negate_costs 0 ts (normalize_weights weights) = Ok (exponents weights ts)
  /\ (forall (j : nat) (t : string) (x : npfloat),
        ts !! j = Some t -> normalize_weights weights !! j = Some x ->
        (strip (lower t) = "benefit"%string ->
           exponents weights ts !! j = Some x)
        /\ (strip (lower t) = "cost"%string ->
           exponents weights ts !! j = Some (fneg x)))
  /\ (forall p t t' q : string,
        all_space p = true -> all_space q = true ->
        same_letters t' t = true ->
        strip (lower (p +:+ t' +:+ q)) = strip (lower t))
  /\ (forall (j : nat) (t : string) (x : npfloat),
        ts !! j = Some t -> normalize_weights weights !! j = Some x ->
        (t ∈ [" COST"; "Cost "; "cost"]%string ->
           exponents weights ts !! j = Some (fneg x))
        /\ (t ∈ ["Benefit "; " BENEFIT"; "benefit"]%string ->
           exponents weights ts !! j = Some x)).
Proof.
  intros Hlen.
  assert (Hsign : forall (j : nat) (t : string) (x : npfloat),
            ts !! j = Some t -> normalize_weights weights !! j = Some x ->
            (strip (lower t) = "benefit"%string ->
               exponents weights ts !! j = Some x)
            /\ (strip (lower t) = "cost"%string ->
               exponents weights ts !! j = Some (fneg x))).
  { intros j t x Ht Hx. unfold exponents.
    rewrite lookup_zip_with, Ht, Hx. simpl. unfold fsigned, is_cost.
    split; intros Hl.
    + by rewrite bool_decide_eq_false_2 by by rewrite Hl.
    + by rewrite bool_decide_eq_true_2. }
  split; [|split; [exact Hsign|split]].
  - apply negate_costs_eq. by rewrite length_normalize_weights.
  - apply label_matching_insensitive.
  - intros j t x Ht Hx. destruct (Hsign j t x Ht Hx) as [Hb Hc]. split.
    + intros Hin. apply Hc.
      repeat (apply elem_of_cons in Hin as [->|Hin]; [reflexivity|]).
      by apply elem_of_nil in Hin.
    + intros Hin. apply Hb.
      repeat (apply elem_of_cons in Hin as [->|Hin]; [reflexivity|]).
      by apply elem_of_nil in Hin.
Qed.

Lemma capital_exponents :
  exponent_vector scenario_w ["Benefit "; " COST"]%string = [1/2; - (1/2)].
Proof.
  unfold exponent_vector, used_weights, scenario_w.
  rewrite close_to_one_1 by (simpl; lra). done.
Qed.

Lemma C3_witness :
  length ["Benefit "; " COST"]%string = length (Fin <$> scenario_w)
  /\ negate_costs 0 ["Benefit "; " COST"]%string
       (normalize_weights (Fin <$> scenario_w))
     = Ok [Fin (1/2); Fin (- (1/2))].
Proof.
  split; [reflexivity|].
  pose proof (proj1 (C3_signed_exponents (Fin <$> scenario_w)
                       ["Benefit "; " COST"]%string eq_refl)) as Hloop.
  rewrite exponents_Fin, capital_exponents in Hloop by (simpl; lra).
  exact Hloop.
Defined.

(** ** Special values *)

Lemma fpow_zero_pos (b : R) : 0 < b -> fpow (Fin 0) (Fin b) = Fin 0.
Proof.
  intros Hb. simpl. rewrite decide_False by lra. unfold fpow_fin.
  rewrite decide_False by lra. rewrite decide_True by done.
  by rewrite decide_False by lra.
Qed.

Lemma fpow_NaN_r `{Arith} (x : npfloat) : x <> Fin 1 -> fpow x NaN = NaN.
Proof.
  intros Hx. destruct x as [a| | |]; simpl; try done.
  rewrite decide_False; [done|]. congruence.
Qed.

Lemma fadd_NaN_r `{Arith} (x : npfloat) : fadd x NaN = NaN.
Proof. by destruct x. Qed.

Lemma fmul_NaN_r `{Arith} (x : npfloat) : fmul x NaN = NaN.
Proof. by destruct x. Qed.

Lemma fadd_NaN_l `{Arith} (y : npfloat) : fadd NaN y = NaN.
Proof. by destruct y. Qed.

Lemma fmul_NaN_l `{Arith} (y : npfloat) : fmul NaN y = NaN.
Proof. by destruct y. Qed.

Lemma fdiv_NaN_r `{Arith} (x : npfloat) : fdiv x NaN = NaN.
Proof. by destruct x. Qed.

Lemma signed_inf_0 : signed_inf 0 = NaN.
Proof. unfold signed_inf. by rewrite !decide_False by lra. Qed.

Lemma signed_inf_not_finite (a : R) : isfinite (signed_inf a) = false.
Proof. unfold signed_inf. by repeat destruct (decide _). Qed.

Lemma np_sum_NaN `{Arith} (l : list npfloat) : NaN ∈ l -> np_sum l = NaN.
Proof.
  unfold np_sum. induction l as [|x l IH]; intros Hin; [by inv Hin|].
  simpl. apply elem_of_cons in Hin as [<-|Hin].
  - apply fadd_NaN_l.
  - by rewrite IH, fadd_NaN_r.
Qed.

Lemma np_prod_NaN `{Arith} (l : list npfloat) : NaN ∈ l -> np_prod l = NaN.
Proof.
  unfold np_prod. induction l as [|x l IH]; intros Hin; [by inv Hin|].
  simpl. apply elem_of_cons in Hin as [<-|Hin].
  - apply fmul_NaN_l.
  - by rewrite IH, fmul_NaN_r.
Qed.

Lemma np_sum_finite `{Arith} (l : list npfloat) (s : R) :
  np_sum l = Fin s -> Forall (fun x => isfinite x = true) l.
Proof.
  unfold np_sum. revert s. induction l as [|x l IH]; intros s Hs; [constructor|].
  simpl in Hs. destruct x as [a| | |], (foldr fadd (Fin 0) l) as [b| | |] eqn:Hl;
    simplify_eq/=.
  constructor; [done|]. by eapply IH.
Qed.

(** ** What the routine returns, in general *)

Lemma wp_scores_V `{Arith} X w ts S V :
  wp_scores X w ts = Ok (S, V) -> V = scores_V S.
Proof.
  unfold wp_scores. intros Hsc.
  destruct (np_array2 X) as [X'|]; [|done]. simpl in Hsc.
  destruct (negate_costs 0 ts (normalize_weights w)) as [e|]; [|done].
  simpl in Hsc.
  destruct (raw_scores X' e) as [S'|]; [|done]. simpl in Hsc.
  by simplify_eq.
Qed.

Lemma weighted_product_of_scores {arithmetic : Arith} `{ArgSort} X w ts alts crit S V :
  wp_scores X w ts = Ok (S, V) ->
  length alts = length S ->
  weighted_product X w ts alts crit = Ok (sort_values (table alts S V)).
Proof.
  intros Hsc Hlen. unfold weighted_product. rewrite Hsc. simpl.
  unfold DataFrame. by rewrite decide_True.
Qed.

Lemma table_Forall_V (P : npfloat -> Prop) alts S V :
  Forall P V -> Forall (fun r => P (Nilai_V r)) (table alts S V).
Proof.
  unfold table. intros HV. revert alts S.
  induction HV as [|v V Hv HV IH]; intros [|a alts] [|s S]; simpl;
    try constructor; try done.
Qed.

Lemma table_Forall_SV (P : npfloat -> npfloat -> Prop) alts S (f : npfloat -> npfloat) :
  (forall s, s ∈ S -> P s (f s)) ->
  Forall (fun r => P (Nilai_S r) (Nilai_V r)) (table alts S (f <$> S)).
Proof.
  unfold table. revert alts.
  induction S as [|s S IH]; intros [|a alts] HP; csimpl; try constructor.
  - apply HP. by left.
  - apply IH. intros s' Hs'. apply HP. by right.
Qed.

Lemma sort_values_pair_swap `{ArgSort} (r1 r2 : row) (a b : R) :
  Nilai_V r1 = Fin a -> Nilai_V r2 = Fin b -> a < b ->
  sort_values [r1; r2] = [r2; r1].
Proof.
  intros H1 H2 Hlt.
  pose proof (sort_values_perm [r1; r2]) as Hp. symmetry in Hp.
  apply Permutation_length_2_inv in Hp as [Hp|Hp]; [|done].
  assert (Hs : StronglySorted (fun x y => np_le (Nilai_V y) (Nilai_V x))
                 (sort_values [r1; r2])).
  { apply sort_values_sorted.
    repeat constructor; rewrite ?H1, ?H2; simpl; tauto. }
  rewrite Hp in Hs. apply StronglySorted_inv in Hs as [_ Hs].
  apply Forall_inv in Hs. rewrite H1, H2 in Hs.
  apply np_le_fin in Hs. lra.
Qed.

Lemma sort_values_singleton `{ArgSort} (r : row) : sort_values [r] = [r].
Proof.
  pose proof (sort_values_perm [r]) as Hp. symmetry in Hp.
  by apply Permutation_singleton_l in Hp.
Qed.

(** ** C4: no validation of the values *)

Lemma zero_entry_scores :
  wp_scores (real_matrix zero_entry_X) (Fin <$> scenario_w) scenario_types
  = Ok ([Fin 0; Fin scenario_S_B], [Fin 0; Fin 1]).
Proof.
  rewrite wp_scores_eq; [|done|by repeat constructor|done].
  assert (HS : scores_S (real_matrix zero_entry_X) (Fin <$> scenario_w)
                 scenario_types = [Fin 0; Fin scenario_S_B]).
  { unfold scores_S. rewrite exponents_Fin by (simpl; lra).
    rewrite scenario_exponents. unfold real_matrix, zero_entry_X.
    rewrite !fmap_cons, !fmap_nil. cbn [zip_with].
    rewrite fpow_zero_pos by lra. rewrite !fpow_pos by lra.
    unfold np_prod. cbn [foldr fmul fl exact_arithmetic]. unfold scenario_S_B.
    do 2 f_equal. f_equal. lra. }
  rewrite HS. unfold scores_V, np_sum. rewrite !fmap_cons, !fmap_nil.
  cbn [foldr fadd fl exact_arithmetic].
  pose proof scenario_S_B_bounds as HB.
  rewrite !fdiv_Fin by lra.
  replace (0 / (0 + (scenario_S_B + 0))) with 0 by (field; lra).
  replace (scenario_S_B / (0 + (scenario_S_B + 0))) with 1 by (field; lra).
  done.
Qed.

(** C4, as the code behaves.  The routine checks no value and raises
    nothing on account of one: with at least one alternative, as many
    weights and type labels as columns and as many names as rows, it
    returns a table with one line per alternative, whatever the entries
    and the weights are; and a label that does not normalize to cost,
    benefit or not, leaves the weight as the exponent. *)
Theorem C4_no_value_validation {arithmetic : Arith} `{ArgSort} (X : list (list npfloat))
    (w : list npfloat) (ts alts crit : list string) :
  X <> [] ->
  Forall (fun x => length x = length w) X ->
  length ts = length w ->
  length alts = length X ->
  (exists t, weighted_product X w ts alts crit = Ok t /\ length t = length X)
  /\ (forall (j : nat) (t : string),
        ts !! j = Some t -> strip (lower t) <> "cost"%string ->
        exponents w ts !! j = normalize_weights w !! j).
Proof.
  intros Hne Hshape Hlen Halts. split.
  - eexists. split; [by apply weighted_product_eq|].
    rewrite length_sort_values, length_table; [done| |].
    + by rewrite length_scores_S.
    + by rewrite length_scores_V.
  - intros j t Ht Hnc. unfold exponents. rewrite lookup_zip_with, Ht. simpl.
    destruct (normalize_weights w !! j) as [x|]; [|done]. simpl.
    unfold fsigned, is_cost. by rewrite bool_decide_eq_false_2.
Qed.

(** The claim fails on a matrix with a zero entry: the routine returns a
    ranking, with B first. *)
Lemma C4_zero_entry_is_ranked :
  weighted_product (real_matrix zero_entry_X) (Fin <$> scenario_w)
    scenario_types scenario_labels []
  = Ok [Row "B" (Fin scenario_S_B) (Fin 1); Row "A" (Fin 0) (Fin 0)].
Proof.
  rewrite (weighted_product_of_scores _ _ _ _ _ _ _ zero_entry_scores) by done.
  f_equal. apply (sort_values_pair_swap _ _ 0 1); [done|done|lra].
Qed.

Lemma C4_witness :
  real_matrix zero_entry_X <> []
  /\ exists t, weighted_product (real_matrix zero_entry_X) (Fin <$> scenario_w)
                 scenario_types scenario_labels [] = Ok t
            /\ length t = length (real_matrix zero_entry_X).
Proof.
  split; [done|].
  apply (C4_no_value_validation (real_matrix zero_entry_X) (Fin <$> scenario_w)
           scenario_types scenario_labels []);
    [done|by repeat constructor|done|done].
Defined.

(** ** C5: weights that are all zero *)

Lemma np_sum_zeros (w : list npfloat) :
  Forall (fun x => x = Fin 0) w -> np_sum w = Fin 0.
Proof.
  unfold np_sum. induction 1 as [|x w -> Hw IH]; simpl; [done|].
  rewrite IH. simpl. f_equal. lra.
Qed.

Lemma close_to_one_0 : close_to_one 0 = false.
Proof.
  apply bool_decide_eq_false_2.
  replace (0 - 1) with (- (1)) by lra. rewrite Rabs_Ropp, Rabs_R1.
  unfold atol, rtol. lra.
Qed.

(** Zero over the zero sum: every weight becomes NaN. *)
Lemma normalize_weights_zeros (w : list npfloat) :
  Forall (fun x => x = Fin 0) w ->
  normalize_weights w = replicate (length w) NaN.
Proof.
  intros Hw. unfold normalize_weights.
  rewrite np_sum_zeros, isclose_one, close_to_one_0 by done. simpl.
  induction Hw as [|x w -> Hw IH]; csimpl; [done|].
  rewrite IH. f_equal. rewrite decide_True by done. apply signed_inf_0.
Qed.

Lemma zip_with_fsigned_NaN (ts : list string) (n : nat) :
  length ts = n -> zip_with fsigned ts (replicate n NaN) = replicate n NaN.
Proof.
  revert n. induction ts as [|t ts IH]; intros [|n] Hlen; simplify_eq/=; [done|].
  rewrite IH by done. f_equal. unfold fsigned. by destruct (is_cost t).
Qed.

Lemma exponents_zeros (w : list npfloat) (ts : list string) :
  Forall (fun x => x = Fin 0) w -> length ts = length w ->
  exponents w ts = replicate (length w) NaN.
Proof.
  intros Hw Hlen. unfold exponents.
  by rewrite normalize_weights_zeros, zip_with_fsigned_NaN.
Qed.

Lemma np_prod_pow_NaN (x : list npfloat) :
  Exists (fun b => b <> Fin 1) x ->
  np_prod (zip_with fpow x (replicate (length x) NaN)) = NaN.
Proof.
  intros Hx. apply np_prod_NaN.
  rewrite zip_with_replicate_r_eq by done.
  apply Exists_exists in Hx as (b & Hb & Hne).
  apply list_elem_of_fmap. exists b. split; [|done].
  unfold flip. by rewrite fpow_NaN_r.
Qed.

Lemma scores_V_NaN `{Arith} (S : list npfloat) :
  NaN ∈ S -> Forall (fun v => v = NaN) (scores_V S).
Proof.
  intros Hin. unfold scores_V. rewrite np_sum_NaN by done.
  apply Forall_fmap, Forall_forall. intros s _. apply fdiv_NaN_r.
Qed.

(** The lines whose [Nilai_V] is NaN keep their order. *)
Lemma sort_values_all_NaN `{ArgSort} (df : list row) :
  Forall (fun r => isnan (Nilai_V r)) df -> sort_values df = df.
Proof.
  intros Hnan. unfold sort_values, nargsort.
  assert (Hitems : Forall (fun x => Is_true (isnan x)) (Nilai_V <$> df)).
  { by apply Forall_fmap. }
  rewrite (filter_none (fun x => ~ isnan x) (Nilai_V <$> df)).
  2:{ eapply Forall_impl; [exact Hitems|]. simpl. tauto. }
  rewrite (filter_all (fun i => Is_true (isnan ((Nilai_V <$> df) !!! i)))).
  2:{ apply Forall_forall. intros i Hi. apply elem_of_seq in Hi.
      rewrite Forall_forall in Hitems. apply Hitems.
      apply list_elem_of_lookup_total_2. lia. }
  rewrite reverse_nil.
  pose proof (argsort_perm []) as Hp. apply Permutation_nil_r in Hp.
  rewrite Hp. rewrite fmap_nil, reverse_nil, app_nil_l, length_fmap.
  apply fmap_lookup_total_seq.
Qed.

(** C5, as the code behaves.  When every weight is zero the routine raises
    nothing: the sum 0 is not close to 1, so each weight is divided by it
    and every exponent is NaN; the table is returned all the same, and as
    soon as one entry of the matrix is not exactly 1, every preference
    score in it is NaN. *)
Theorem C5_zero_weights `{ArgSort} (X : list (list npfloat)) (w : list npfloat)
    (ts alts crit : list string) :
  Forall (fun x => x = Fin 0) w ->
  X <> [] ->
  Forall (fun x => length x = length w) X ->
  length ts = length w ->
  length alts = length X ->
  exponents w ts = replicate (length w) NaN
  /\ exists t, weighted_product X w ts alts crit = Ok t
            /\ length t = length X
            /\ (Exists (Exists (fun b => b <> Fin 1)) X ->
                Forall (fun r => Nilai_V r = NaN) t).
Proof.
  intros Hw Hne Hshape Hlen Halts.
  pose proof (exponents_zeros w ts Hw Hlen) as He.
  split; [done|]. eexists. split; [by apply weighted_product_eq|].
  split.
  - rewrite length_sort_values, length_table; [done| |].
    + by rewrite length_scores_S.
    + by rewrite length_scores_V.
  - intros HX. rewrite sort_values_perm.
    apply (table_Forall_V (fun v => v = NaN)), scores_V_NaN.
    unfold scores_S. rewrite He.
    apply Exists_exists in HX as (x & Hx & Hex).
    apply list_elem_of_fmap. exists x. split; [|done].
    rewrite Forall_forall in Hshape. rewrite <- (Hshape x Hx).
    symmetry. by apply np_prod_pow_NaN.
Qed.

(** The claim fails on the weights [0,0]: the routine returns a table, of
    NaN scores. *)
Lemma C5_zero_weights_are_ranked :
  weighted_product (real_matrix scenario_X) [Fin 0; Fin 0]
    scenario_types scenario_labels []
  = Ok [Row "A" NaN NaN; Row "B" NaN NaN].
Proof.
  assert (He : exponents [Fin 0; Fin 0] scenario_types = [NaN; NaN]).
  { by apply (exponents_zeros [Fin 0; Fin 0]); [repeat constructor|]. }
  assert (HS : scores_S (real_matrix scenario_X) [Fin 0; Fin 0] scenario_types
               = [NaN; NaN]).
  { unfold scores_S. rewrite He. unfold real_matrix, scenario_X.
    rewrite !fmap_cons, !fmap_nil.
    f_equal; [|f_equal];
      apply (np_prod_pow_NaN [_; _]); apply Exists_cons_hd;
      intros [=]; lra. }
  assert (HV : scores_V [NaN; NaN] = [NaN; NaN]).
  { unfold scores_V. rewrite np_sum_NaN by by left.
    by rewrite !fmap_cons, fmap_nil, !fdiv_NaN_r. }
  rewrite weighted_product_eq; [|done|by repeat constructor|done|done].
  rewrite HS, HV. rewrite sort_values_all_NaN; [done|].
  by repeat constructor.
Qed.

Lemma C5_witness :
  Forall (fun x => x = Fin 0) [Fin 0; Fin 0]
  /\ exponents [Fin 0; Fin 0] scenario_types = replicate 2 NaN.
Proof.
  split; [by repeat constructor|].
  apply (C5_zero_weights (real_matrix scenario_X) [Fin 0; Fin 0]
           scenario_types scenario_labels []);
    [by repeat constructor|done|by repeat constructor|done|done].
Defined.

(** ** C6: a total raw score of zero *)

(** C6, as the code behaves.  When the raw scores sum to zero the routine
    raises nothing: it divides every [S_i] by zero and returns the table,
    in which no preference score is finite (NaN for [S_i = 0], an infinity
    of the sign of [S_i] otherwise). *)
Theorem C6_zero_total `{ArgSort} (X : list (list npfloat)) (w : list npfloat)
    (ts alts crit : list string) (S V : list npfloat) :
  wp_scores X w ts = Ok (S, V) ->
  np_sum S = Fin 0 ->
  length alts = length S ->
  exists t, weighted_product X w ts alts crit = Ok t
         /\ length t = length S
         /\ Forall (fun r => Nilai_V r = fdiv (Nilai_S r) (Fin 0)
                          /\ isfinite (Nilai_V r) = false) t.
Proof.
  intros Hsc Hsum Halts.
  pose proof (wp_scores_V _ _ _ _ _ Hsc) as ->.
  eexists. split; [by apply weighted_product_of_scores|].
  split.
  - rewrite length_sort_values, length_table; [done|done|].
    by rewrite length_scores_V.
  - rewrite sort_values_perm. unfold scores_V. rewrite Hsum.
    apply (table_Forall_SV (fun s v => v = fdiv s (Fin 0) /\ isfinite v = false)).
    intros s Hs. split; [done|].
    pose proof (np_sum_finite S 0 Hsum) as Hfin.
    rewrite Forall_forall in Hfin. specialize (Hfin s Hs).
    destruct s as [a| | |]; try done. simpl.
    rewrite decide_True by done. apply signed_inf_not_finite.
Qed.

Lemma zero_total_scores :
  wp_scores [[Fin 0]] [Fin 1] ["benefit"%string] = Ok ([Fin 0], [NaN]).
Proof.
  rewrite wp_scores_eq; [|done|by repeat constructor|done].
  assert (He : exponents [Fin 1] ["benefit"%string] = [Fin 1]).
  { change [Fin 1] with (Fin <$> [1]). rewrite exponents_Fin by (simpl; lra).
    unfold exponent_vector, used_weights.
    rewrite close_to_one_1 by (simpl; lra). simpl.
    unfold signed. by rewrite is_cost_benefit. }
  assert (HS : scores_S [[Fin 0]] [Fin 1] ["benefit"%string] = [Fin 0]).
  { unfold scores_S. rewrite He. rewrite fmap_cons, fmap_nil. cbn [zip_with].
    rewrite fpow_zero_pos by lra. unfold np_prod. cbn [foldr fmul fl exact_arithmetic].
    do 2 f_equal. lra. }
  rewrite HS. unfold scores_V, np_sum. rewrite fmap_cons, fmap_nil.
  cbn [foldr fadd fl exact_arithmetic]. replace (0 + 0) with 0 by lra.
  cbn [fdiv]. destruct (decide (0 = 0)); [|done]. by rewrite signed_inf_0.
Qed.

(** The claim fails on the one-entry matrix [[0]]: the total is zero and
    the routine returns the line of A with NaN for its preference score. *)
Lemma C6_zero_total_is_ranked :
  np_sum [Fin 0] = Fin (0 + 0)
  /\ weighted_product [[Fin 0]] [Fin 1] ["benefit"%string] ["A"%string] []
     = Ok [Row "A" (Fin 0) NaN].
Proof.
  split; [done|].
  rewrite (weighted_product_of_scores _ _ _ _ _ _ _ zero_total_scores) by done.
  reflexivity.
Qed.

Lemma C6_witness :
  wp_scores [[Fin 0]] [Fin 1] ["benefit"%string] = Ok ([Fin 0], [NaN])
  /\ exists t, weighted_product [[Fin 0]] [Fin 1] ["benefit"%string]
                 ["A"%string] [] = Ok t
            /\ length t = 1%nat
            /\ Forall (fun r => Nilai_V r = fdiv (Nilai_S r) (Fin 0)
                             /\ isfinite (Nilai_V r) = false) t.
Proof.
  split; [exact zero_total_scores|].
  apply (C6_zero_total [[Fin 0]] [Fin 1] ["benefit"%string] ["A"%string] []
           [Fin 0] [NaN] zero_total_scores); [|done].
  unfold np_sum. simpl. f_equal. lra.
Defined.

(** ** C7: the order of the table *)

Lemma np_le_fle (x y : npfloat) :
  ~ isnan x -> ~ isnan y -> np_le x y -> fle x y.
Proof.
  unfold np_le, np_less, fle.
  destruct x as [a| | |], y as [b| | |]; simpl; try tauto.
  intros _ _ Hn. destruct (Rlt_le_dec b a) as [Hlt|[Hlt|Heq]]; tauto.
Qed.

Lemma StronglySorted_impl_Forall {A} (R R' : relation A) (P : A -> Prop)
    (l : list A) :
  (forall x y, P x -> P y -> R x y -> R' x y) ->
  Forall P l -> StronglySorted R l -> StronglySorted R' l.
Proof.
  intros HR HP Hs. induction Hs as [|x l Hs IH Hx]; [constructor|].
  apply Forall_cons in HP as [Hpx HP].
  constructor; [by apply IH|].
  rewrite Forall_forall in Hx, HP |- *. intros y Hy.
  apply HR; auto.
Qed.

Lemma table_Fin_not_nan alts (S V : list R) :
  Forall (fun r => ~ isnan (Nilai_V r)) (table alts (Fin <$> S) (Fin <$> V)).
Proof.
  apply (table_Forall_V (fun v => ~ isnan v)).
  apply Forall_fmap, Forall_forall. intros v _. simpl. tauto.
Qed.

Lemma lookup_total_Nilai_V (df : list row) (i : nat) :
  (Nilai_V <$> df) !!! i = Nilai_V (df !!! i).
Proof.
  rewrite !list_lookup_total_alt, list_lookup_fmap.
  by destruct (df !! i).
Qed.

Lemma filter_lookup_rows (P : npfloat -> Prop) `{!forall v, Decision (P v)}
    (df : list row) :
  (fun i => df !!! i)
    <$> filter (fun i => P ((Nilai_V <$> df) !!! i)) (seq 0 (length df))
  = filter (fun r => P (Nilai_V r)) df.
Proof.
  rewrite (list_filter_iff _ (fun i => P (Nilai_V (df !!! i)))).
  2:{ intros i. by rewrite lookup_total_Nilai_V. }
  pose proof (filter_lookup_seq (fun r => P (Nilai_V r)) [] df) as Hf.
  simpl in Hf. exact Hf.
Qed.

Section SortStructure.
Context `{ArgSort}.

(** Line 48 in general: the lines whose preference score is not NaN come
    first, their scores descending; the lines whose score is NaN follow
    in their input order. *)
Lemma sort_values_structure (df : list row) :
  exists ranked,
    sort_values df = ranked ++ filter (fun r => isnan (Nilai_V r)) df
    /\ ranked ≡ₚ filter (fun r => ~ isnan (Nilai_V r)) df
    /\ StronglySorted V_ge ranked.
Proof.
  unfold sort_values, nargsort. rewrite length_fmap.
  set (items := Nilai_V <$> df).
  set (idx_f := filter (fun i => ~ isnan (items !!! i)) (seq 0 (length df))).
  set (nn := filter (fun v => ~ isnan v) items).
  assert (Hidx : (fun i => items !!! i) <$> idx_f = nn).
  { unfold idx_f, nn. replace (length df) with (length items)
      by (unfold items; by rewrite length_fmap).
    pose proof (filter_lookup_seq (fun v => ~ isnan v) [] items) as Hf.
    simpl in Hf. exact Hf. }
  assert (Hrows : (fun i => df !!! i) <$> idx_f
                  = filter (fun r => ~ isnan (Nilai_V r)) df).
  { pose proof (filter_lookup_rows (fun v => ~ isnan v) df) as Hf.
    exact Hf. }
  assert (Hlen : length (reverse nn) = length (reverse idx_f)).
  { by rewrite <- Hidx, !length_reverse, length_fmap. }
  pose proof (argsort_perm (reverse nn)) as Hperm.
  pose proof (argsort_sorted (reverse nn)) as Hsorted.
  set (ks := argsort (reverse nn)) in *.
  exists ((fun i => df !!! i)
            <$> reverse ((fun k => reverse idx_f !!! k) <$> ks)).
  split; [|split].
  - rewrite fmap_app. f_equal.
    pose proof (filter_lookup_rows (fun v => Is_true (isnan v)) df) as Hf.
    exact Hf.
  - rewrite reverse_Permutation, Hperm, Hlen, fmap_lookup_total_seq.
    by rewrite reverse_Permutation, Hrows.
  - assert (Hks : Forall (fun k => (k < length (reverse idx_f))%nat) ks).
    { rewrite Hperm. apply Forall_forall. intros k Hk.
      apply elem_of_seq in Hk. lia. }
    assert (HV : Nilai_V <$> ((fun i => df !!! i)
                   <$> reverse ((fun k => reverse idx_f !!! k) <$> ks))
                 = reverse ((fun k => reverse nn !!! k) <$> ks)).
    { rewrite <- list_fmap_compose, fmap_reverse, <- list_fmap_compose.
      f_equal. apply Forall_fmap_ext_1.
      eapply Forall_impl; [exact Hks|]. intros k Hk. simpl.
      rewrite <- lookup_total_Nilai_V. fold items.
      rewrite <- Hidx, <- fmap_reverse.
      pose proof (list_lookup_total_fmap (fun i => items !!! i)
                    (reverse idx_f) k Hk) as Hf.
      by rewrite Hf. }
    apply (StronglySorted_impl_Forall
             (fun r1 r2 => np_le (Nilai_V r2) (Nilai_V r1)) V_ge
             (fun r => ~ isnan (Nilai_V r))).
    + intros r1 r2 H1 H2 Hle. unfold V_ge. by apply np_le_fle.
    + rewrite reverse_Permutation, Hperm, Hlen, fmap_lookup_total_seq.
      rewrite reverse_Permutation, Hrows.
      apply Forall_forall. intros r Hr. by apply list_elem_of_filter in Hr as [? _].
    + apply (StronglySorted_fmap_inv Nilai_V (flip np_le)).
      rewrite HV. by apply StronglySorted_reverse.
Qed.

End SortStructure.

(** C7, as the code behaves.  In every arithmetic and whatever algorithm
    the default [kind] of [sort_values] runs, a table the routine returns
    is a permutation of the lines (label, [S_i], [V_i]) of the scores of
    lines 20 to 38; the lines whose preference score is not NaN come
    first, their scores descending, and the lines whose score is NaN
    follow; so a table without NaN descends from its first line to its
    last.  The order of lines of equal score is the algorithm's. *)
Theorem C7_sorted_descending {arithmetic : Arith} `{ArgSort}
    (X : list (list npfloat)) (w : list npfloat) (ts alts crit : list string)
    (t : list row) :
  weighted_product X w ts alts crit = Ok t ->
  exists (S V : list npfloat) (ranked nans : list row),
    wp_scores X w ts = Ok (S, V)
    /\ t ≡ₚ table alts S V
    /\ t = ranked ++ nans
    /\ Forall (fun r => ~ isnan (Nilai_V r)) ranked
    /\ Forall (fun r => isnan (Nilai_V r)) nans
    /\ StronglySorted V_ge ranked
    /\ (Forall (fun v => ~ isnan v) V -> StronglySorted V_ge t).
Proof.
  unfold weighted_product. intros Ht.
  destruct (wp_scores X w ts) as [[S V]|] eqn:Hsc; [|done].
  simpl in Ht. unfold DataFrame in Ht.
  destruct (decide (length alts = length S)) as [Hlen|]; [|done].
  simpl in Ht. simplify_eq.
  destruct (sort_values_structure (table alts S V)) as (ranked & Hs & Hp & Hd).
  exists S, V, ranked, (filter (fun r => isnan (Nilai_V r)) (table alts S V)).
  split; [done|]. split; [apply sort_values_perm|]. split; [done|].
  split.
  { rewrite Hp. apply Forall_forall. intros r Hr.
    by apply list_elem_of_filter in Hr as [? _]. }
  split.
  { apply Forall_forall. intros r Hr.
    by apply list_elem_of_filter in Hr as [? _]. }
  split; [done|].
  intros HV. rewrite Hs, filter_none, app_nil_r; [done|].
  eapply Forall_impl; [apply (table_Forall_V _ alts S V HV)|].
  intros r Hr. simpl in Hr. tauto.
Qed.

Lemma scenario_table :
  weighted_product (real_matrix scenario_X) (Fin <$> scenario_w) scenario_types
    scenario_labels []
  = Ok (sort_values
          (table scenario_labels
             (scores_S (real_matrix scenario_X) (Fin <$> scenario_w)
                scenario_types)
             (scores_V (scores_S (real_matrix scenario_X) (Fin <$> scenario_w)
                          scenario_types)))).
Proof.
  apply weighted_product_eq; [done|by repeat constructor|done|done].
Qed.

Lemma C7_witness :
  let t := sort_values
             (table scenario_labels
                (scores_S (real_matrix scenario_X) (Fin <$> scenario_w)
                   scenario_types)
                (scores_V (scores_S (real_matrix scenario_X)
                             (Fin <$> scenario_w) scenario_types))) in
  weighted_product (real_matrix scenario_X) (Fin <$> scenario_w) scenario_types
    scenario_labels [] = Ok t
  /\ exists (S V : list npfloat) (ranked nans : list row),
       wp_scores (real_matrix scenario_X) (Fin <$> scenario_w) scenario_types
       = Ok (S, V)
       /\ t ≡ₚ table scenario_labels S V
       /\ t = ranked ++ nans
       /\ Forall (fun r => ~ isnan (Nilai_V r)) ranked
       /\ Forall (fun r => isnan (Nilai_V r)) nans
       /\ StronglySorted V_ge ranked
       /\ (Forall (fun v => ~ isnan v) V -> StronglySorted V_ge t).
Proof.
  split; [exact scenario_table|].
  exact (C7_sorted_descending _ _ _ _ _ _ scenario_table).
Defined.

Lemma tie_scores :
  wp_scores (real_matrix tie_X) [Fin 1] ["benefit"%string]
  = Ok ([Fin 1; Fin 1], [Fin (1/2); Fin (1/2)]).
Proof.
  assert (Hv : valid_input tie_X [1] ["benefit"%string]).
  { split; [done|repeat constructor|repeat constructor; lra
           |repeat constructor; lra|simpl; lra|done
           |repeat constructor; by left]. }
  pose proof (wp_scores_valid tie_X [1] ["benefit"%string] Hv) as Hsc.
  change (Fin <$> [1]) with [Fin 1] in Hsc. rewrite Hsc.
  assert (He : exponent_vector [1] ["benefit"%string] = [1]).
  { unfold exponent_vector, used_weights.
    rewrite close_to_one_1 by (simpl; lra). simpl.
    unfold signed. by rewrite is_cost_benefit. }
  rewrite He. unfold tie_X, spec_raw_score, spec_preference.
  cbn [fmap list_fmap zip_with Rprod Rsum foldr].
  rewrite Rpower_1 by lra.
  replace (1 * 1) with 1 by lra.
  by replace (1 / (1 + (1 + 0))) with (1/2) by lra.
Qed.

(** The claim fails on two identical alternatives: with the insertion
    sort that keeps equal values in their order the table reads A, B; with
    the insertion sort that puts an index behind its equals, which sorts
    the same values just as correctly, it reads B, A. *)
Lemma C7_ties_follow_the_algorithm :
  weighted_product (H := insertion_sort) (real_matrix tie_X) [Fin 1]
    ["benefit"%string] ["A"; "B"]%string []
  = Ok [Row "A" (Fin 1) (Fin (1/2)); Row "B" (Fin 1) (Fin (1/2))]
  /\ weighted_product (H := insertion_sort_behind) (real_matrix tie_X) [Fin 1]
       ["benefit"%string] ["A"; "B"]%string []
     = Ok [Row "B" (Fin 1) (Fin (1/2)); Row "A" (Fin 1) (Fin (1/2))].
Proof.
  split.
  - rewrite (weighted_product_of_scores _ _ _ _ _ _ _ tie_scores) by done.
    f_equal.
    exact (sort_values_tie true (Row "A" (Fin 1) (Fin (1/2)))
             (Row "B" (Fin 1) (Fin (1/2))) (1/2) eq_refl eq_refl).
  - rewrite (weighted_product_of_scores _ _ _ _ _ _ _ tie_scores) by done.
    f_equal.
    exact (sort_values_tie false (Row "A" (Fin 1) (Fin (1/2)))
             (Row "B" (Fin 1) (Fin (1/2))) (1/2) eq_refl eq_refl).
Qed.

(** ** C8: the normalization of the weights *)

(** C8, as the code behaves in exact arithmetic (the statement is about
    [exact_arithmetic]: no result is rounded and none leaves the finite
    range).  For weights of positive sum, line 25 divides by the sum only
    when line 24 finds the sum not close to 1; otherwise the weights stay
    as they are.  Either way the weights used sum to 1 within the
    tolerance of [np.isclose], exactly so after a division; weights that
    sum to 1 are left unchanged; and normalizing a normalized vector
    changes nothing. *)
Theorem C8_guarded_normalization (w : list R) :
  0 < Rsum w ->
  normalize_weights (Fin <$> w) = Fin <$> used_weights w
  /\ (close_to_one (Rsum w) = false ->
      used_weights w = (fun x => x / Rsum w) <$> w
      /\ Rsum (used_weights w) = 1)
  /\ (close_to_one (Rsum w) = true -> used_weights w = w)
  /\ Rabs (Rsum (used_weights w) - 1) <= atol + rtol
  /\ (Rsum w = 1 -> normalize_weights (Fin <$> w) = Fin <$> w)
  /\ normalize_weights (normalize_weights (Fin <$> w))
     = normalize_weights (Fin <$> w).
Proof.
  intros Hpos.
  assert (Hn : normalize_weights (Fin <$> w) = Fin <$> used_weights w).
  { apply normalize_weights_Fin. lra. }
  assert (Hdiv : Rsum ((fun x => x / Rsum w) <$> w) = 1).
  { rewrite Rsum_div. field. lra. }
  assert (H1 : close_to_one 1 = true) by by apply close_to_one_1.
  split; [done|]. unfold used_weights in *.
  destruct (close_to_one (Rsum w)) eqn:Hc.
  - split; [done|]. split; [done|].
    split; [by apply bool_decide_eq_true in Hc|].
    split; [done|].
    rewrite Hn, normalize_weights_Fin by lra.
    unfold used_weights. by rewrite Hc.
  - split; [done|]. split; [done|].
    split.
    { rewrite Hdiv. replace (1 - 1) with 0 by lra. rewrite Rabs_R0.
      unfold atol, rtol. lra. }
    split.
    { intros Hs. rewrite Hs, H1 in Hc. done. }
    rewrite Hn, normalize_weights_Fin by lra.
    unfold used_weights. by rewrite Hdiv, H1.
Qed.

Lemma close_to_one_100001 : close_to_one (100001 / 100000 + 0) = true.
Proof.
  apply bool_decide_eq_true_2.
  replace (100001 / 100000 + 0 - 1) with (1 / 100000) by lra.
  rewrite Rabs_pos_eq by lra. unfold atol, rtol. lra.
Qed.

(** The claim fails on the single weight 1.00001: its sum is close to 1,
    so it is not divided; the weight used is not [w / sum w = 1], and the
    sum of the weights used misses 1 by more than 1e-9. *)
Lemma C8_close_sum_is_not_normalized :
  normalize_weights [Fin (100001 / 100000)] = [Fin (100001 / 100000)]
  /\ np_sum (normalize_weights [Fin (100001 / 100000)])
     = Fin (100001 / 100000 + 0)
  /\ 1 / 1000000000 < Rabs (100001 / 100000 + 0 - 1)
  /\ (fun x => fdiv x (np_sum [Fin (100001 / 100000)]))
       <$> [Fin (100001 / 100000)] = [Fin 1].
Proof.
  assert (Hn : normalize_weights [Fin (100001 / 100000)]
               = [Fin (100001 / 100000)]).
  { unfold normalize_weights. cbn [np_sum foldr fadd fl exact_arithmetic].
    by rewrite isclose_one, close_to_one_100001. }
  split; [done|]. rewrite Hn. split; [done|]. split.
  - replace (100001 / 100000 + 0 - 1) with (1 / 100000) by lra.
    rewrite Rabs_pos_eq by lra. lra.
  - cbn [np_sum foldr fadd fl exact_arithmetic fmap list_fmap]. rewrite fdiv_Fin by lra.
    do 2 f_equal. field.
Qed.

Lemma C8_witness :
  0 < Rsum scenario_w
  /\ normalize_weights (normalize_weights (Fin <$> scenario_w))
     = normalize_weights (Fin <$> scenario_w).
Proof.
  assert (Hpos : 0 < Rsum scenario_w) by (simpl; lra).
  split; [exact Hpos|].
  apply (C8_guarded_normalization scenario_w Hpos).
Defined.

(** ** C9: changing one entry *)

Lemma spec_raw_score_insert (e x : list R) (j : nat) (a ej : R) :
  x !! j = Some a -> e !! j = Some ej ->
  exists K, 0 < K
    /\ forall a', spec_raw_score e (<[j := a']> x) = Rpower a' ej * K.
Proof.
  unfold spec_raw_score. revert e j.
  induction x as [|b x IH]; intros [|c e] [|j] Hx He; simplify_eq/=.
  - exists (Rprod (zip_with Rpower x e)). split; [|done].
    apply Rprod_pos, zip_Rpower_pos.
  - destruct (IH e j Hx He) as (K & HK & Hins).
    exists (Rpower b c * K). split.
    + apply Rmult_lt_0_compat; [apply Rpower_pos|done].
    + intros a'. rewrite Hins. lra.
Qed.

Lemma Rsum_insert (S : list R) (i : nat) (s : R) :
  S !! i = Some s ->
  exists rest, (forall s', Rsum (<[i := s']> S) = s' + rest)
    /\ (Forall (fun r => 0 < r) S -> (2 <= length S)%nat -> 0 < rest).
Proof.
  revert i. induction S as [|r S IH]; intros [|i] Hi; simplify_eq/=.
  - exists (Rsum S). split; [done|]. intros HS Hlen.
    apply Forall_cons in HS as [_ HS]. apply Rsum_pos; [|done].
    destruct S; simpl in *; [lia|done].
  - destruct (IH i Hi) as (rest & Hins & Hpos).
    exists (r + rest). split.
    + intros s'. rewrite Hins. lra.
    + intros HS Hlen. apply Forall_cons in HS as [Hr HS].
      destruct (decide (2 <= length S)%nat) as [H2|H2].
      * specialize (Hpos HS H2). lra.
      * assert (0 <= rest); [|lra].
        destruct S as [|r' [|r'' S]]; simpl in *; try lia.
        destruct i; simplify_eq/=. specialize (Hins 0). lra.
Qed.

Lemma share_increasing (s s' r : R) :
  0 < s -> s < s' -> 0 < r -> s / (s + r) < s' / (s' + r).
Proof.
  intros Hs Hlt Hr. unfold Rdiv.
  apply (Rmult_lt_reg_r (s + r)); [lra|].
  rewrite Rmult_assoc, Rinv_l, Rmult_1_r by lra.
  apply (Rmult_lt_reg_r (s' + r)); [lra|].
  replace (s' * / (s' + r) * (s + r) * (s' + r)) with (s' * (s + r))
    by (field; lra).
  nra.
Qed.

Lemma used_weights_pos (w : list R) (j : nat) (wj : R) :
  0 < Rsum w -> w !! j = Some wj -> 0 < wj ->
  exists uj, used_weights w !! j = Some uj /\ 0 < uj.
Proof.
  intros Hs Hj Hwj. unfold used_weights.
  destruct (close_to_one (Rsum w)); [by exists wj|].
  exists (wj / Rsum w). rewrite list_lookup_fmap, Hj. split; [done|].
  by apply Rdiv_lt_0_compat.
Qed.

Lemma valid_input_insert X w ts i j row a a' :
  valid_input X w ts -> X !! i = Some row -> row !! j = Some a -> a < a' ->
  0 < a /\ valid_input (<[i := <[j := a']> row]> X) w ts.
Proof.
  intros [Hne Hshape Hpos Hw Hsum Hlen Hty] Hi Hj Hlt.
  assert (Hrow : Forall (fun r => 0 < r) row).
  { rewrite Forall_forall in Hpos. apply Hpos. by eapply list_elem_of_lookup_2. }
  assert (Ha : 0 < a).
  { rewrite Forall_forall in Hrow. apply Hrow. by eapply list_elem_of_lookup_2. }
  split; [done|]. split; try done.
  - intros Hnil. apply (f_equal length) in Hnil.
    rewrite length_insert in Hnil. by destruct X.
  - apply Forall_insert; [done|]. rewrite length_insert.
    rewrite Forall_forall in Hshape. apply Hshape.
    by eapply list_elem_of_lookup_2.
  - apply Forall_insert; [done|]. apply Forall_insert; [done|]. lra.
Qed.

(** C9, as the code behaves in exact arithmetic (the statement is about
    [exact_arithmetic]: no result is rounded and none leaves the finite
    range).  For every valid input with at least two alternatives,
    raising one entry of one alternative, everything else fixed, strictly
    raises that alternative's preference score when the criterion is a
    benefit of strictly positive weight, and strictly lowers it when the
    criterion is a cost of strictly positive weight. *)
Theorem C9_monotone_in_one_entry (X : list (list R)) (w : list R)
    (ts : list string) (i j : nat) (row : list R) (a a' wj : R) (t : string) :
  valid_input X w ts ->
  (2 <= length X)%nat ->
  X !! i = Some row -> row !! j = Some a ->
  w !! j = Some wj -> 0 < wj ->
  ts !! j = Some t ->
  a < a' ->
  exists (S V S' V' : list npfloat) (v v' : R),
    wp_scores (real_matrix X) (Fin <$> w) ts = Ok (S, V)
    /\ wp_scores (real_matrix (<[i := <[j := a']> row]> X)) (Fin <$> w) ts
       = Ok (S', V')
    /\ V !! i = Some (Fin v)
    /\ V' !! i = Some (Fin v')
    /\ (strip (lower t) = "benefit"%string -> v < v')
    /\ (strip (lower t) = "cost"%string -> v' < v).
Proof.
  intros Hv Hlen Hi Hj Hwj Hpos Ht Hlt.
  destruct (valid_input_insert X w ts i j row a a' Hv Hi Hj Hlt) as [Ha Hv'].
  set (X' := <[i := <[j := a']> row]> X) in *.
  set (e := exponent_vector w ts).
  destruct (used_weights_pos w j wj (valid_weight_sum _ _ _ Hv) Hwj Hpos)
    as (uj & Huj & Hujpos).
  assert (Hej : e !! j = Some (signed t uj)).
  { unfold e, exponent_vector. by rewrite lookup_zip_with, Ht, Huj. }
  destruct (spec_raw_score_insert e row j a (signed t uj) Hj Hej)
    as (K & HK & Hrow).
  set (S := spec_raw_score e <$> X).
  assert (HSi : S !! i = Some (spec_raw_score e row)).
  { unfold S. by rewrite list_lookup_fmap, Hi. }
  destruct (Rsum_insert S i _ HSi) as (rest & Hsum & Hrest).
  assert (Hrest' : 0 < rest).
  { apply Hrest.
    - apply Forall_fmap, Forall_forall. intros x _. apply spec_raw_score_pos.
    - unfold S. by rewrite length_fmap. }
  set (s := Rpower a (signed t uj) * K).
  set (s' := Rpower a' (signed t uj) * K).
  assert (Hs : spec_raw_score e row = s).
  { unfold s. rewrite <- (Hrow a). by rewrite list_insert_id. }
  assert (HS' : spec_raw_score e <$> X' = <[i := s']> S).
  { unfold X', S. by rewrite list_fmap_insert, Hrow. }
  assert (HsumS : Rsum S = s + rest).
  { rewrite <- (Hsum s). rewrite list_insert_id; [done|]. by rewrite HSi, Hs. }
  assert (Hspos : 0 < s) by (apply Rmult_lt_0_compat; [apply Rpower_pos|done]).
  assert (Hs'pos : 0 < s') by (apply Rmult_lt_0_compat; [apply Rpower_pos|done]).
  assert (HlenX' : length X' = length X) by (unfold X'; by rewrite length_insert).
  pose proof (wp_scores_valid X w ts Hv) as Hsc.
  pose proof (wp_scores_valid X' w ts Hv') as Hsc'.
  fold e in Hsc, Hsc'. fold S in Hsc. rewrite HS' in Hsc'.
  eexists _, _, _, _, (s / (s + rest)), (s' / (s' + rest)).
  split; [exact Hsc|]. split; [exact Hsc'|].
  split.
  { unfold spec_preference. rewrite !list_lookup_fmap, HSi, Hs. simpl.
    by rewrite HsumS. }
  split.
  { unfold spec_preference. rewrite !list_lookup_fmap.
    rewrite list_lookup_insert_eq by by eapply lookup_lt_Some.
    simpl. by rewrite Hsum. }
  assert (Hbase : Rpower a uj < Rpower a' uj).
  { apply Rlt_Rpower_l; [done|lra]. }
  split; intros Hlabel.
  - apply share_increasing; [done| |done].
    unfold s, s', signed, is_cost.
    rewrite bool_decide_eq_false_2 by by rewrite Hlabel.
    by apply Rmult_lt_compat_r.
  - apply share_increasing; [done| |done].
    unfold s, s', signed, is_cost.
    rewrite bool_decide_eq_true_2 by done.
    rewrite !Rpower_Ropp. apply Rmult_lt_compat_r; [done|].
    apply Rinv_0_lt_contravar; [apply Rpower_pos|done].
Qed.

Lemma C9_witness :
  valid_input scenario_X scenario_w scenario_types
  /\ exists (S V S' V' : list npfloat) (v v' : R),
       wp_scores (real_matrix scenario_X) (Fin <$> scenario_w) scenario_types
       = Ok (S, V)
       /\ wp_scores (real_matrix (<[0%nat := <[0%nat := 81]> [80; 70]]> scenario_X))
            (Fin <$> scenario_w) scenario_types = Ok (S', V')
       /\ V !! 0%nat = Some (Fin v)
       /\ V' !! 0%nat = Some (Fin v')
       /\ v < v'.
Proof.
  split; [exact scenario_valid|].
  destruct (C9_monotone_in_one_entry scenario_X scenario_w scenario_types
              0 0 [80; 70] 80 81 (1/2) "benefit" scenario_valid)
    as (S & V & S' & V' & v & v' & H1 & H2 & H3 & H4 & H5 & _);
    [simpl; lia|done|done|done|lra|done|lra|].
  exists S, V, S', V', v, v'. repeat split; try done. by apply H5.
Defined.

(** The claim fails for a criterion of weight zero: with weights [1,0],
    raising the second entry of the first alternative from 1 to 2 leaves
    its preference score at 1/2. *)
Lemma C9_zero_weight_changes_nothing :
  valid_input [[1; 1]; [1; 1]] [1; 0] ["benefit"; "benefit"]%string
  /\ wp_scores (real_matrix [[1; 1]; [1; 1]]) [Fin 1; Fin 0]
       ["benefit"; "benefit"]%string
     = Ok ([Fin 1; Fin 1], [Fin (1/2); Fin (1/2)])
  /\ wp_scores (real_matrix [[1; 2]; [1; 1]]) [Fin 1; Fin 0]
       ["benefit"; "benefit"]%string
     = Ok ([Fin 1; Fin 1], [Fin (1/2); Fin (1/2)]).
Proof.
  assert (He : exponent_vector [1; 0] ["benefit"; "benefit"]%string = [1; 0]).
  { unfold exponent_vector, used_weights.
    rewrite close_to_one_1 by (simpl; lra). simpl.
    unfold signed. by rewrite is_cost_benefit. }
  assert (Hv : forall b, 0 < b ->
            valid_input [[1; b]; [1; 1]] [1; 0] ["benefit"; "benefit"]%string).
  { intros b Hb.
    split; [done|repeat constructor|repeat constructor; lra
           |repeat constructor; lra|simpl; lra|done
           |repeat constructor; by left]. }
  assert (Hsc : forall b, 0 < b ->
            wp_scores (real_matrix [[1; b]; [1; 1]]) [Fin 1; Fin 0]
              ["benefit"; "benefit"]%string
            = Ok ([Fin 1; Fin 1], [Fin (1/2); Fin (1/2)])).
  { intros b Hb. pose proof (wp_scores_valid _ _ _ (Hv b Hb)) as Hsc.
    change (Fin <$> [1; 0]) with [Fin 1; Fin 0] in Hsc. rewrite Hsc, He.
    unfold spec_raw_score, spec_preference.
    cbn [fmap list_fmap zip_with Rprod Rsum foldr].
    rewrite !Rpower_1, !Rpower_O by lra.
    replace (1 * (1 * 1)) with 1 by lra.
    by replace (1 / (1 + (1 + 0))) with (1/2) by lra. }
  split; [apply Hv; lra|]. split; apply Hsc; lra.
Qed.

(** ** C10: rescaling a column *)

Lemma spec_raw_score_scale (e x : list R) (j : nat) (c ej : R) :
  0 < c -> Forall (fun r => 0 < r) x ->
  (j < length x)%nat -> e !! j = Some ej ->
  spec_raw_score e (alter (Rmult c) j x) = Rpower c ej * spec_raw_score e x.
Proof.
  unfold spec_raw_score. intros Hc Hx. revert e j.
  induction Hx as [|a x Ha Hx IH]; intros [|b e] [|j] Hj He;
    simplify_eq/=; try lia.
  - rewrite <- Rpower_mult_distr by done. lra.
  - rewrite (IH e j) by (done || lia). lra.
Qed.

Lemma Rsum_scale (k : R) (S : list R) :
  Rsum (Rmult k <$> S) = k * Rsum S.
Proof. induction S as [|s S IH]; csimpl; [|rewrite IH]; lra. Qed.

Lemma spec_preference_scale (k : R) (S : list R) :
  0 < k -> Rsum S <> 0 ->
  spec_preference (Rmult k <$> S) = spec_preference S.
Proof.
  intros Hk HS. unfold spec_preference.
  rewrite Rsum_scale, <- list_fmap_compose.
  apply list_fmap_ext. intros i s _. simpl. field. lra.
Qed.

Lemma valid_input_scale X w ts c j :
  0 < c -> valid_input X w ts -> valid_input (scale_column c j X) w ts.
Proof.
  intros Hc [Hne Hshape Hpos Hw Hsum Hlen Hty]. unfold scale_column.
  split; try done.
  - by destruct X.
  - apply Forall_fmap. eapply Forall_impl; [exact Hshape|].
    intros x Hx. simpl. by rewrite length_alter.
  - apply Forall_fmap. eapply Forall_impl; [exact Hpos|].
    intros x Hx. simpl. clear -Hc Hx. revert j.
    induction Hx as [|a x Ha Hx IH]; intros [|j]; simpl; constructor;
      try done.
    + by apply Rmult_lt_0_compat.
    + apply IH.
Qed.

Lemma sort_values_proj `{ArgSort} {B} `{!Inhabited B} (f : row -> B)
    (df : list row) :
  f <$> sort_values df
  = (fun i => (f <$> df) !!! i) <$> nargsort (Nilai_V <$> df).
Proof.
  unfold sort_values. rewrite <- list_fmap_compose.
  apply Forall_fmap_ext_1.
  pose proof (nargsort_lt (Nilai_V <$> df)) as Hlt.
  rewrite length_fmap in Hlt.
  eapply Forall_impl; [exact Hlt|]. intros i Hi. simpl.
  pose proof (list_lookup_total_fmap f df i Hi) as Hf. by rewrite Hf.
Qed.

(** C10.  In exact arithmetic, for every valid input and every [c > 0],
    multiplying every entry of column [j] by [c] multiplies every raw
    score by [c ^ e_j] and leaves every preference score as it was; the
    tables of the two inputs list the same alternatives in the same order
    with the same preference scores. *)
Theorem C10_column_rescaling `{ArgSort} (X : list (list R)) (w : list R)
    (ts alts crit : list string) (c ej : R) (j : nat) :
  valid_input X w ts ->
  length alts = length X ->
  0 < c ->
  exponent_vector w ts !! j = Some ej ->
  let S := spec_raw_score (exponent_vector w ts) <$> X in
  let V := spec_preference S in
  wp_scores (real_matrix X) (Fin <$> w) ts = Ok (Fin <$> S, Fin <$> V)
  /\ wp_scores (real_matrix (scale_column c j X)) (Fin <$> w) ts
     = Ok (Fin <$> (Rmult (Rpower c ej) <$> S), Fin <$> V)
  /\ exists t t',
       weighted_product (real_matrix X) (Fin <$> w) ts alts crit = Ok t
       /\ weighted_product (real_matrix (scale_column c j X)) (Fin <$> w) ts
            alts crit = Ok t'
       /\ Alternatif <$> t' = Alternatif <$> t
       /\ Nilai_V <$> t' = Nilai_V <$> t.
Proof.
  intros Hv Halts Hc Hej S V.
  pose proof (valid_input_scale X w ts c j Hc Hv) as Hv'.
  pose proof (wp_scores_valid X w ts Hv) as Hsc. fold S V in Hsc.
  pose proof (wp_scores_valid _ w ts Hv') as Hsc'.
  assert (HS' : spec_raw_score (exponent_vector w ts) <$> scale_column c j X
                = Rmult (Rpower c ej) <$> S).
  { unfold scale_column, S. rewrite <- !list_fmap_compose.
    apply Forall_fmap_ext_1.
    pose proof (valid_shape _ _ _ Hv) as Hshape.
    pose proof (valid_entries _ _ _ Hv) as Hpos.
    apply Forall_forall. intros x Hx. simpl.
    rewrite Forall_forall in Hshape, Hpos.
    apply spec_raw_score_scale; [done|by apply Hpos| |done].
    rewrite (Hshape x Hx).
    apply lookup_lt_Some in Hej. unfold exponent_vector in Hej.
    rewrite length_zip_with in Hej. unfold used_weights in Hej.
    destruct (close_to_one (Rsum w)); rewrite ?length_fmap in Hej; lia. }
  assert (HV' : spec_preference (Rmult (Rpower c ej) <$> S) = V).
  { apply spec_preference_scale; [apply Rpower_pos|].
    pose proof (Rsum_raw_scores_pos (exponent_vector w ts) X
                  (valid_rows _ _ _ Hv)). fold S in H0. lra. }
  rewrite HS', HV' in Hsc'.
  split; [exact Hsc|]. split; [exact Hsc'|].
  set (S' := Rmult (Rpower c ej) <$> S) in *.
  assert (HlS : length alts = length (Fin <$> S)).
  { unfold S. by rewrite !length_fmap. }
  assert (HlS' : length alts = length (Fin <$> S')).
  { unfold S', S. by rewrite !length_fmap. }
  assert (HlV : length (Fin <$> S) = length (Fin <$> V)).
  { unfold V, spec_preference. by rewrite !length_fmap. }
  assert (HlV' : length (Fin <$> S') = length (Fin <$> V)).
  { unfold V, spec_preference, S'. by rewrite !length_fmap. }
  exists (sort_values (table alts (Fin <$> S) (Fin <$> V))),
         (sort_values (table alts (Fin <$> S') (Fin <$> V))).
  split; [by apply weighted_product_of_scores|].
  split; [by apply weighted_product_of_scores|].
  rewrite !sort_values_proj.
  by rewrite !table_Nilai_V, !table_Alternatif.
Qed.

Lemma C10_witness :
  valid_input scenario_X scenario_w scenario_types
  /\ wp_scores (real_matrix (scale_column 10 0 scenario_X))
       (Fin <$> scenario_w) scenario_types
     = Ok (Fin <$> (Rmult (Rpower 10 (1/2))
                      <$> (spec_raw_score
                             (exponent_vector scenario_w scenario_types)
                             <$> scenario_X)),
           Fin <$> spec_preference
                     (spec_raw_score
                        (exponent_vector scenario_w scenario_types)
                        <$> scenario_X)).
Proof.
  split; [exact scenario_valid|].
  apply (C10_column_rescaling scenario_X scenario_w scenario_types
           scenario_labels [] 10 (1/2) 0 scenario_valid eq_refl);
    [lra|by rewrite scenario_exponents].
Defined.

(** * Further properties of the code *)

(** ** When the routine raises *)

Lemma length_negate_costs (k : nat) ts w e :
  negate_costs k ts w = Ok e -> length e = length w.
Proof.
  revert k w. induction ts as [|t ts IH]; intros k w He; simpl in He.
  - by simplify_eq.
  - destruct (decide (strip (lower t) = "cost"%string)); [|by eapply IH].
    destruct (w !! k) as [x|]; [|done].
    apply IH in He. by rewrite length_insert in He.
Qed.

Lemma is_cost_decide (t : string) :
  is_cost t = true <-> strip (lower t) = "cost"%string.
Proof. unfold is_cost. apply bool_decide_eq_true. Qed.

(** A cost label at a position without a weight ends the loop with
    [IndexError]. *)
Lemma negate_costs_IndexError (k : nat) ts w (j : nat) (t : string) :
  ts !! j = Some t -> is_cost t = true -> (length w <= k + j)%nat ->
  negate_costs k ts w = Raise IndexError.
Proof.
  revert k w j. induction ts as [|t0 ts IH]; intros k w j Hj Hc Hlen; [done|].
  simpl. destruct (decide (strip (lower t0) = "cost"%string)) as [Hc0|Hc0].
  - destruct (w !! k) as [x|] eqn:Hk; [|done].
    apply lookup_lt_Some in Hk.
    destruct j as [|j]; [lia|]. simpl in Hj.
    apply (IH (S k) _ j); [done|done|]. rewrite length_insert. lia.
  - destruct j as [|j].
    + simplify_eq/=. by apply is_cost_decide in Hc.
    + simpl in Hj. apply (IH (S k) _ j); [done|done|lia].
Qed.

Lemma negate_costs_no_cost (k : nat) ts (l : list npfloat) :
  Forall (fun t => is_cost t = false) ts -> negate_costs k ts l = Ok l.
Proof.
  intros Hts. revert k. induction Hts as [|t ts Ht Hts IH]; intros k; [done|].
  simpl. unfold is_cost in Ht. apply bool_decide_eq_false in Ht.
  by rewrite decide_False.
Qed.

(** Without such a label the loop ends well: the labels sign the weights
    they stand for and the other weights stay. *)
Lemma negate_costs_Ok `{Arith} (pre : list npfloat) ts w :
  (forall j t, ts !! j = Some t -> (length w <= j)%nat -> is_cost t = false) ->
  negate_costs (length pre) ts (pre ++ w)
  = Ok (pre ++ zip_with fsigned ts w ++ drop (length ts) w).
Proof.
  revert pre w. induction ts as [|t ts IH]; intros pre w Hno.
  { simpl. by rewrite drop_0. }
  destruct w as [|x w].
  - rewrite negate_costs_no_cost.
    + by rewrite zip_with_nil_r, drop_nil.
    + apply Forall_forall. intros t' Ht'.
      apply list_elem_of_lookup_1 in Ht' as [j Hj].
      apply (Hno j); [done|simpl; lia].
  - simpl.
    assert (Hnext : forall y : npfloat,
        negate_costs (S (length pre)) ts (pre ++ y :: w)
        = Ok (pre ++ y :: zip_with fsigned ts w ++ drop (length ts) w)).
      { intros y. specialize (IH (pre ++ [y]) w).
        rewrite length_app in IH. simpl in IH.
        replace (length pre + 1)%nat with (S (length pre)) in IH by lia.
        rewrite <- !(assoc_L (++)) in IH. apply IH.
        intros j t' Hj Hlen. apply (Hno (S j)); [done|simpl in *; lia]. }
    unfold fsigned at 1, is_cost.
    destruct (decide (strip (lower t) = "cost"%string)) as [Hc|Hc].
    + rewrite bool_decide_eq_true_2 by done.
      rewrite list_lookup_middle by done.
      rewrite insert_app_r_alt, Nat.sub_diag by lia. apply Hnext.
    + rewrite bool_decide_eq_false_2 by done. apply Hnext.
Qed.

Lemma negate_costs_Ok_0 `{Arith} ts w :
  (forall j t, ts !! j = Some t -> (length w <= j)%nat -> is_cost t = false) ->
  negate_costs 0 ts (normalize_weights w) = Ok (exponents_gen w ts).
Proof.
  intros Hno. apply (negate_costs_Ok [] ts (normalize_weights w)).
  intros j t Hj Hlen. rewrite length_normalize_weights in Hlen. eauto.
Qed.

Lemma length_exponents_gen `{Arith} w ts : length (exponents_gen w ts) = length w.
Proof.
  unfold exponents_gen, exponents.
  rewrite length_app, length_zip_with, length_drop, length_normalize_weights.
  lia.
Qed.

Lemma pow_broadcast_returns `{Arith} (x e : list npfloat) :
  broadcasts (length x) (length e) ->
  exists p, pow_broadcast x e = Ok p.
Proof.
  unfold broadcasts, pow_broadcast. intros Hb.
  destruct (decide (length x = length e)); [by eexists|].
  destruct Hb as [?|[Hk|Hm]]; [done| |].
  - destruct e as [|b [|??]]; simplify_eq/=.
    destruct x as [|a [|??]]; by eexists.
  - destruct x as [|a [|??]]; simplify_eq/=.
    destruct e as [|b [|??]]; by eexists.
Qed.

Lemma pow_broadcast_raises `{Arith} (x e : list npfloat) :
  ~ broadcasts (length x) (length e) ->
  pow_broadcast x e = Raise ValueError.
Proof.
  unfold broadcasts, pow_broadcast. intros Hb.
  rewrite decide_False by tauto.
  destruct e as [|b [|??]], x as [|a [|??]]; simpl in *; try done; lia.
Qed.

Lemma mapM_returns {A B} (f : A -> result B) (l : list A) :
  Forall (fun x => exists y, f x = Ok y) l ->
  exists ys, mapM f l = Ok ys /\ length ys = length l.
Proof.
  induction 1 as [|x l [y Hy] Hl (ys & IH & Hlen)]; csimpl; [by eexists|].
  rewrite Hy. change (exists zs, mapM f l ≫= (fun k => mret (y :: k)) = Ok zs
                                 /\ length zs = S (length l)).
  rewrite IH. exists (y :: ys). simpl. by rewrite Hlen.
Qed.

Lemma mapM_raises {A B} (f : A -> result B) (x : A) (l : list A) (e : exn) :
  f x = Raise e -> mapM f (x :: l) = Raise e.
Proof. intros Hx. csimpl. by rewrite Hx. Qed.

Lemma cost_beyond_lookup `{Arith} w ts :
  cost_beyond w ts ->
  exists j t, ts !! j = Some t /\ is_cost t = true /\ (length w <= j)%nat.
Proof.
  unfold cost_beyond. intros (t & Ht & Hc)%Exists_exists.
  apply list_elem_of_lookup_1 in Ht as [i Hi]. rewrite lookup_drop in Hi.
  exists (length w + i)%nat, t. repeat split; [done|done|lia].
Qed.

Lemma not_cost_beyond_lookup `{Arith} w ts :
  ~ cost_beyond w ts ->
  forall j t, ts !! j = Some t -> (length w <= j)%nat -> is_cost t = false.
Proof.
  unfold cost_beyond. intros Hno j t Hj Hlen.
  destruct (is_cost t) eqn:Hc; [|done]. destruct Hno.
  apply Exists_exists. exists t. split; [|done].
  apply list_elem_of_lookup. exists (j - length w)%nat.
  rewrite lookup_drop. by replace (length w + (j - length w))%nat with j by lia.
Qed.

Lemma raw_scores_returns `{Arith} (X : list (list npfloat)) (e : list npfloat) (m : nat) :
  X <> [] -> Forall (fun x => length x = m) X -> broadcasts m (length e) ->
  exists S, raw_scores X e = Ok S /\ length S = length X.
Proof.
  intros Hne Hshape Hb. unfold raw_scores. destruct X as [|x X]; [done|].
  destruct (mapM_returns (fun x => pow_broadcast x e) (x :: X))
    as (P & HP & Hlen).
  { eapply Forall_impl; [exact Hshape|]. intros y <-.
    by apply pow_broadcast_returns. }
  rewrite HP. simpl. eexists. split; [done|]. by rewrite length_fmap.
Qed.

Lemma raw_scores_raises `{Arith} (X : list (list npfloat)) (e : list npfloat) (m : nat) :
  X <> [] -> Forall (fun x => length x = m) X -> ~ broadcasts m (length e) ->
  raw_scores X e = Raise ValueError.
Proof.
  intros Hne Hshape Hb. unfold raw_scores. destruct X as [|x X]; [done|].
  apply Forall_cons in Hshape as [<- _].
  by rewrite (mapM_raises _ x X ValueError) by by apply pow_broadcast_raises.
Qed.

Section Raises.
Context {arithmetic : Arith} `{ArgSort}.

Lemma weighted_product_IndexError X w ts alts crit (m : nat) :
  Forall (fun x => length x = m) X ->
  cost_beyond w ts ->
  weighted_product X w ts alts crit = Raise IndexError.
Proof.
  intros Hshape (j & t & Hj & Hc & Hlen)%cost_beyond_lookup.
  unfold weighted_product, wp_scores.
  rewrite (np_array2_eq X m) by done. simpl.
  rewrite (negate_costs_IndexError 0 ts _ j t); [done|done|done|].
  rewrite length_normalize_weights. lia.
Qed.

Lemma weighted_product_no_broadcast X w ts alts crit (m : nat) :
  X <> [] -> Forall (fun x => length x = m) X ->
  ~ cost_beyond w ts -> ~ broadcasts m (length w) ->
  weighted_product X w ts alts crit = Raise ValueError.
Proof.
  intros Hne Hshape Hno Hb. unfold weighted_product, wp_scores.
  rewrite (np_array2_eq X m) by done. simpl.
  rewrite negate_costs_Ok_0 by by apply not_cost_beyond_lookup. simpl.
  by rewrite (raw_scores_raises X _ m) by by rewrite ?length_exponents_gen.
Qed.

Lemma weighted_product_broadcast X w ts alts crit (m : nat) :
  X <> [] -> Forall (fun x => length x = m) X ->
  ~ cost_beyond w ts -> broadcasts m (length w) ->
  exists S, length S = length X
    /\ weighted_product X w ts alts crit
       = df_result ← DataFrame alts S (scores_V S); Ok (sort_values df_result).
Proof.
  intros Hne Hshape Hno Hb. unfold weighted_product, wp_scores.
  rewrite (np_array2_eq X m) by done. simpl.
  rewrite negate_costs_Ok_0 by by apply not_cost_beyond_lookup. simpl.
  destruct (raw_scores_returns X (exponents_gen w ts) m) as (S & HS & Hlen);
    [done|done|by rewrite length_exponents_gen|].
  rewrite HS. simpl. by exists S.
Qed.

(** X1.  For a matrix with at least one row whose rows have [m] entries,
    the routine returns a table exactly when no label beyond the weights
    is a cost, the weights broadcast against the columns (as many weights
    as columns, or one weight, or one column) and there are as many names
    as rows. *)
Theorem weighted_product_returns_iff X w ts alts crit (m : nat) :
  X <> [] -> Forall (fun x => length x = m) X ->
  (exists t, weighted_product X w ts alts crit = Ok t)
  <-> ~ cost_beyond w ts /\ broadcasts m (length w) /\ length alts = length X.
Proof.
  intros Hne Hshape. split.
  - intros [t Ht].
    destruct (decide (cost_beyond w ts)) as [Hc|Hc].
    { by rewrite (weighted_product_IndexError X w ts alts crit m) in Ht. }
    destruct (decide (broadcasts m (length w))) as [Hb|Hb].
    2:{ by rewrite (weighted_product_no_broadcast X w ts alts crit m) in Ht. }
    destruct (weighted_product_broadcast X w ts alts crit m)
      as (S & Hlen & Hwp); try done.
    rewrite Hwp in Ht. unfold DataFrame in Ht.
    destruct (decide (length alts = length S)) as [Hl|Hl]; [|done].
    repeat split; [done|done|congruence].
  - intros (Hc & Hb & Hl).
    destruct (weighted_product_broadcast X w ts alts crit m)
      as (S & Hlen & Hwp); try done.
    rewrite Hwp. unfold DataFrame.
    rewrite decide_True by congruence. by eexists.
Qed.

(** X2.  Which exception: a cost label beyond the weights gives
    [IndexError], from the loop, before anything is computed; otherwise
    weights that do not broadcast against the columns give [ValueError];
    otherwise a wrong number of names gives [ValueError], after the scores
    were computed. *)
Theorem weighted_product_exception X w ts alts crit (m : nat) :
  X <> [] -> Forall (fun x => length x = m) X ->
  (cost_beyond w ts -> weighted_product X w ts alts crit = Raise IndexError)
  /\ (~ cost_beyond w ts -> ~ broadcasts m (length w) ->
      weighted_product X w ts alts crit = Raise ValueError)
  /\ (~ cost_beyond w ts -> broadcasts m (length w) ->
      length alts <> length X ->
      weighted_product X w ts alts crit = Raise ValueError).
Proof.
  intros Hne Hshape. split; [|split].
  - by apply (weighted_product_IndexError X w ts alts crit m).
  - by apply weighted_product_no_broadcast.
  - intros Hc Hb Hl.
    destruct (weighted_product_broadcast X w ts alts crit m)
      as (S & Hlen & Hwp); try done.
    rewrite Hwp. unfold DataFrame. rewrite decide_False by congruence. done.
Qed.
End Raises.

(** ** Labels and weights at the edges *)

Lemma negate_costs_app_no_cost `{Arith} (k : nat) ts ts' (w : list npfloat) :
  Forall (fun t => is_cost t = false) ts' ->
  negate_costs k (ts ++ ts') w = negate_costs k ts w.
Proof.
  intros Hts'. revert k w. induction ts as [|t ts IH]; intros k w; simpl.
  - by apply negate_costs_no_cost.
  - destruct (decide (strip (lower t) = "cost"%string)); [|done].
    by destruct (w !! k).
Qed.

(** X3.  Labels at the end of the list that do not normalize to cost have
    no effect on what the routine returns or raises: leaving a label out
    is the same as writing benefit. *)
Theorem trailing_labels_without_cost {arithmetic : Arith} `{ArgSort} X w ts ts' alts crit :
  Forall (fun t => is_cost t = false) ts' ->
  weighted_product X w (ts ++ ts') alts crit
  = weighted_product X w ts alts crit.
Proof.
  intros Hts'. unfold weighted_product, wp_scores.
  destruct (np_array2 X) as [X'|]; [|done]. simpl.
  by rewrite negate_costs_app_no_cost.
Qed.

Lemma pow_broadcast_single `{Arith} (x : list npfloat) (e : npfloat) :
  pow_broadcast x [e] = Ok ((fun b => fpow b e) <$> x).
Proof.
  unfold pow_broadcast. destruct (decide (length x = length [e])) as [Hl|Hl].
  - destruct x as [|b [|??]]; simpl in Hl; try lia. done.
  - by destruct x as [|b [|??]].
Qed.

Lemma raw_scores_single `{Arith} (X : list (list npfloat)) (e : npfloat) :
  X <> [] ->
  raw_scores X [e] = Ok ((fun r => np_prod ((fun b => fpow b e) <$> r)) <$> X).
Proof.
  intros Hne. unfold raw_scores. destruct X as [|r X]; [done|].
  rewrite (mapM_Ok _ (fun r => (fun b => fpow b e) <$> r)).
  - simpl. by rewrite <- list_fmap_compose.
  - apply Forall_forall. intros r' _. apply pow_broadcast_single.
Qed.

(** X4.  A single weight is applied to every column: with one weight and
    any number of columns the routine raises nothing, and every raw score
    is the product of the entries of the row, each to the one exponent. *)
Theorem single_weight_broadcast `{ArgSort} X (x : npfloat) ts alts crit (m : nat) :
  X <> [] -> Forall (fun r => length r = m) X ->
  ~ cost_beyond [x] ts ->
  length alts = length X ->
  exists e : npfloat,
    exponents_gen [x] ts = [e]
    /\ weighted_product X [x] ts alts crit
       = Ok (sort_values
               (table alts
                  ((fun r => np_prod ((fun b => fpow b e) <$> r)) <$> X)
                  (scores_V
                     ((fun r => np_prod ((fun b => fpow b e) <$> r)) <$> X)))).
Proof.
  intros Hne Hshape Hno Halts.
  pose proof (length_exponents_gen [x] ts) as Hlen.
  destruct (exponents_gen [x] ts) as [|e [|??]] eqn:He; simplify_eq/=.
  exists e. split; [done|].
  unfold weighted_product, wp_scores.
  rewrite (np_array2_eq X m) by done. simpl.
  rewrite negate_costs_Ok_0 by by apply not_cost_beyond_lookup.
  rewrite He. simpl. rewrite raw_scores_single by done. simpl.
  unfold DataFrame. by rewrite decide_True by by rewrite length_fmap.
Qed.

Lemma weighted_product_normalized `{ArgSort} X w w' ts alts crit :
  normalize_weights w = normalize_weights w' ->
  weighted_product X w ts alts crit = weighted_product X w' ts alts crit.
Proof. intros Hw. unfold weighted_product, wp_scores. by rewrite Hw. Qed.

(** X5.  In exact arithmetic, only the proportions of the weights count:
    when neither sum is close to 1, multiplying every weight by the same
    [k > 0] changes nothing in what the routine returns. *)
Theorem weights_up_to_scale `{ArgSort} X (w : list R) (k : R) ts alts crit :
  0 < k -> Rsum w <> 0 ->
  close_to_one (Rsum w) = false ->
  close_to_one (k * Rsum w) = false ->
  weighted_product X (Fin <$> (Rmult k <$> w)) ts alts crit
  = weighted_product X (Fin <$> w) ts alts crit.
Proof.
  intros Hk Hs Hc Hck. apply weighted_product_normalized.
  assert (Hsum : Rsum (Rmult k <$> w) = k * Rsum w) by apply Rsum_scale.
  rewrite !normalize_weights_Fin by (rewrite ?Hsum; nra).
  unfold used_weights. rewrite Hsum, Hc, Hck. f_equal.
  rewrite <- list_fmap_compose.
  apply list_fmap_ext. intros i x _. simpl. field. lra.
Qed.

(** ** The scores of a valid input *)

Lemma table_elem alts (S V : list npfloat) (r : row) :
  r ∈ table alts S V ->
  exists i, alts !! i = Some (Alternatif r)
         /\ S !! i = Some (Nilai_S r) /\ V !! i = Some (Nilai_V r).
Proof.
  unfold table. revert S V.
  induction alts as [|a alts IH]; intros [|s S] [|v V] Hr; simpl in Hr;
    try by inv Hr.
  apply elem_of_cons in Hr as [->|Hr].
  - by exists 0%nat.
  - destruct (IH S V Hr) as (i & ? & ? & ?). by exists (Datatypes.S i).
Qed.

Lemma Rsum_ge_elem (S : list R) (i : nat) (s : R) :
  Forall (fun r => 0 < r) S -> S !! i = Some s ->
  s <= Rsum S /\ ((2 <= length S)%nat -> s < Rsum S).
Proof.
  intros HS. revert i. induction HS as [|r S Hr HS IH]; intros i Hi; [done|].
  assert (H0 : 0 <= Rsum S).
  { clear -HS. induction HS as [|? ? ? ? IH]; simpl; lra. }
  destruct i as [|i]; simplify_eq/=.
  - split; [lra|]. intros Hlen. enough (0 < Rsum S) by lra.
    apply Rsum_pos; [|done]. destruct S; simpl in *; [lia|done].
  - destruct (IH i Hi) as [Hle _]. split; lra.
Qed.

Lemma valid_table `{ArgSort} (X : list (list R)) (w : list R)
    (ts alts crit : list string) :
  valid_input X w ts ->
  length alts = length X ->
  let S := spec_raw_score (exponent_vector w ts) <$> X in
  exists t, weighted_product (real_matrix X) (Fin <$> w) ts alts crit = Ok t
    /\ t ≡ₚ table alts (Fin <$> S) (Fin <$> spec_preference S)
    /\ StronglySorted V_ge t.
Proof.
  intros Hv Halts S.
  pose proof (wp_scores_valid X w ts Hv) as Hsc. fold S in Hsc.
  exists (sort_values (table alts (Fin <$> S) (Fin <$> spec_preference S))).
  split.
  { apply weighted_product_of_scores; [done|]. unfold S.
    by rewrite !length_fmap. }
  split; [apply sort_values_perm|].
  apply (StronglySorted_impl_Forall
           (fun r1 r2 => np_le (Nilai_V r2) (Nilai_V r1)) V_ge
           (fun r => ~ isnan (Nilai_V r))).
  - intros r1 r2 H1 H2 Hle. unfold V_ge. by apply np_le_fle.
  - rewrite sort_values_perm. apply table_Fin_not_nan.
  - apply sort_values_sorted, table_Fin_not_nan.
Qed.

(** What a line of the table of a valid input holds. *)
Lemma valid_table_line alts (S : list R) (r : row) :
  r ∈ table alts (Fin <$> S) (Fin <$> spec_preference S) ->
  exists (i : nat) (s : R),
    S !! i = Some s /\ Nilai_S r = Fin s /\ Nilai_V r = Fin (s / Rsum S).
Proof.
  intros (i & _ & HS & HV)%table_elem.
  rewrite list_lookup_fmap in HS. unfold spec_preference in HV.
  rewrite !list_lookup_fmap in HV.
  destruct (S !! i) as [s|] eqn:Hs; simplify_eq/=.
  exists i, s. by rewrite <- HS, <- HV.
Qed.

(** X6.  In exact arithmetic, for a valid input every line of the table
    has a raw score above zero and a preference score above zero and at
    most one, below one as soon as there are two alternatives. *)
Theorem scores_within_bounds `{ArgSort} (X : list (list R)) (w : list R)
    (ts alts crit : list string) :
  valid_input X w ts ->
  length alts = length X ->
  exists t, weighted_product (real_matrix X) (Fin <$> w) ts alts crit = Ok t
    /\ Forall (fun r => exists s v : R,
                 Nilai_S r = Fin s /\ Nilai_V r = Fin v
                 /\ 0 < s /\ 0 < v <= 1
                 /\ ((2 <= length X)%nat -> v < 1)) t.
Proof.
  intros Hv Halts.
  destruct (valid_table X w ts alts crit Hv Halts) as (t & Ht & Hp & _).
  exists t. split; [done|]. rewrite Hp. apply Forall_forall. intros r Hr.
  set (S := spec_raw_score (exponent_vector w ts) <$> X) in *.
  destruct (valid_table_line alts S r Hr) as (i & s & Hi & HS & HV).
  assert (Hpos : Forall (fun r => 0 < r) S).
  { apply Forall_fmap, Forall_forall. intros x _. apply spec_raw_score_pos. }
  assert (Hs : 0 < s).
  { rewrite Forall_forall in Hpos. apply Hpos. by eapply list_elem_of_lookup_2. }
  destruct (Rsum_ge_elem S i s Hpos Hi) as [Hle Hlt].
  exists s, (s / Rsum S). repeat split; try done.
  - apply Rdiv_lt_0_compat; lra.
  - apply (Rmult_le_reg_r (Rsum S)); [lra|].
    unfold Rdiv. rewrite Rmult_assoc, Rinv_l by lra. lra.
  - intros Hlen. apply (Rmult_lt_reg_r (Rsum S)); [lra|].
    unfold Rdiv. rewrite Rmult_assoc, Rinv_l by lra.
    assert (s < Rsum S); [|lra]. apply Hlt. unfold S. by rewrite length_fmap.
Qed.

(** X7.  In exact arithmetic (the statement is about [exact_arithmetic]:
    nothing is rounded, nothing overflows), for a valid input the ranking
    by preference score is the ranking by raw score: down the table the
    raw scores descend as well. *)
Theorem ranked_by_raw_score `{ArgSort} (X : list (list R)) (w : list R)
    (ts alts crit : list string) :
  valid_input X w ts ->
  length alts = length X ->
  exists t, weighted_product (real_matrix X) (Fin <$> w) ts alts crit = Ok t
    /\ StronglySorted (fun r1 r2 => fle (Nilai_S r2) (Nilai_S r1)) t.
Proof.
  intros Hv Halts.
  destruct (valid_table X w ts alts crit Hv Halts) as (t & Ht & Hp & Hs).
  exists t. split; [done|].
  set (S := spec_raw_score (exponent_vector w ts) <$> X) in *.
  assert (HT : 0 < Rsum S).
  { apply Rsum_raw_scores_pos, Hv. }
  apply (StronglySorted_impl_Forall V_ge _
           (fun r => exists s, Nilai_S r = Fin s
                            /\ Nilai_V r = Fin (s / Rsum S))); [| |done].
  - intros r1 r2 (s1 & HS1 & HV1) (s2 & HS2 & HV2). unfold V_ge, fle.
    rewrite HS1, HS2, HV1, HV2. simpl.
    intros [Hlt|Heq].
    + left. apply (Rmult_lt_reg_r (/ Rsum S)); [by apply Rinv_0_lt_compat|].
      exact Hlt.
    + right. apply (Rmult_eq_reg_r (/ Rsum S)); [exact Heq|].
      apply Rinv_neq_0_compat. lra.
  - rewrite Hp. apply Forall_forall. intros r Hr.
    destruct (valid_table_line alts S r Hr) as (i & s & _ & HS & HV).
    by exists s.
Qed.

(** ** Dominance *)

Lemma used_weights_nonneg (w : list R) :
  Forall (fun r => 0 <= r) w -> 0 < Rsum w ->
  Forall (fun r => 0 <= r) (used_weights w).
Proof.
  intros Hw Hs. unfold used_weights.
  destruct (close_to_one (Rsum w)); [done|].
  apply Forall_fmap. eapply Forall_impl; [exact Hw|].
  intros x Hx. simpl. apply Rmult_le_pos; [done|].
  apply Rlt_le. by apply Rinv_0_lt_compat.
Qed.

(** One factor: the entry that is better for the criterion gives the
    larger power. *)
Lemma Rpower_signed_le (t : string) (u a b : R) :
  0 <= u -> 0 < a -> 0 < b ->
  (if is_cost t then a <= b else b <= a) ->
  Rpower b (signed t u) <= Rpower a (signed t u).
Proof.
  intros Hu Ha Hb Hab. unfold signed. destruct (is_cost t).
  - rewrite !Rpower_Ropp. apply Rinv_le_contravar; [apply Rpower_pos|].
    apply Rle_Rpower_l; [done|lra].
  - apply Rle_Rpower_l; [done|lra].
Qed.

Lemma spec_raw_score_dominance (ts : list string) (u a b : list R) :
  Forall (fun r => 0 <= r) u ->
  Forall (fun r => 0 < r) a -> Forall (fun r => 0 < r) b ->
  length a = length b ->
  (forall j t xa xb, ts !! j = Some t -> a !! j = Some xa -> b !! j = Some xb ->
     if is_cost t then xa <= xb else xb <= xa) ->
  spec_raw_score (zip_with signed ts u) b
  <= spec_raw_score (zip_with signed ts u) a.
Proof.
  unfold spec_raw_score. intros Hu Ha. revert ts u b Hu.
  induction Ha as [|xa a Hxa Ha IH]; intros ts u [|xb b] Hu Hb Hlen Hdom;
    simplify_eq/=; [lra|].
  apply Forall_cons in Hb as [Hxb Hb].
  destruct ts as [|t ts]; [simpl; lra|].
  destruct u as [|u0 u]; [simpl; lra|].
  apply Forall_cons in Hu as [Hu0 Hu]. simpl.
  apply Rmult_le_compat.
  - apply Rlt_le, Rpower_pos.
  - apply Rlt_le, Rprod_pos, zip_Rpower_pos.
  - apply Rpower_signed_le; try done. by apply (Hdom 0%nat).
  - apply IH; try done. intros j t' ya yb Hj Hya Hyb.
    by apply (Hdom (S j)).
Qed.

(** X8.  In exact arithmetic (the statement is about [exact_arithmetic]:
    nothing is rounded, nothing overflows), dominance is respected: for a
    valid input, an alternative that is at least as high as another on
    every benefit criterion and at most as high on every cost criterion
    has a raw score and a preference score at least as large. *)
Theorem dominance_respected (X : list (list R)) (w : list R) (ts : list string)
    (ia ib : nat) (a b : list R) :
  valid_input X w ts ->
  X !! ia = Some a -> X !! ib = Some b ->
  (forall j t xa xb, ts !! j = Some t -> a !! j = Some xa -> b !! j = Some xb ->
     if is_cost t then xa <= xb else xb <= xa) ->
  exists (S V : list npfloat) (sa sb va vb : R),
    wp_scores (real_matrix X) (Fin <$> w) ts = Ok (S, V)
    /\ S !! ia = Some (Fin sa) /\ S !! ib = Some (Fin sb)
    /\ V !! ia = Some (Fin va) /\ V !! ib = Some (Fin vb)
    /\ sb <= sa /\ vb <= va.
Proof.
  intros Hv Ha Hb Hdom.
  pose proof (wp_scores_valid X w ts Hv) as Hsc.
  set (e := exponent_vector w ts) in *.
  set (S := spec_raw_score e <$> X) in *.
  assert (HT : 0 < Rsum S) by apply Rsum_raw_scores_pos, Hv.
  assert (Hrow : forall i x, X !! i = Some x ->
            Forall (fun r => 0 < r) x /\ length x = length w).
  { intros i x Hi. apply list_elem_of_lookup_2 in Hi.
    pose proof (valid_entries _ _ _ Hv) as Hpos.
    pose proof (valid_shape _ _ _ Hv) as Hshape.
    rewrite Forall_forall in Hpos, Hshape. split; auto. }
  destruct (Hrow ia a Ha) as [Hapos Halen].
  destruct (Hrow ib b Hb) as [Hbpos Hblen].
  assert (Hle : spec_raw_score e b <= spec_raw_score e a).
  { apply spec_raw_score_dominance; try done; [|congruence].
    apply used_weights_nonneg; apply Hv. }
  eexists _, _, (spec_raw_score e a), (spec_raw_score e b),
    (spec_raw_score e a / Rsum S), (spec_raw_score e b / Rsum S).
  split; [exact Hsc|]. unfold spec_preference, S.
  rewrite !list_lookup_fmap, Ha, Hb. simpl.
  repeat split; try done.
  apply Rmult_le_compat_r; [|done]. apply Rlt_le. by apply Rinv_0_lt_compat.
Qed.

(** ** NaN in the matrix and in the table *)

Lemma fpow_NaN_l `{Arith} (e : npfloat) : e <> Fin 0 -> fpow NaN e = NaN.
Proof.
  intros He. destruct e as [b| | |]; simpl; try done.
  rewrite decide_False; [done|]. congruence.
Qed.

(** X9.  One NaN entry (an empty cell of the sheet) whose criterion has
    an exponent other than zero turns every preference score into NaN:
    the routine raises nothing and returns the alternatives in their
    input order, all with the preference score NaN. *)
Theorem nan_entry_poisons {arithmetic : Arith} `{ArgSort} X w ts alts crit (i j : nat)
    (x : list npfloat) (e : npfloat) :
  X <> [] -> Forall (fun r => length r = length w) X ->
  length ts = length w -> length alts = length X ->
  X !! i = Some x -> x !! j = Some NaN ->
  exponents w ts !! j = Some e -> e <> Fin 0 ->
  exists t, weighted_product X w ts alts crit = Ok t
    /\ Alternatif <$> t = alts
    /\ Forall (fun r => Nilai_V r = NaN) t.
Proof.
  intros Hne Hshape Hlen Halts Hi Hj He Hne0.
  set (S := scores_S X w ts).
  assert (HS : NaN ∈ S).
  { unfold S, scores_S. apply list_elem_of_fmap. exists x.
    split; [|by eapply list_elem_of_lookup_2].
    symmetry. apply np_prod_NaN. apply list_elem_of_lookup. exists j.
    rewrite lookup_zip_with, Hj, He. cbn -[fpow]. by rewrite fpow_NaN_l. }
  pose proof (scores_V_NaN S HS) as HV.
  assert (Hnan : Forall (fun r => isnan (Nilai_V r)) (table alts S (scores_V S))).
  { apply (table_Forall_V (fun v => Is_true (isnan v))).
    eapply Forall_impl; [exact HV|]. by intros v ->. }
  exists (table alts S (scores_V S)). split; [|split].
  - rewrite weighted_product_eq by done. fold S.
    by rewrite sort_values_all_NaN.
  - apply table_Alternatif.
    + unfold S. by rewrite length_scores_S.
    + by rewrite length_scores_V.
  - by apply (table_Forall_V (fun v => v = NaN)).
Qed.

Section NaNLast.
Context {arithmetic : Arith} `{ArgSort}.

(** X10.  In every table the routine returns, the lines whose preference
    score is not NaN come first, their scores descending, and the lines
    whose preference score is NaN follow at the end, in input order. *)
Theorem nan_lines_last X w ts alts crit (S V : list npfloat) :
  wp_scores X w ts = Ok (S, V) ->
  length alts = length S ->
  exists ranked,
    weighted_product X w ts alts crit
    = Ok (ranked ++ filter (fun r => isnan (Nilai_V r)) (table alts S V))
    /\ ranked ≡ₚ filter (fun r => ~ isnan (Nilai_V r)) (table alts S V)
    /\ StronglySorted V_ge ranked.
Proof.
  intros Hsc Hlen.
  destruct (sort_values_structure (table alts S V)) as (ranked & Hs & Hp & Hd).
  exists ranked. split; [|done].
  rewrite (weighted_product_of_scores X w ts alts crit S V) by done.
  by rewrite Hs.
Qed.
End NaNLast.

(** ** The order of the alternatives *)

Lemma fadd_comm (x y : npfloat) : fadd x y = fadd y x.
Proof. destruct x, y; simpl; try done. f_equal. lra. Qed.

Lemma fadd_assoc (x y z : npfloat) : fadd x (fadd y z) = fadd (fadd x y) z.
Proof. destruct x, y, z; simpl; try done. f_equal. lra. Qed.

Lemma np_sum_perm (l l' : list npfloat) : l ≡ₚ l' -> np_sum l = np_sum l'.
Proof.
  unfold np_sum. induction 1 as [|x l l' _ IH|x y l|l1 l2 l3 _ IH1 _ IH2]; simpl.
  - done.
  - by rewrite IH.
  - by rewrite !fadd_assoc, (fadd_comm y x).
  - by rewrite IH1.
Qed.

Lemma mapM_Ok_inv {A B} (f : A -> result B) (l : list A) (ys : list B) :
  mapM f l = Ok ys -> Forall2 (fun x y => f x = Ok y) l ys.
Proof.
  revert ys. induction l as [|x l IH]; intros ys Hm; csimpl in Hm.
  - unfold mret, result_ret in Hm. simplify_eq. constructor.
  - destruct (f x) as [y|] eqn:Hx; [|done].
    change (mapM f l ≫= (fun k => mret (y :: k)) = Ok ys) in Hm.
    destruct (mapM f l) as [zs|] eqn:Hl; [|done].
    simpl in Hm. unfold mret, result_ret in Hm. simplify_eq.
    constructor; [done|]. by apply IH.
Qed.

Lemma np_prod_row_score `{Arith} (e : list npfloat) (l P : list (list npfloat)) :
  Forall2 (fun x p => pow_broadcast x e = Ok p) l P ->
  np_prod <$> P = row_score e <$> l.
Proof.
  induction 1 as [|y p l' P' Hy HP IH]; csimpl; [done|].
  rewrite IH. f_equal. unfold row_score. by rewrite Hy.
Qed.

Lemma raw_scores_Ok_inv `{Arith} (X : list (list npfloat)) (e S : list npfloat) :
  raw_scores X e = Ok S ->
  X <> [] /\ Forall (fun x => exists p, pow_broadcast x e = Ok p) X
  /\ S = row_score e <$> X.
Proof.
  unfold raw_scores. intros HS. destruct X as [|x X]; [by destruct (decide _)|].
  destruct (mapM (fun x => pow_broadcast x e) (x :: X)) as [P|] eqn:HP; [|done].
  simpl in HS. simplify_eq. apply mapM_Ok_inv in HP.
  split; [done|]. split.
  - eapply Forall2_Forall_l; [exact HP|]. apply Forall_true. eauto.
  - by apply np_prod_row_score.
Qed.

Lemma raw_scores_row_score `{Arith} (X : list (list npfloat)) (e : list npfloat) :
  X <> [] -> Forall (fun x => exists p, pow_broadcast x e = Ok p) X ->
  raw_scores X e = Ok (row_score e <$> X).
Proof.
  intros Hne HX. unfold raw_scores. destruct X as [|x X]; [done|].
  destruct (mapM (fun x => pow_broadcast x e) (x :: X)) as [P|] eqn:HP.
  - apply mapM_Ok_inv in HP. cbn [mbind result_bind].
    f_equal. by apply np_prod_row_score.
  - exfalso. clear Hne. revert HP.
    generalize (x :: X) HX. clear. intros l Hl.
    destruct (mapM_returns _ l Hl) as (ys & Hys & _). by rewrite Hys.
Qed.

Lemma np_array2_Ok_inv (X X' : list (list npfloat)) :
  np_array2 X = Ok X' ->
  X' = X /\ exists m, Forall (fun x => length x = m) X.
Proof.
  unfold np_array2. destruct X as [|x X]; intros HX.
  - simplify_eq. split; [done|]. by exists 0%nat.
  - destruct (decide _) as [Hall|]; [|done]. simplify_eq.
    split; [done|]. exists (length x). by constructor.
Qed.

Lemma table_of_pairs (L : list (string * list npfloat))
    (g : list npfloat -> npfloat) (h : npfloat -> npfloat) :
  table (L.*1) (g <$> L.*2) (h <$> (g <$> L.*2))
  = (fun p => Row p.1 (g p.2) (h (g p.2))) <$> L.
Proof.
  unfold table. induction L as [|[a x] L IH]; csimpl; [done|]. by rewrite IH.
Qed.

(** X11.  In exact arithmetic, the order in which the alternatives are
    given does not matter beyond the order of the lines of equal score:
    when the routine returns a table for some alternatives, it returns
    one for the same alternatives in any other order, with the same
    lines. *)
Theorem order_of_the_alternatives `{ArgSort}
    (L L' : list (string * list npfloat)) w ts crit (t : list row) :
  L ≡ₚ L' ->
  weighted_product (L.*2) w ts (L.*1) crit = Ok t ->
  exists t', weighted_product (L'.*2) w ts (L'.*1) crit = Ok t' /\ t' ≡ₚ t.
Proof.
  intros HL. unfold weighted_product, wp_scores. intros Ht.
  destruct (np_array2 (L.*2)) as [X0|] eqn:HX; [|done].
  apply np_array2_Ok_inv in HX as [-> [m Hm]]. simpl in Ht.
  destruct (negate_costs 0 ts (normalize_weights w)) as [e|]; [|done].
  simpl in Ht.
  destruct (raw_scores (L.*2) e) as [S|] eqn:HS; [|done]. simpl in Ht.
  apply raw_scores_Ok_inv in HS as (Hne & Hok & ->).
  unfold DataFrame in Ht.
  destruct (decide (length L.*1 = length (row_score e <$> L.*2))); [|done].
  simpl in Ht. simplify_eq.
  assert (HX' : L'.*2 ≡ₚ L.*2) by by rewrite HL.
  rewrite (np_array2_eq (L'.*2) m) by by rewrite HX'. simpl.
  rewrite raw_scores_row_score.
  2:{ intros Hnil. apply Hne. apply Permutation_nil_r. by rewrite <- HX', Hnil. }
  2:{ by rewrite HX'. }
  simpl. unfold DataFrame.
  rewrite decide_True by by rewrite !length_fmap.
  eexists. split; [done|]. rewrite !sort_values_perm.
  unfold scores_V.
  rewrite (np_sum_perm (row_score e <$> L'.*2) (row_score e <$> L.*2))
    by by rewrite HX'.
  rewrite !table_of_pairs. by rewrite HL.
Qed.

(** ** The text fields of the application *)

Lemma lower_char_idemp (c : ascii) : lower_char (lower_char c) = lower_char c.
Proof. destruct c as [[] [] [] [] [] [] [] []]; reflexivity. Qed.

Lemma lower_idemp (s : string) : lower (lower s) = lower s.
Proof.
  induction s as [|c s IH]; simpl; [done|]. by rewrite lower_char_idemp, IH.
Qed.

Lemma lstrip_lower (s : string) : lstrip (lower s) = lower (lstrip s).
Proof.
  induction s as [|c s IH]; simpl; [done|].
  rewrite isspace_lower_char. by destruct (isspace c).
Qed.

Lemma rstrip_lower (s : string) : rstrip (lower s) = lower (rstrip s).
Proof.
  induction s as [|c s IH]; simpl; [done|].
  rewrite IH, isspace_lower_char.
  destruct (rstrip s); simpl; [by destruct (isspace c)|done].
Qed.

Lemma strip_lower (s : string) : strip (lower s) = lower (strip s).
Proof. unfold strip. by rewrite rstrip_lower, lstrip_lower. Qed.

Lemma lstrip_idemp (s : string) : lstrip (lstrip s) = lstrip s.
Proof.
  induction s as [|c s IH]; simpl; [done|].
  destruct (isspace c) eqn:Hc; [done|]. simpl. by rewrite Hc.
Qed.

Lemma rstrip_idemp (s : string) : rstrip (rstrip s) = rstrip s.
Proof.
  induction s as [|c s IH]; simpl; [done|].
  destruct (rstrip s) as [|c' r] eqn:Hr.
  - destruct (isspace c) eqn:Hc; simpl; [done|]. by rewrite Hc.
  - change (rstrip (String c (String c' r)))
      with (match rstrip (String c' r) with
            | EmptyString => if isspace c then EmptyString else String c EmptyString
            | r0 => String c r0
            end).
    by rewrite IH.
Qed.

Lemma rstrip_lstrip (s : string) : rstrip s = s -> rstrip (lstrip s) = lstrip s.
Proof.
  induction s as [|c s IH]; simpl; [done|].
  destruct (isspace c) eqn:Hc; [|by simpl; rewrite Hc].
  intros Hs. apply IH. destruct (rstrip s); by simplify_eq.
Qed.

Lemma strip_idemp (s : string) : strip (strip s) = strip s.
Proof.
  unfold strip.
  by rewrite (rstrip_lstrip (rstrip s)), lstrip_idemp by apply rstrip_idemp.
Qed.

Lemma lower_empty (s : string) : lower s = EmptyString -> s = EmptyString.
Proof. by destruct s. Qed.

(** X12.  The labels the application passes on are already normalized:
    none is empty, lowering and stripping a label again gives the label
    itself, so the test of line 30 is the test whether the label is
    "cost". *)
Theorem parsed_types_are_normalized (criteria_types_input t : string) :
  t ∈ parse_types criteria_types_input ->
  t <> EmptyString
  /\ strip (lower t) = t
  /\ (is_cost t = true <-> t = "cost"%string).
Proof.
  unfold parse_types. intros (f & -> & Hf)%list_elem_of_fmap.
  apply list_elem_of_filter in Hf as [Hnb _]. unfold not_blank in Hnb.
  assert (Hn : strip (lower (lower (strip f))) = lower (strip f)).
  { by rewrite lower_idemp, strip_lower, strip_idemp. }
  split; [|split].
  - intros He. by apply lower_empty in He.
  - done.
  - rewrite is_cost_decide. by rewrite Hn.
Qed.

Lemma split_comma_nonempty (s : string) : split_comma s <> [].
Proof.
  induction s as [|c s IH]; simpl; [done|].
  destruct (Ascii.eqb c ","); [done|]. by destruct (split_comma s).
Qed.

Lemma split_comma_app (s1 s2 : string) :
  split_comma (s1 +:+ "," +:+ s2) = split_comma s1 ++ split_comma s2.
Proof.
  induction s1 as [|c s1 IH]; [done|].
  rewrite append_cons. simpl. rewrite IH.
  destruct (Ascii.eqb c ","); [done|].
  pose proof (split_comma_nonempty s1). by destruct (split_comma s1).
Qed.

Lemma split_comma_no_comma (s : string) :
  no_comma s = true -> split_comma s = [s].
Proof.
  induction s as [|c s IH]; simpl; [done|].
  intros [Hc Hs]%andb_true_iff. apply negb_true_iff in Hc.
  by rewrite Hc, IH.
Qed.

(** X13.  The field of the criteria types is cut at its commas, fields
    that are blank vanish, and every other field is stripped and
    lowered: the labels of a text with a comma are the labels before it
    followed by the labels after it, and a text without comma gives its
    one label, or none when it is blank. *)
Theorem parse_types_fields (s1 s2 : string) :
  parse_types (s1 +:+ "," +:+ s2) = parse_types s1 ++ parse_types s2
  /\ (no_comma s1 = true ->
      parse_types s1
      = if decide (not_blank s1) then [lower (strip s1)] else []).
Proof.
  unfold parse_types. split.
  - by rewrite split_comma_app, filter_app, fmap_app.
  - intros Hs. rewrite split_comma_no_comma by done.
    rewrite filter_cons, filter_nil. by destruct (decide (not_blank s1)).
Qed.

Lemma mapM_option_app {A B} (f : A -> option B) (l1 l2 : list A) :
  mapM f (l1 ++ l2)
  = k1 ← mapM f l1; k2 ← mapM f l2; Some (k1 ++ k2).
Proof.
  destruct (mapM f l1) as [k1|] eqn:H1; simpl.
  - destruct (mapM f l2) as [k2|] eqn:H2; simpl.
    + apply mapM_Some_2, Forall2_app; by apply mapM_Some_1.
    + apply mapM_None_2, Exists_app. right. by apply mapM_None_1.
  - apply mapM_None_2, Exists_app. left. by apply mapM_None_1.
Qed.

(** X14.  The field of the weights is read the same way: the weights of
    a text with a comma are the weights before it followed by those
    after it, and reading fails when either part fails; a text without
    comma gives no weight when it is blank and otherwise what [float]
    makes of it, unstripped. *)
Theorem parse_weights_fields (float : string -> option npfloat)
    (s1 s2 : string) :
  parse_weights float (s1 +:+ "," +:+ s2)
  = (k1 ← parse_weights float s1; k2 ← parse_weights float s2; Some (k1 ++ k2))
  /\ (no_comma s1 = true ->
      parse_weights float s1
      = if decide (not_blank s1) then x ← float s1; Some [x] else Some []).
Proof.
  unfold parse_weights. split.
  - by rewrite split_comma_app, filter_app, mapM_option_app.
  - intros Hs. rewrite split_comma_no_comma by done.
    rewrite filter_cons, filter_nil.
    destruct (decide (not_blank s1)); [|done]. csimpl. by destruct (float s1).
Qed.

(** ** The script of the application *)

Section ScriptProperties.
Context {arithmetic : Arith} `{ArgSort}.
Variable float : string -> option npfloat.

Lemma weighted_product_values_returns (n_crit : nat) X w ts alts crit :
  Forall (fun x => length x = n_crit) X ->
  length w = n_crit -> length ts = n_crit -> length alts = length X ->
  exists t, weighted_product_values n_crit X w ts alts crit = Ok t
         /\ length t = length X.
Proof.
  intros Hshape Hw Hts Halts. unfold weighted_product_values.
  destruct X as [|x X].
  - rewrite negate_costs_eq by by rewrite length_normalize_weights, Hw.
    simpl. rewrite decide_True.
    2:{ left. rewrite length_zip_with, length_normalize_weights. lia. }
    destruct alts; [|done]. unfold DataFrame. simpl.
    eexists. split; [done|]. by rewrite length_sort_values.
  - subst n_crit. eexists. split.
    + by apply weighted_product_eq.
    + rewrite length_sort_values, length_table; [done| |].
      * by rewrite length_scores_S.
      * by rewrite length_scores_V.
Qed.

Ltac run_script :=
  unfold script, pressed, mbind, ui_bind, mret, ui_ret, draw, end_run; simpl.

#[local] Set Warnings "-clear-no-such-hyp".

(** X15.  The download button reads a variable that only a computed
    ranking binds: a run ends with [NameError] exactly when the button
    was not pressed, or no file was uploaded, or one of the two text
    fields is blank; nothing but the one error message, if any, has been
    drawn by then. *)
Theorem download_without_ranking (proses : bool)
    (uploaded_file : option (option sheet))
    (weights_input criteria_types_input : string) :
  let run := script float proses uploaded_file weights_input
               criteria_types_input [] in
  (run.2 = inr NameError
   <-> proses = false \/ uploaded_file = None
       \/ ~ not_blank weights_input \/ ~ not_blank criteria_types_input)
  /\ (run.2 = inr NameError ->
      run.1 = [] \/ run.1 = [st_error NoFile]
      \/ run.1 = [st_error EmptyParameters]).
Proof.
  run_script.
  destruct proses; [|simpl; tauto].
  destruct uploaded_file as [[df|]|]; simpl; [| |naive_solver].
  - destruct (decide (~ not_blank weights_input
                      \/ ~ not_blank criteria_types_input)) as [Hb|Hb];
      simpl; [naive_solver|].
    destruct (decide (length (columns df) < 2)%nat); simpl; [naive_solver|].
    destruct (parse_weights float weights_input) as [ws|]; simpl;
      [|naive_solver].
    destruct (decide (length ws <> length (drop 1 (columns df)))); simpl;
      [naive_solver|].
    destruct (decide (length (parse_types criteria_types_input)
                      <> length (drop 1 (columns df)))); simpl;
      [naive_solver|].
    destruct (weighted_product_values _ _ _ _ _ _); simpl; naive_solver.
  - destruct (decide (~ not_blank weights_input
                      \/ ~ not_blank criteria_types_input)) as [Hb|Hb];
      simpl; naive_solver.
Qed.

(** X16.  The checks of the application are enough for the routine: on
    a sheet whose lines all have one cell per column, no run ends with
    an exception raised by [weighted_product]. *)
Theorem routine_raises_nothing_in_the_script (proses : bool)
    (uploaded_file : option (option sheet))
    (weights_input criteria_types_input : string) (e : exn) :
  (forall df, uploaded_file = Some (Some df) ->
     Forall (fun l => length l.2 = (length (columns df) - 1)%nat) (lines df)) ->
  (script float proses uploaded_file weights_input criteria_types_input []).2
  <> inr (EngineError e).
Proof.
  intros Hwf. run_script.
  destruct proses; [|done].
  destruct uploaded_file as [[df|]|]; simpl; [| |done].
  2:{ by destruct (decide _). }
  specialize (Hwf df eq_refl).
  destruct (decide (~ not_blank weights_input
                    \/ ~ not_blank criteria_types_input)); simpl; [done|].
  destruct (decide (length (columns df) < 2)%nat); simpl; [done|].
  destruct (parse_weights float weights_input) as [ws|]; simpl; [|done].
  destruct (decide (length ws <> length (drop 1 (columns df)))) as [|Hws];
    simpl; [done|].
  destruct (decide (length (parse_types criteria_types_input)
                    <> length (drop 1 (columns df)))) as [|Hts];
    simpl; [done|].
  destruct (weighted_product_values_returns (length (drop 1 (columns df)))
              (lines df).*2 ws (parse_types criteria_types_input)
              (lines df).*1 (drop 1 (columns df))) as (t & Ht & _).
  - apply Forall_fmap. eapply Forall_impl; [exact Hwf|].
    intros l Hl. simpl. rewrite Hl, length_drop. done.
  - by destruct (decide (length ws = length (drop 1 (columns df)))).
  - by destruct (decide (length (parse_types criteria_types_input)
                         = length (drop 1 (columns df)))).
  - by rewrite !length_fmap.
  - by rewrite Ht.
Qed.

(** X17.  A run that reaches its end has computed a ranking: the sheet
    was read, the weights were parsed, the routine returned a table, and
    what was drawn from line 96 on is, each under its heading, the sheet,
    the criteria and that table, then the download button carrying the
    same table, and the final message. *)
Theorem completed_run (proses : bool) (uploaded_file : option (option sheet))
    (weights_input criteria_types_input : string) (events : list ui_event) :
  script float proses uploaded_file weights_input criteria_types_input []
  = (events, inl tt) ->
  exists (df : sheet) (weights : list npfloat) (hasil_wp : list row),
    proses = true
    /\ uploaded_file = Some (Some df)
    /\ parse_weights float weights_input = Some weights
    /\ weighted_product_values (length (drop 1 (columns df))) (lines df).*2
         weights (parse_types criteria_types_input) (lines df).*1
         (drop 1 (columns df)) = Ok hasil_wp
    /\ events
       = [st_markdown "### Data Alternatif & Kriteria (dari Excel)";
          st_dataframe_input df;
          st_markdown "### Informasi Kriteria";
          st_table_info (zip (zip (drop 1 (columns df)) weights)
                             (parse_types criteria_types_input));
          st_markdown "### Hasil Perhitungan & Perangkingan (Metode WP)";
          st_dataframe_result hasil_wp;
          st_download_button hasil_wp;
          st_success].
Proof.
  run_script.
  destruct proses; [|done].
  destruct uploaded_file as [[df|]|]; simpl; [| |done].
  2:{ by destruct (decide _). }
  destruct (decide (~ not_blank weights_input
                    \/ ~ not_blank criteria_types_input)); simpl; [done|].
  destruct (decide (length (columns df) < 2)%nat); simpl; [done|].
  destruct (parse_weights float weights_input) as [ws|]; simpl; [|done].
  destruct (decide (length ws <> length (drop 1 (columns df)))); simpl;
    [done|].
  destruct (decide (length (parse_types criteria_types_input)
                    <> length (drop 1 (columns df)))); simpl; [done|].
  destruct (weighted_product_values _ _ _ _ _ _) as [t|] eqn:Ht; simpl;
    [|done].
  intros [= <-]. by exists df, ws, t.
Qed.

(** X18.  A run that stops has drawn one error message and nothing
    else; it stops exactly when the button was pressed with a file and
    two fields that are not blank and, in this order, the file cannot be
    read, or has fewer than two columns, or a weight cannot be read, or
    the number of weights or of types is not the number of criteria. *)
Theorem stopped_run (proses : bool) (uploaded_file : option (option sheet))
    (weights_input criteria_types_input : string) :
  let run := script float proses uploaded_file weights_input
               criteria_types_input [] in
  (run.2 = inr Stopped -> exists m, run.1 = [st_error m])
  /\ (run.2 = inr Stopped
      <-> proses = true
          /\ not_blank weights_input /\ not_blank criteria_types_input
          /\ exists file, uploaded_file = Some file
             /\ match file with
                | None => True
                | Some df =>
                    (length (columns df) < 2)%nat
                    \/ match parse_weights float weights_input with
                       | None => True
                       | Some weights =>
                           length weights <> length (drop 1 (columns df))
                           \/ length (parse_types criteria_types_input)
                              <> length (drop 1 (columns df))
                       end
                end).
Proof.
  run_script.
  destruct proses; [|simpl; naive_solver].
  destruct uploaded_file as [[df|]|]; simpl; [| |naive_solver].
  - destruct (decide (~ not_blank weights_input
                      \/ ~ not_blank criteria_types_input)) as [Hb|Hb];
      simpl; [naive_solver|].
    assert (not_blank weights_input /\ not_blank criteria_types_input)
      as [Hw Ht].
    { split; apply dec_stable; tauto. }
    destruct (decide (length (columns df) < 2)%nat); simpl; [naive_solver|].
    destruct (parse_weights float weights_input) as [ws|]; simpl;
      [|naive_solver].
    destruct (decide (length ws <> length (drop 1 (columns df)))); simpl;
      [naive_solver|].
    destruct (decide (length (parse_types criteria_types_input)
                      <> length (drop 1 (columns df)))); simpl;
      [naive_solver|].
    destruct (weighted_product_values _ _ _ _ _ _); simpl; naive_solver.
  - destruct (decide (~ not_blank weights_input
                      \/ ~ not_blank criteria_types_input)) as [Hb|Hb];
      simpl; [naive_solver|].
    assert (not_blank weights_input /\ not_blank criteria_types_input)
      as [Hw Ht].
    { split; apply dec_stable; tauto. }
    naive_solver.
Qed.
End ScriptProperties.

(** ** A zero on a cost criterion *)

Lemma np_prod_insert_PInf (l : list R) (j : nat) :
  Forall (fun r => 0 < r) l -> (j < length l)%nat ->
  np_prod (<[j := PInf]> (Fin <$> l)) = PInf.
Proof.
  intros Hl. revert j. induction Hl as [|a l Ha Hl IH]; intros j Hj;
    [simpl in Hj; lia|].
  destruct j as [|j]; csimpl.
  - fold (np_prod (Fin <$> l)). rewrite np_prod_Fin. simpl.
    unfold signed_inf. rewrite decide_True; [done|]. by apply Rprod_pos.
  - fold (np_prod (<[j := PInf]> (Fin <$> l))).
    rewrite IH by (simpl in Hj; lia). simpl.
    unfold signed_inf. by rewrite decide_True.
Qed.

Lemma np_sum_insert_PInf (l : list R) (i : nat) :
  (i < length l)%nat -> np_sum (<[i := PInf]> (Fin <$> l)) = PInf.
Proof.
  revert i. induction l as [|a l IH]; intros i Hi; [simpl in Hi; lia|].
  destruct i as [|i]; csimpl.
  - fold (np_sum (Fin <$> l)). by rewrite np_sum_Fin.
  - fold (np_sum (<[i := PInf]> (Fin <$> l))).
    by rewrite IH by (simpl in Hi; lia).
Qed.

Lemma fpow_zero_neg (b : R) : b < 0 -> fpow (Fin 0) (Fin b) = PInf.
Proof.
  intros Hb. simpl. rewrite decide_False by lra. unfold fpow_fin.
  rewrite decide_False by lra. rewrite decide_True by done.
  by rewrite decide_True.
Qed.

Lemma zip_with_fpow_zero (x e : list R) (j : nat) (ej : R) :
  Forall (fun r => 0 < r) x -> (j < length x)%nat ->
  e !! j = Some ej -> ej < 0 ->
  zip_with fpow (Fin <$> <[j := 0]> x) (Fin <$> e)
  = <[j := PInf]> (Fin <$> zip_with Rpower x e).
Proof.
  intros Hx. revert e j.
  induction Hx as [|a x Ha Hx IH]; intros [|b e] j Hj He Hej;
    try done; try (simpl in Hj; lia).
  destruct j as [|j]; simpl in He.
  - simplify_eq. cbn [insert list_insert]. rewrite !fmap_cons. cbn [zip_with].
    rewrite fmap_cons. cbn [insert list_insert].
    by rewrite fpow_zero_neg, zip_with_fpow_Fin.
  - cbn [insert list_insert]. rewrite !fmap_cons. cbn [zip_with].
    rewrite fmap_cons. cbn [insert list_insert].
    rewrite fpow_pos by done. f_equal. apply (IH e j); [simpl in Hj; lia|done..].
Qed.

Lemma table_app alts1 alts2 (S1 S2 V1 V2 : list npfloat) :
  length alts1 = length S1 -> length S1 = length V1 ->
  table (alts1 ++ alts2) (S1 ++ S2) (V1 ++ V2)
  = table alts1 S1 V1 ++ table alts2 S2 V2.
Proof.
  intros H1 H2. unfold table.
  assert (Hz : zip (S1 ++ S2) (V1 ++ V2) = zip S1 V1 ++ zip S2 V2)
    by by apply zip_with_app.
  rewrite Hz. apply zip_with_app.
  by rewrite length_zip_with, <- H2, Nat.min_id.
Qed.

Section ZeroCost.
Context `{ArgSort}.

(** X19.  In exact arithmetic (the statement is about
    [exact_arithmetic]: the finite results are neither rounded nor do
    they overflow, so the other raw scores stay finite), a zero entry on
    a cost criterion of positive weight, in an input that is valid
    otherwise: the power is infinite, so the alternative gets the raw
    score infinity and the preference score NaN and stands last in the
    table, and every other alternative gets the preference score 0. *)
Theorem zero_cost_entry (X : list (list R)) (w : list R)
    (ts alts crit : list string) (i j : nat) (x : list R) (t : string)
    (wj : R) :
  valid_input X w ts ->
  length alts = length X ->
  X !! i = Some x ->
  ts !! j = Some t -> is_cost t = true ->
  w !! j = Some wj -> 0 < wj ->
  exists (ranked : list row) (a : string),
    alts !! i = Some a
    /\ weighted_product (real_matrix (<[i := <[j := 0]> x]> X)) (Fin <$> w)
         ts alts crit
       = Ok (ranked ++ [Row a PInf NaN])
    /\ Forall (fun r => Nilai_V r = Fin 0) ranked.
Proof.
  intros Hv Halts Hi Ht Hc Hwj Hpos.
  pose proof Hv as [Hne Hshape Hent Hw Hsum Hlen Hty].
  set (e := exponent_vector w ts).
  set (S0 := spec_raw_score e <$> X).
  assert (HiX : (i < length X)%nat) by by eapply lookup_lt_Some.
  assert (Hxlen : length x = length w).
  { by apply (Forall_lookup_1 _ _ _ _ Hshape Hi). }
  assert (Hxpos : Forall (fun r => 0 < r) x).
  { by apply (Forall_lookup_1 _ _ _ _ Hent Hi). }
  assert (Hj : (j < length x)%nat).
  { rewrite Hxlen. by eapply lookup_lt_Some. }
  destruct (used_weights_pos w j wj Hsum Hwj Hpos) as (uj & Huj & Hujpos).
  assert (Hej : e !! j = Some (- uj)).
  { unfold e, exponent_vector. rewrite lookup_zip_with, Ht. simpl.
    rewrite Huj. simpl. unfold signed. by rewrite Hc. }
  assert (HS : scores_S (real_matrix (<[i := <[j := 0]> x]> X)) (Fin <$> w) ts
               = <[i := PInf]> (Fin <$> S0)).
  { unfold real_matrix. rewrite list_fmap_insert. unfold scores_S.
    rewrite list_fmap_insert.
    pose proof (scores_S_Fin X w ts) as HS0. unfold scores_S, real_matrix in HS0.
    rewrite HS0 by (done || lra). fold e S0. f_equal.
    rewrite exponents_Fin by lra. fold e.
    rewrite (zip_with_fpow_zero x e j (- uj)) by (done || lra).
    apply np_prod_insert_PInf; [apply zip_Rpower_pos|].
    rewrite length_zip_with. unfold e, exponent_vector.
    rewrite length_zip_with.
    assert (length (used_weights w) = length w).
    { unfold used_weights. destruct (close_to_one _); [done|].
      by rewrite length_fmap. }
    lia. }
  assert (HlenS0 : length S0 = length X) by (unfold S0; by rewrite length_fmap).
  assert (HV : scores_V (<[i := PInf]> (Fin <$> S0))
               = <[i := NaN]> ((fun _ => Fin 0) <$> S0)).
  { unfold scores_V. rewrite np_sum_insert_PInf by lia.
    rewrite list_fmap_insert. simpl. f_equal.
    by rewrite <- list_fmap_compose. }
  destruct (lookup_lt_is_Some_2 alts i) as [a Ha]; [lia|].
  assert (Hsc : wp_scores (real_matrix (<[i := <[j := 0]> x]> X)) (Fin <$> w) ts
                = Ok (<[i := PInf]> (Fin <$> S0),
                      <[i := NaN]> ((fun _ => Fin 0) <$> S0))).
  { rewrite wp_scores_eq.
    - by rewrite HS, HV.
    - unfold real_matrix. intros Hnil%fmap_nil_inv.
      apply (f_equal length) in Hnil. rewrite length_insert in Hnil.
      simpl in Hnil. lia.
    - unfold real_matrix. apply Forall_fmap, Forall_insert.
      + eapply Forall_impl; [exact Hshape|]. intros y Hy. simpl.
        by rewrite !length_fmap.
      + simpl. by rewrite !length_fmap, length_insert.
    - by rewrite length_fmap. }
  rewrite (weighted_product_of_scores _ _ _ _ _ _ _ Hsc)
    by by rewrite length_insert, length_fmap, HlenS0.
  set (Sf := Fin <$> S0). set (Vf := (fun _ : R => Fin 0) <$> S0).
  assert (HlenSf : length Sf = length X) by (unfold Sf; by rewrite length_fmap).
  assert (HlenVf : length Vf = length X) by (unfold Vf; by rewrite length_fmap).
  assert (Htab : table alts (<[i := PInf]> Sf) (<[i := NaN]> Vf)
                 = table (take i alts) (take i Sf) (take i Vf)
                   ++ Row a PInf NaN
                      :: table (drop (Datatypes.S i) alts)
                           (drop (Datatypes.S i) Sf) (drop (Datatypes.S i) Vf)).
  { rewrite <- (take_drop_middle alts i a Ha) at 1.
    rewrite (insert_take_drop Sf), (insert_take_drop Vf) by lia.
    rewrite table_app by (rewrite !length_take; lia). done. }
  assert (Hzero : forall l, Forall (fun v => v = Fin 0) l ->
                   forall al Sl, Forall (fun r => Nilai_V r = Fin 0) (table al Sl l)).
  { intros l Hl al Sl. by apply (table_Forall_V (fun v => v = Fin 0)). }
  assert (HVf : Forall (fun v => v = Fin 0) Vf).
  { unfold Vf. apply Forall_fmap. by apply Forall_true. }
  pose proof (Hzero (take i Vf) (Forall_take _ i _ HVf) (take i alts) (take i Sf)) as Hz1.
  pose proof (Hzero (drop (Datatypes.S i) Vf) (Forall_drop _ (Datatypes.S i) _ HVf)
                (drop (Datatypes.S i) alts) (drop (Datatypes.S i) Sf)) as Hz2.
  destruct (sort_values_structure (table alts (<[i := PInf]> Sf) (<[i := NaN]> Vf)))
    as (ranked & Hs & Hp & _).
  exists ranked, a. split; [done|]. split.
  - rewrite Hs. do 2 f_equal. rewrite Htab, filter_app, filter_cons. simpl.
    rewrite !filter_none; [done| |].
    + eapply Forall_impl; [exact Hz2|]. intros r Hr. simpl in Hr.
      rewrite Hr. simpl. tauto.
    + eapply Forall_impl; [exact Hz1|]. intros r Hr. simpl in Hr.
      rewrite Hr. simpl. tauto.
  - rewrite Hp. apply Forall_forall. intros r Hr.
    apply list_elem_of_filter in Hr as [Hnn Hr]. rewrite Htab in Hr.
    apply elem_of_app in Hr as [Hr|Hr].
    + by apply (proj1 (Forall_forall _ _) Hz1).
    + apply elem_of_cons in Hr as [->|Hr]; [done|].
      by apply (proj1 (Forall_forall _ _) Hz2).
Qed.
End ZeroCost.

(** ** Benefit and cost exchanged *)

Lemma signed_flip (ts ts' : list string) (u : list R) :
  Forall2 (fun t t' => is_cost t' = negb (is_cost t)) ts ts' ->
  zip_with signed ts' u = Ropp <$> zip_with signed ts u.
Proof.
  intros Hf. revert u. induction Hf as [|t t' ts ts' Ht Hf IH]; intros [|a u];
    try done.
  cbn [zip_with]. rewrite fmap_cons, IH. f_equal.
  unfold signed. rewrite Ht. destruct (is_cost t); simpl; lra.
Qed.

Lemma spec_raw_score_opp (e x : list R) :
  spec_raw_score (Ropp <$> e) x = / spec_raw_score e x.
Proof.
  unfold spec_raw_score. revert e. induction x as [|a x IH]; intros [|b e];
    simpl; try (symmetry; apply Rinv_1).
  fold (Rprod (zip_with Rpower x (Ropp <$> e))).
  fold (Rprod (zip_with Rpower x e)).
  by rewrite IH, Rpower_Ropp, Rinv_mult.
Qed.

(** X20.  In exact arithmetic, exchanging benefit and cost on every
    criterion turns every raw score into its inverse: the order of the
    raw scores is reversed. *)
Theorem benefit_and_cost_exchanged (X : list (list R)) (w : list R)
    (ts ts' : list string) :
  valid_input X w ts -> valid_input X w ts' ->
  Forall2 (fun t t' => is_cost t' = negb (is_cost t)) ts ts' ->
  exists (S S' : list R) (V V' : list npfloat),
    wp_scores (real_matrix X) (Fin <$> w) ts = Ok (Fin <$> S, V)
    /\ wp_scores (real_matrix X) (Fin <$> w) ts' = Ok (Fin <$> S', V')
    /\ S' = Rinv <$> S
    /\ Forall (fun s => 0 < s) S
    /\ (forall i k si sk, S !! i = Some si -> S !! k = Some sk -> si <= sk ->
          exists si' sk', S' !! i = Some si' /\ S' !! k = Some sk'
                          /\ sk' <= si').
Proof.
  intros Hv Hv' Hf.
  set (e := exponent_vector w ts).
  exists (spec_raw_score e <$> X), (spec_raw_score (exponent_vector w ts') <$> X).
  eexists _, _.
  split; [by apply wp_scores_valid|]. split; [by apply wp_scores_valid|].
  assert (He : exponent_vector w ts' = Ropp <$> e).
  { unfold e, exponent_vector. by apply signed_flip. }
  assert (HS' : spec_raw_score (exponent_vector w ts') <$> X
                = Rinv <$> (spec_raw_score e <$> X)).
  { rewrite He, <- list_fmap_compose. apply list_fmap_ext.
    intros k y _. simpl. apply spec_raw_score_opp. }
  assert (Hpos : Forall (fun s => 0 < s) (spec_raw_score e <$> X)).
  { apply Forall_fmap, Forall_true. intros y. apply spec_raw_score_pos. }
  split; [done|]. split; [done|].
  intros i k si sk Hi Hk Hle. rewrite HS'.
  exists (/ si), (/ sk).
  rewrite (list_lookup_fmap Rinv _ i), (list_lookup_fmap Rinv _ k), Hi, Hk.
  split; [done|]. split; [done|].
  apply Rinv_le_contravar; [|done].
  by apply (Forall_lookup_1 _ _ _ _ Hpos Hi).
Qed.

(** ** The table as a whole *)

(** X21.  In exact arithmetic and whatever the values, a table the
    routine returns has every alternative exactly once, and on every line
    the preference score is the raw score divided by the sum of the raw
    scores of the table. *)
Theorem table_is_consistent `{ArgSort} X w ts alts crit (t : list row) :
  weighted_product X w ts alts crit = Ok t ->
  Alternatif <$> t ≡ₚ alts
  /\ Forall (fun r => Nilai_V r = fdiv (Nilai_S r) (np_sum (Nilai_S <$> t))) t.
Proof.
  unfold weighted_product. intros Ht.
  destruct (wp_scores X w ts) as [[S V]|] eqn:Hsc; [|done].
  apply wp_scores_V in Hsc as ->. simpl in Ht. unfold DataFrame in Ht.
  destruct (decide (length alts = length S)) as [Hlen|]; [|done].
  simpl in Ht. simplify_eq.
  pose proof (sort_values_perm (table alts S (scores_V S))) as Hp.
  assert (HlenV : length S = length (scores_V S))
    by by rewrite length_scores_V.
  split.
  - by rewrite Hp, table_Alternatif.
  - assert (Hsum : np_sum (Nilai_S <$> sort_values (table alts S (scores_V S)))
                   = np_sum S).
    { transitivity (np_sum (Nilai_S <$> table alts S (scores_V S))).
      - apply np_sum_perm. by rewrite Hp.
      - by rewrite table_Nilai_S. }
    rewrite Hsum. eapply Permutation_Forall; [symmetry; exact Hp|].
    unfold scores_V.
    by apply (table_Forall_SV (fun s v => v = fdiv s (np_sum S))).
Qed.

(** ** The properties at concrete inputs *)

Lemma scenario_shape :
  real_matrix scenario_X <> []
  /\ Forall (fun x => length x = 2%nat) (real_matrix scenario_X).
Proof. split; [done|by repeat constructor]. Qed.

Lemma weighted_product_returns_iff_witness :
  real_matrix scenario_X <> []
  /\ ((exists t, weighted_product (real_matrix scenario_X) (Fin <$> scenario_w)
                   scenario_types scenario_labels [] = Ok t)
      <-> ~ cost_beyond (Fin <$> scenario_w) scenario_types
          /\ broadcasts 2 (length (Fin <$> scenario_w))
          /\ length scenario_labels = length (real_matrix scenario_X)).
Proof.
  split; [done|].
  apply (weighted_product_returns_iff (real_matrix scenario_X)
           (Fin <$> scenario_w) scenario_types scenario_labels [] 2);
    apply scenario_shape.
Defined.

Lemma weighted_product_exception_witness :
  cost_beyond [] ["cost"%string]
  /\ weighted_product (real_matrix scenario_X) [] ["cost"%string]
       scenario_labels [] = Raise IndexError.
Proof.
  assert (Hc : cost_beyond [] ["cost"%string]).
  { unfold cost_beyond. simpl. by left. }
  split; [exact Hc|].
  apply (weighted_product_exception (real_matrix scenario_X) []
           ["cost"%string] scenario_labels [] 2);
    [apply scenario_shape|apply scenario_shape|exact Hc].
Defined.

Lemma trailing_labels_without_cost_witness :
  Forall (fun t => is_cost t = false) ["benefit"%string]
  /\ weighted_product (real_matrix scenario_X) (Fin <$> scenario_w)
       (["benefit"%string] ++ ["benefit"%string]) scenario_labels []
     = weighted_product (real_matrix scenario_X) (Fin <$> scenario_w)
         ["benefit"%string] scenario_labels [].
Proof.
  assert (Hb : Forall (fun t => is_cost t = false) ["benefit"%string]).
  { by repeat constructor. }
  split; [exact Hb|].
  exact (trailing_labels_without_cost (real_matrix scenario_X)
           (Fin <$> scenario_w) ["benefit"%string] ["benefit"%string]
           scenario_labels [] Hb).
Defined.

Lemma single_weight_broadcast_witness :
  ~ cost_beyond [Fin 1] ["benefit"%string]
  /\ exists e : npfloat,
       exponents_gen [Fin 1] ["benefit"%string] = [e]
       /\ weighted_product (real_matrix scenario_X) [Fin 1] ["benefit"%string]
            scenario_labels []
          = Ok (sort_values
                  (table scenario_labels
                     ((fun r => np_prod ((fun b => fpow b e) <$> r))
                        <$> real_matrix scenario_X)
                     (scores_V
                        ((fun r => np_prod ((fun b => fpow b e) <$> r))
                           <$> real_matrix scenario_X)))).
Proof.
  assert (Hc : ~ cost_beyond [Fin 1] ["benefit"%string]).
  { unfold cost_beyond. simpl. by intros ?%Exists_nil. }
  split; [exact Hc|].
  apply (single_weight_broadcast (real_matrix scenario_X) (Fin 1)
           ["benefit"%string] scenario_labels [] 2);
    [apply scenario_shape|apply scenario_shape|exact Hc|done].
Defined.

Lemma close_to_one_far (s : R) : 2 <= s -> close_to_one s = false.
Proof.
  intros Hs. apply bool_decide_eq_false_2.
  rewrite Rabs_pos_eq by lra. unfold atol, rtol. lra.
Qed.

Lemma weights_up_to_scale_witness :
  close_to_one (Rsum [2; 2]) = false
  /\ weighted_product (real_matrix scenario_X) (Fin <$> (Rmult 2 <$> [2; 2]))
       scenario_types scenario_labels []
     = weighted_product (real_matrix scenario_X) (Fin <$> [2; 2])
         scenario_types scenario_labels [].
Proof.
  assert (Hc : close_to_one (Rsum [2; 2]) = false).
  { apply close_to_one_far. simpl. lra. }
  split; [exact Hc|].
  apply (weights_up_to_scale (real_matrix scenario_X) [2; 2] 2
           scenario_types scenario_labels []);
    [lra|simpl; lra|exact Hc|apply close_to_one_far; simpl; lra].
Defined.

Lemma scores_within_bounds_witness :
  valid_input scenario_X scenario_w scenario_types
  /\ exists t, weighted_product (real_matrix scenario_X) (Fin <$> scenario_w)
                 scenario_types scenario_labels [] = Ok t
       /\ Forall (fun r => exists s v : R,
                    Nilai_S r = Fin s /\ Nilai_V r = Fin v
                    /\ 0 < s /\ 0 < v <= 1
                    /\ ((2 <= length scenario_X)%nat -> v < 1)) t.
Proof.
  split; [exact scenario_valid|].
  exact (scores_within_bounds scenario_X scenario_w scenario_types
           scenario_labels [] scenario_valid eq_refl).
Defined.

Lemma ranked_by_raw_score_witness :
  valid_input scenario_X scenario_w scenario_types
  /\ exists t, weighted_product (real_matrix scenario_X) (Fin <$> scenario_w)
                 scenario_types scenario_labels [] = Ok t
       /\ StronglySorted (fun r1 r2 => fle (Nilai_S r2) (Nilai_S r1)) t.
Proof.
  split; [exact scenario_valid|].
  exact (ranked_by_raw_score scenario_X scenario_w scenario_types
           scenario_labels [] scenario_valid eq_refl).
Defined.

Lemma scenario_dominance (j : nat) (t : string) (xa xb : R) :
  scenario_types !! j = Some t ->
  [80; 70] !! j = Some xa -> [60; 90] !! j = Some xb ->
  if is_cost t then xa <= xb else xb <= xa.
Proof.
  destruct j as [|[|j]]; simpl; intros; simplify_eq.
  - rewrite is_cost_benefit. lra.
  - rewrite is_cost_cost. lra.
Qed.

Lemma dominance_respected_witness :
  valid_input scenario_X scenario_w scenario_types
  /\ exists (S V : list npfloat) (sa sb va vb : R),
       wp_scores (real_matrix scenario_X) (Fin <$> scenario_w) scenario_types
       = Ok (S, V)
       /\ S !! 0%nat = Some (Fin sa) /\ S !! 1%nat = Some (Fin sb)
       /\ V !! 0%nat = Some (Fin va) /\ V !! 1%nat = Some (Fin vb)
       /\ sb <= sa /\ vb <= va.
Proof.
  split; [exact scenario_valid|].
  exact (dominance_respected scenario_X scenario_w scenario_types 0 1
           [80; 70] [60; 90] scenario_valid eq_refl eq_refl
           scenario_dominance).
Defined.

Lemma nan_entry_poisons_witness :
  [NaN; Fin 70] !! 0%nat = Some NaN
  /\ exists t, weighted_product [[NaN; Fin 70]; [Fin 60; Fin 90]]
                 (Fin <$> scenario_w) scenario_types scenario_labels [] = Ok t
       /\ Alternatif <$> t = scenario_labels
       /\ Forall (fun r => Nilai_V r = NaN) t.
Proof.
  split; [done|].
  apply (nan_entry_poisons [[NaN; Fin 70]; [Fin 60; Fin 90]]
           (Fin <$> scenario_w) scenario_types scenario_labels [] 0 0
           [NaN; Fin 70] (Fin (1/2)));
    [done|by repeat constructor|done|done|done|done| |].
  - rewrite exponents_Fin by (simpl; lra). by rewrite scenario_exponents.
  - intros [=]. lra.
Defined.

Lemma nan_lines_last_witness :
  wp_scores [[Fin 0]] [Fin 1] ["benefit"%string] = Ok ([Fin 0], [NaN])
  /\ exists ranked,
       weighted_product [[Fin 0]] [Fin 1] ["benefit"%string] ["A"%string] []
       = Ok (ranked ++ filter (fun r => isnan (Nilai_V r))
                         (table ["A"%string] [Fin 0] [NaN]))
       /\ ranked ≡ₚ filter (fun r => ~ isnan (Nilai_V r))
                      (table ["A"%string] [Fin 0] [NaN])
       /\ StronglySorted V_ge ranked.
Proof.
  split; [exact zero_total_scores|].
  exact (nan_lines_last [[Fin 0]] [Fin 1] ["benefit"%string] ["A"%string] []
           [Fin 0] [NaN] zero_total_scores eq_refl).
Defined.

Lemma scenario_lines_table :
  weighted_product (scenario_lines.*2) (Fin <$> scenario_w) scenario_types
    (scenario_lines.*1) []
  = Ok (sort_values
          (table scenario_labels
             (scores_S (real_matrix scenario_X) (Fin <$> scenario_w)
                scenario_types)
             (scores_V (scores_S (real_matrix scenario_X) (Fin <$> scenario_w)
                          scenario_types)))).
Proof.
  apply (weighted_product_eq (real_matrix scenario_X) (Fin <$> scenario_w)
           scenario_types scenario_labels []);
    [done|by repeat constructor|done|done].
Qed.

Lemma order_of_the_alternatives_witness :
  scenario_lines ≡ₚ reverse scenario_lines
  /\ exists t', weighted_product ((reverse scenario_lines).*2)
                  (Fin <$> scenario_w) scenario_types
                  ((reverse scenario_lines).*1) [] = Ok t'
       /\ t' ≡ₚ sort_values
                  (table scenario_labels
                     (scores_S (real_matrix scenario_X) (Fin <$> scenario_w)
                        scenario_types)
                     (scores_V (scores_S (real_matrix scenario_X)
                                  (Fin <$> scenario_w) scenario_types))).
Proof.
  assert (Hp : scenario_lines ≡ₚ reverse scenario_lines).
  { symmetry. apply reverse_Permutation. }
  split; [exact Hp|].
  exact (order_of_the_alternatives scenario_lines (reverse scenario_lines)
           (Fin <$> scenario_w) scenario_types [] _ Hp scenario_lines_table).
Defined.

Lemma parse_types_example :
  parse_types "Benefit, COST ,"%string = ["benefit"%string; "cost"%string].
Proof. by vm_compute. Qed.

Lemma parsed_types_are_normalized_witness :
  "cost"%string ∈ parse_types "Benefit, COST ,"%string
  /\ "cost"%string <> EmptyString
  /\ strip (lower "cost"%string) = "cost"%string
  /\ (is_cost "cost"%string = true <-> "cost"%string = "cost"%string).
Proof.
  assert (Hin : "cost"%string ∈ parse_types "Benefit, COST ,"%string).
  { rewrite parse_types_example. apply list_elem_of_further, list_elem_of_here. }
  split; [exact Hin|].
  exact (parsed_types_are_normalized "Benefit, COST ,"%string "cost"%string Hin).
Defined.

Lemma one_line_sheet_shape (df : sheet) :
  Some (Some one_line_sheet) = Some (Some df) ->
  Forall (fun l => length l.2 = (length (columns df) - 1)%nat) (lines df).
Proof. intros [= <-]. by repeat constructor. Qed.

Lemma routine_raises_nothing_in_the_script_witness :
  (script (H := insertion_sort) float_one true (Some (Some one_line_sheet))
     "1"%string "benefit"%string []).2
  <> inr (EngineError ValueError).
Proof.
  exact (routine_raises_nothing_in_the_script (H := insertion_sort) float_one
           true (Some (Some one_line_sheet)) "1"%string "benefit"%string
           ValueError one_line_sheet_shape).
Defined.

Lemma one_line_run :
  exists t,
    script (H := insertion_sort) float_one true (Some (Some one_line_sheet))
      "1"%string "benefit"%string []
    = ([st_markdown "### Data Alternatif & Kriteria (dari Excel)";
        st_dataframe_input one_line_sheet;
        st_markdown "### Informasi Kriteria";
        st_table_info [("C1"%string, Fin 1, "benefit"%string)];
        st_markdown "### Hasil Perhitungan & Perangkingan (Metode WP)";
        st_dataframe_result t; st_download_button t; st_success], inl tt).
Proof.
  destruct (weighted_product_values_returns (H := insertion_sort) 1
              [[Fin 5]] [Fin 1] ["benefit"%string] ["A"%string] ["C1"%string])
    as (t & Ht & _); [by repeat constructor|done..|].
  exists t.
  unfold script, pressed, mbind, ui_bind, mret, ui_ret, draw, end_run.
  change (parse_weights float_one "1") with (Some [Fin 1]).
  change (parse_types "benefit") with ["benefit"%string].
  simpl in Ht |- *. by rewrite Ht.
Qed.

Lemma completed_run_witness :
  exists events,
    script (H := insertion_sort) float_one true (Some (Some one_line_sheet))
      "1"%string "benefit"%string [] = (events, inl tt)
    /\ exists (df : sheet) (weights : list npfloat) (hasil_wp : list row),
         true = true
         /\ Some (Some one_line_sheet) = Some (Some df)
         /\ parse_weights float_one "1"%string = Some weights
         /\ weighted_product_values (H := insertion_sort)
              (length (drop 1 (columns df))) (lines df).*2 weights
              (parse_types "benefit"%string) (lines df).*1
              (drop 1 (columns df)) = Ok hasil_wp
         /\ events
            = [st_markdown "### Data Alternatif & Kriteria (dari Excel)";
               st_dataframe_input df;
               st_markdown "### Informasi Kriteria";
               st_table_info (zip (zip (drop 1 (columns df)) weights)
                                  (parse_types "benefit"%string));
               st_markdown "### Hasil Perhitungan & Perangkingan (Metode WP)";
               st_dataframe_result hasil_wp;
               st_download_button hasil_wp;
               st_success].
Proof.
  destruct one_line_run as [t Ht]. eexists. split; [exact Ht|].
  exact (completed_run (H := insertion_sort) float_one true
           (Some (Some one_line_sheet)) "1"%string "benefit"%string _ Ht).
Defined.

Lemma zero_cost_entry_witness :
  valid_input scenario_X scenario_w scenario_types
  /\ exists (ranked : list row) (a : string),
       scenario_labels !! 0%nat = Some a
       /\ weighted_product
            (real_matrix (<[0%nat := <[1%nat := 0]> [80; 70]]> scenario_X))
            (Fin <$> scenario_w) scenario_types scenario_labels []
          = Ok (ranked ++ [Row a PInf NaN])
       /\ Forall (fun r => Nilai_V r = Fin 0) ranked.
Proof.
  split; [exact scenario_valid|].
  apply (zero_cost_entry scenario_X scenario_w scenario_types scenario_labels
           [] 0 1 [80; 70] "cost"%string (1/2));
    [exact scenario_valid|done|done|done|done|done|lra].
Defined.

Lemma scenario_exchanged_valid :
  valid_input scenario_X scenario_w ["cost"; "benefit"]%string.
Proof.
  split.
  - done.
  - repeat constructor.
  - repeat constructor; lra.
  - repeat constructor; lra.
  - simpl. lra.
  - done.
  - repeat constructor; by (left + right).
Qed.

Lemma benefit_and_cost_exchanged_witness :
  Forall2 (fun t t' => is_cost t' = negb (is_cost t)) scenario_types
    ["cost"; "benefit"]%string
  /\ exists (S S' : list R) (V V' : list npfloat),
       wp_scores (real_matrix scenario_X) (Fin <$> scenario_w) scenario_types
       = Ok (Fin <$> S, V)
       /\ wp_scores (real_matrix scenario_X) (Fin <$> scenario_w)
            ["cost"; "benefit"]%string = Ok (Fin <$> S', V')
       /\ S' = Rinv <$> S
       /\ Forall (fun s => 0 < s) S
       /\ (forall i k si sk, S !! i = Some si -> S !! k = Some sk -> si <= sk ->
             exists si' sk', S' !! i = Some si' /\ S' !! k = Some sk'
                             /\ sk' <= si').
Proof.
  assert (Hf : Forall2 (fun t t' => is_cost t' = negb (is_cost t))
                 scenario_types ["cost"; "benefit"]%string).
  { by repeat constructor. }
  split; [exact Hf|].
  exact (benefit_and_cost_exchanged scenario_X scenario_w scenario_types
           ["cost"; "benefit"]%string scenario_valid scenario_exchanged_valid
           Hf).
Defined.

Lemma parse_types_fields_witness :
  parse_types (" Benefit" +:+ "," +:+ "COST ")
  = parse_types " Benefit" ++ parse_types "COST "
  /\ no_comma " Benefit" = true
  /\ parse_types " Benefit"
     = if decide (not_blank " Benefit") then [lower (strip " Benefit")] else [].
Proof.
  destruct (parse_types_fields " Benefit" "COST ") as [Happ Hone].
  split; [exact Happ|]. split; [reflexivity|]. exact (Hone eq_refl).
Defined.

Lemma parse_weights_fields_witness :
  parse_weights float_one ("1" +:+ "," +:+ " ")
  = (k1 ← parse_weights float_one "1"; k2 ← parse_weights float_one " ";
     Some (k1 ++ k2))
  /\ no_comma "1" = true
  /\ parse_weights float_one "1"
     = if decide (not_blank "1") then x ← float_one "1"; Some [x] else Some [].
Proof.
  destruct (parse_weights_fields float_one "1" " ") as [Happ Hone].
  split; [exact Happ|]. split; [reflexivity|]. exact (Hone eq_refl).
Defined.

Lemma download_without_ranking_witness :
  let run := script (H := insertion_sort) float_one false None
               "1"%string "benefit"%string [] in
  run.2 = inr NameError
  /\ (run.1 = [] \/ run.1 = [st_error NoFile]
      \/ run.1 = [st_error EmptyParameters]).
Proof.
  destruct (download_without_ranking (H := insertion_sort) float_one false
              None "1"%string "benefit"%string) as [Hiff Hlog].
  assert (Hend : (script (H := insertion_sort) float_one false None
                    "1"%string "benefit"%string []).2 = inr NameError).
  { apply Hiff. by left. }
  split; [exact Hend|exact (Hlog Hend)].
Defined.

Lemma not_blank_one : not_blank "1".
Proof. unfold not_blank. by vm_compute. Qed.

Lemma not_blank_benefit : not_blank "benefit".
Proof. unfold not_blank. by vm_compute. Qed.

Lemma stopped_run_witness :
  let run := script (H := insertion_sort) float_one true (Some None)
               "1"%string "benefit"%string [] in
  run.2 = inr Stopped /\ exists m, run.1 = [st_error m].
Proof.
  destruct (stopped_run (H := insertion_sort) float_one true (Some None)
              "1"%string "benefit"%string) as [Hlog Hiff].
  assert (Hend : (script (H := insertion_sort) float_one true (Some None)
                    "1"%string "benefit"%string []).2 = inr Stopped).
  { apply Hiff. split; [done|]. split; [exact not_blank_one|].
    split; [exact not_blank_benefit|]. by exists None. }
  split; [exact Hend|exact (Hlog Hend)].
Defined.

Lemma table_is_consistent_witness :
  let t := sort_values
             (table scenario_labels
                (scores_S (real_matrix scenario_X) (Fin <$> scenario_w)
                   scenario_types)
                (scores_V (scores_S (real_matrix scenario_X)
                             (Fin <$> scenario_w) scenario_types))) in
  weighted_product (scenario_lines.*2) (Fin <$> scenario_w) scenario_types
    (scenario_lines.*1) [] = Ok t
  /\ Alternatif <$> t ≡ₚ scenario_lines.*1
  /\ Forall (fun r => Nilai_V r = fdiv (Nilai_S r) (np_sum (Nilai_S <$> t))) t.
Proof.
  split; [exact scenario_lines_table|].
  exact (table_is_consistent _ _ _ _ _ _ scenario_lines_table).
Defined.
